(** * The unconditional UNet of [diffusers/models/unet_unconditional.py]

    A shallow embedding of the block-graph construction
    ([UNetUnconditionalModel.__init__]), of the forward data flow
    ([UNetUnconditionalModel.forward]) and of the small modules defined in
    the same file ([Combine], [TimestepEmbedding], [Timesteps]).

    Numerical kernels ([torch] convolutions, linear maps, normalisation,
    the residual and attention blocks) are operations of an abstract
    [Backend]; what is modelled concretely is how the Python code wires
    them together, which values it threads through, and where it raises. *)

From Stdlib Require Import ZArith QArith Lia.
From stdpp Require Import base option list strings gmap pretty.

Open Scope string_scope.
Open Scope list_scope.
Open Scope nat_scope.

(** ** Python control outcomes *)

Inductive exn :=
| ValueError (msg : string)
| TypeError (msg : string)
| IndexError (msg : string)
| AttributeError (msg : string)
| UnboundLocalError (var : string)
| ZeroDivisionError
| AssertionError
| RuntimeError (msg : string).

(** [Breakpoint] is [ipdb.set_trace()]: the interpreter stops in the
    interactive debugger and the call does not go on by itself. *)
Inductive outcome (A : Type) :=
| Ret (a : A)
| Raise (e : exn)
| Breakpoint.
Arguments Ret {A} a.
Arguments Raise {A} e.
Arguments Breakpoint {A}.

#[global] Instance outcome_ret : MRet outcome := @Ret.
#[global] Instance outcome_bind : MBind outcome := λ A B f c,
  match c with
  | Ret a => f a
  | Raise e => Raise e
  | Breakpoint => Breakpoint
  end.

Definition returns {A} (c : outcome A) : Prop := ∃ a, c = Ret a.
Definition raises {A} (c : outcome A) : Prop := ∃ e, c = Raise e.

(** The specification's [ConfigurationError] is the code's [ValueError]
    (the only exception class the file raises for a bad option string). *)
Definition is_configuration_error (e : exn) : bool :=
  match e with ValueError _ => true | _ => false end.

Definition require_some {A} (what : string) (o : option A) : outcome A :=
  match o with
  | Some a => Ret a
  | None => Raise (TypeError (what +:+ " is None"))
  end.

Definition assert (b : bool) : outcome unit :=
  if b then Ret tt else Raise AssertionError.

(** [l[i]] for a non-negative index. *)
Definition getitem {A} (l : list A) (i : nat) : outcome A :=
  match l !! i with
  | Some a => Ret a
  | None => Raise (IndexError "list index out of range")
  end.

(** [l[-1]]. *)
Definition getitem_last {A} (l : list A) : outcome A :=
  match last l with
  | Some a => Ret a
  | None => Raise (IndexError "list index out of range")
  end.

(** [l[-n:]] and [l[:-n]] for [n = len(...)], a non-negative integer.
    Python reads [-0] as [0]: [l[-0:]] is the whole of [l] and [l[:-0]] is
    empty. A slice never raises: when [l] is shorter than [n] the first is
    all of [l] and the second is empty. *)
Definition slice_from_neg {A} (n : nat) (l : list A) : list A :=
  if decide (n = 0) then l else drop (length l - n) l.
Definition slice_to_neg {A} (n : nat) (l : list A) : list A :=
  if decide (n = 0) then [] else take (length l - n) l.

(** [str.lower()] on ASCII letters. *)
Definition lower_ascii (c : Ascii.ascii) : Ascii.ascii :=
  let n := Ascii.nat_of_ascii c in
  if (65 <=? n) && (n <=? 90) then Ascii.ascii_of_nat (n + 32) else c.
Fixpoint lower (s : string) : string :=
  match s with
  | EmptyString => EmptyString
  | String c s' => String (lower_ascii c) (lower s')
  end.

(** [x in l] for a list of numbers. *)
Definition contains (x : nat) (l : list nat) : bool := bool_decide (x ∈ l).

(** ** Tensors *)

(** Floating-point numbers are not interpreted: a [Numerics] gives the type
    of Python/torch floats and the integer part of a float, which an
    infinity and a NaN do not have. *)
Class Numerics := {
  Float : Type;
  float_to_long : Float → option Z
}.

(** The values of [torch.long], a signed 64-bit integer. *)
Definition int64_min : Z := (- 2 ^ 63)%Z.
Definition int64_max : Z := (2 ^ 63 - 1)%Z.
Definition fits_int64 (z : Z) : bool := ((int64_min <=? z) && (z <=? int64_max))%Z.

Inductive Dtype := torch_long | torch_float.

Section Tensors.
Context `{Numerics}.

Inductive Elt :=
| ELong (z : Z)
| EFloat (f : Float).

Record Tensor := mkTensor {
  shape : list nat;
  dtype : Dtype;
  device : string;
  data : list Elt
}.

(** A Python number, [int] or [float]. *)
Inductive PyScalar :=
| PyInt (z : Z)
| PyFloat (f : Float).

(** [timestep: Union[torch.Tensor, float, int]] *)
Inductive TimestepArg :=
| TScalar (v : PyScalar)
| TTensor (t : Tensor).

(** The conversion of a Python number to [torch.long]: an [int] is taken
    as it is and a [float] is cut to its integer part; [torch] raises a
    RuntimeError when the result is no [int64]. *)
Definition scalar_to_long (v : PyScalar) : outcome Z :=
  match v with
  | PyInt z =>
      if fits_int64 z then Ret z
      else Raise (RuntimeError "Overflow when unpacking long")
  | PyFloat f =>
      match float_to_long f with
      | Some z =>
          if fits_int64 z then Ret z
          else Raise (RuntimeError "value cannot be converted to type int64 without overflow")
      | None =>
          Raise (RuntimeError "value cannot be converted to type int64 without overflow")
      end
  end.

(** [torch.tensor([v], dtype=torch.long, device=dev)] *)
Definition tensor_of_scalar_long (v : PyScalar) (dev : string) : outcome Tensor :=
  z ← scalar_to_long v;
  mret (mkTensor [1] torch_long dev [ELong z]).

(** [t[None].to(dev)] *)
Definition index_none_to (t : Tensor) (dev : string) : Tensor :=
  mkTensor (1 :: shape t) (dtype t) dev (data t).

(** What [forward] returns is a Python value: a tensor or a dictionary of
    tensors. *)
Inductive PyVal :=
| VTensor (t : Tensor)
| VDict (d : gmap string Tensor).

End Tensors.

(** ** Layers

    A layer is represented by its construction arguments and by the
    parameter storage its weights alias: [w.data = w'.data] makes [w] share
    the storage of [w']. A storage is named after the attribute path of the
    module that allocated it. *)

Definition storage := string.

Record Conv2d := mkConv2d {
  conv_in_channels : nat;
  conv_out_channels : nat;
  conv_kernel_size : nat;
  conv_padding : nat;
  conv_weight : storage;
  conv_bias : storage
}.

Record Linear := mkLinear {
  in_features : nat;
  out_features : nat;
  linear_weight : storage;
  linear_bias : storage
}.

Record GroupNorm := mkGroupNorm {
  num_groups : nat;
  gn_num_channels : nat;
  gn_eps : Q;
  gn_weight : storage;
  gn_bias : storage
}.

(** [nn.Conv2d(in_channels, out_channels, kernel_size, padding=...)]; a
    channel count that is [None] makes the constructor raise. *)
Definition nn_Conv2d (owner : string) (in_channels out_channels : option nat)
    (kernel_size padding : nat) : outcome Conv2d :=
  i ← require_some "in_channels" in_channels;
  o ← require_some "out_channels" out_channels;
  mret (mkConv2d i o kernel_size padding (owner +:+ ".weight") (owner +:+ ".bias")).

Definition nn_Linear (owner : string) (i o : nat) : Linear :=
  mkLinear i o (owner +:+ ".weight") (owner +:+ ".bias").

Definition nn_GroupNorm (owner : string) (groups channels : nat) (eps : Q) : GroupNorm :=
  mkGroupNorm groups channels eps (owner +:+ ".weight") (owner +:+ ".bias").

(** [GaussianFourierProjection(embedding_size, scale)] of [embeddings.py];
    its projection matrix is the parameter [weight]. *)
Record GaussianFourierProjection := mkGaussianFourierProjection {
  embedding_size : option nat;
  fourier_scale_of : Q;
  gfp_weight : storage
}.

(** Modelled from the spec: the constructor draws the projection matrix,
    of width [embedding_size], when the module is built; an
    [embedding_size] that is [None] is no width and makes it raise. *)
Definition new_GaussianFourierProjection (owner : string) (embedding_size : option nat)
    (scale : Q) : outcome GaussianFourierProjection :=
  n ← require_some "embedding_size" embedding_size;
  mret (mkGaussianFourierProjection (Some n) scale (owner +:+ ".weight")).

Inductive ScaleFactor := scale_one | scale_sqrt2.
Inductive ResampleKind := no_resample | resample_down | resample_up.

(** [ResnetBlock2D(...)] of [resnet.py], by its construction arguments;
    [None] is an argument left to the constructor's default. *)
Record ResnetBlock2D := mkResnetBlock2D {
  rb_in_channels : nat;
  rb_out_channels : option nat;
  rb_temb_channels : nat;
  rb_dropout : option Q;
  rb_eps : option Q;
  rb_non_linearity : option string;
  rb_groups : option nat;
  rb_groups_out : option nat;
  rb_output_scale_factor : option ScaleFactor;
  rb_resample : ResampleKind;
  rb_kernel : option string;
  rb_use_nin_shortcut : option bool;
  rb_params : storage
}.

(** [AttentionBlock(channels, ...)] of [attention.py]. *)
Record AttentionBlock := mkAttentionBlock {
  attn_channels : nat;
  attn_num_head_channels : option nat;
  attn_rescale_output_factor : option ScaleFactor;
  attn_params : storage
}.

(** [Downsample2D], [FirDownsample2D], [Upsample2D], [FirUpsample2D]. *)
Record Resample := mkResample {
  resample_class : string;
  resample_channels : option nat;
  resample_out_channels : option nat;
  resample_use_conv : option bool;
  resample_padding : option nat;
  resample_fir_kernel : option (list nat);
  resample_name : option string;
  resample_params : storage
}.

(** ** The blocks of [unet_new.py]

    A block is represented by the arguments [__init__] passes to the
    factory that builds it. *)

Inductive DownKind := ResDown | ResAttnDown | ResSkipDown | ResAttnSkipDown.
Inductive UpKind := ResUp | ResAttnUp.

Module DownBlock.
Record t := mk {
  kind : DownKind;
  path : string;
  num_layers : nat;
  in_channels : nat;
  out_channels : nat;
  temb_channels : nat;
  add_downsample : bool;
  resnet_eps : Q;
  resnet_act_fn : string;
  attn_num_head_channels : nat;
  downsample_padding : nat
}.
End DownBlock.

Module UpBlock.
Record t := mk {
  kind : UpKind;
  path : string;
  num_layers : nat;
  in_channels : nat;
  out_channels : nat;
  prev_output_channel : nat;
  temb_channels : nat;
  add_upsample : bool;
  resnet_eps : Q;
  resnet_act_fn : string;
  attn_num_head_channels : nat
}.
End UpBlock.

(** [UNetMidBlock2D]: [resnets[0]], [attentions[0]], [resnets[1]]. *)
Module UNetMidBlock2D.
Record t := mk {
  resnets_0 : ResnetBlock2D;
  attentions_0 : AttentionBlock;
  resnets_1 : ResnetBlock2D
}.
End UNetMidBlock2D.

(** ** The numerical backend

    The operations of [torch] and of the classes imported from [resnet.py],
    [attention.py], [embeddings.py] and [unet_new.py], applied to a layer
    and its inputs. They are total: an operand of the wrong shape, on which
    [torch] raises, is outside the inputs considered here. *)

Class Backend `{Numerics} := {
  conv2d : Conv2d → Tensor → Tensor;
  linear : Linear → Tensor → Tensor;
  group_norm : GroupNorm → Tensor → Tensor;
  silu : Tensor → Tensor;
  (** [torch.cat(tensors, dim)] *)
  cat : list Tensor → nat → Tensor;
  (** [x + y] *)
  add : Tensor → Tensor → Tensor;
  (** [get_timestep_embedding(timesteps, dim, flip_sin_to_cos, downscale_freq_shift)] *)
  get_timestep_embedding : Tensor → nat → bool → Q → Tensor;
  gaussian_fourier_projection : GaussianFourierProjection → Tensor → Tensor;
  resnet_block : ResnetBlock2D → Tensor → Tensor → Tensor;
  attention_block : AttentionBlock → Tensor → Tensor;
  (** the [i]-th residual step of a down block (its residual block and,
      in the attention variants, the attention block after it) *)
  down_resnet_step : DownBlock.t → nat → Tensor → Tensor → Tensor;
  (** the stride-2 resample step of a down block *)
  down_resample_step : DownBlock.t → Tensor → Tensor;
  (** the pyramid step of a skip-combine down block: resamples the pyramid
      tensor and merges it into the main path *)
  down_skip_step : DownBlock.t → Tensor → Tensor → Tensor * Tensor;
  up_resnet_step : UpBlock.t → nat → Tensor → Tensor → Tensor;
  up_resample_step : UpBlock.t → Tensor → Tensor
}.

(** ** [class Combine] *)

Module Combine.

Record t := mk {
  Conv_0 : Conv2d;
  method : string
}.

Definition __init__ (owner : string) (dim1 dim2 : nat) (method : string) : outcome t :=
  Conv_0 ← nn_Conv2d (owner +:+ ".Conv_0") (Some dim1) (Some dim2) 1 0;
  mret (mk Conv_0 method).

Definition forward `{Backend} (self : t) (x y : Tensor) : outcome Tensor :=
  let h := conv2d (Conv_0 self) x in
  if decide (method self = "cat") then mret (cat [h; y] 1)
  else if decide (method self = "sum") then mret (add h y)
  else Raise (ValueError ("Method " +:+ method self +:+ " not recognized.")).

End Combine.

(** ** [class TimestepEmbedding] *)

Module TimestepEmbedding.

Inductive Act := SiLU.

Record t := mk {
  linear_1 : Linear;
  act : option Act;
  linear_2 : Linear
}.

Definition __init__ (owner : string) (channel time_embed_dim : nat)
    (act_fn : option string) : t :=
  let linear_1 := nn_Linear (owner +:+ ".linear_1") channel time_embed_dim in
  let act := None in
  let act := if decide (act_fn = Some "silu") then Some SiLU else act in
  let linear_2 := nn_Linear (owner +:+ ".linear_2") time_embed_dim time_embed_dim in
  mk linear_1 act linear_2.

Definition forward `{Backend} (self : t) (sample : Tensor) : Tensor :=
  let sample := linear (linear_1 self) sample in
  let sample := match act self with
                | Some SiLU => silu sample
                | None => sample
                end in
  let sample := linear (linear_2 self) sample in
  sample.

End TimestepEmbedding.

(** ** [class Timesteps] *)

Module Timesteps.

(** [weight] is not set by [__init__]; [set_weights] may assign it. *)
Record t := mk {
  num_channels : nat;
  flip_sin_to_cos : bool;
  downscale_freq_shift : Q;
  weight : option storage
}.

Definition __init__ (num_channels : nat) (flip_sin_to_cos : bool)
    (downscale_freq_shift : Q) : t :=
  mk num_channels flip_sin_to_cos downscale_freq_shift None.

Definition forward `{Backend} (self : t) (timesteps : Tensor) : Tensor :=
  let t_emb := get_timestep_embedding timesteps (num_channels self)
                 (flip_sin_to_cos self) (downscale_freq_shift self) in
  t_emb.

End Timesteps.

(** [self.time_steps] is a [GaussianFourierProjection] or a [Timesteps]. *)
Inductive TimeSteps :=
| TSFourier (g : GaussianFourierProjection)
| TSPositional (t : Timesteps.t).

Definition time_steps_call `{Backend} (ts : TimeSteps) (timesteps : Tensor) : Tensor :=
  match ts with
  | TSFourier g => gaussian_fourier_projection g timesteps
  | TSPositional t => Timesteps.forward t timesteps
  end.

(** ** Block calls *)

Section BlockCalls.
Context `{Backend}.

(** Modelled from the spec: the residual steps of a down block of
    [unet_new.py], which run in sequence and each record their output in the
    returned skip tensors. [i] is the index of the next step, [n] the number
    of steps left. *)
Fixpoint down_resnet_steps (b : DownBlock.t) (i n : nat) (hidden_states temb : Tensor)
    (output_states : list Tensor) : Tensor * list Tensor :=
  match n with
  | 0 => (hidden_states, output_states)
  | S n' =>
      let hidden_states := down_resnet_step b i hidden_states temb in
      down_resnet_steps b (S i) n' hidden_states temb (output_states ++ [hidden_states])
  end.

(** Modelled from the spec: [forward(hidden_states, temb)] of a down block
    of [unet_new.py]: the configured count of residual steps, then, if the
    block has a resample step, the stride-2 downsampling whose output is
    recorded too. *)
Definition down_block_call (b : DownBlock.t) (hidden_states temb : Tensor)
    : Tensor * list Tensor :=
  let '(hidden_states, output_states) :=
    down_resnet_steps b 0 (DownBlock.num_layers b) hidden_states temb [] in
  if DownBlock.add_downsample b then
    let hidden_states := down_resample_step b hidden_states in
    (hidden_states, output_states ++ [hidden_states])
  else (hidden_states, output_states).

(** Modelled from the spec: [forward(hidden_states, temb, skip_sample)] of a
    skip-combine down block of [unet_new.py], which also threads the pyramid
    tensor and merges it into the main path at the resample step. *)
Definition down_block_call_skip (b : DownBlock.t) (hidden_states temb skip_sample : Tensor)
    : Tensor * list Tensor * Tensor :=
  let '(hidden_states, output_states) :=
    down_resnet_steps b 0 (DownBlock.num_layers b) hidden_states temb [] in
  if DownBlock.add_downsample b then
    let hidden_states := down_resample_step b hidden_states in
    let '(hidden_states, skip_sample) := down_skip_step b hidden_states skip_sample in
    (hidden_states, output_states ++ [hidden_states], skip_sample)
  else (hidden_states, output_states, skip_sample).

(** Modelled from the spec: [hasattr(block, "skip_conv")] and
    [block.skip_connection is not None] hold of the skip-combine down
    blocks of [unet_new.py] and of no other. *)
Definition has_skip_conv (b : DownBlock.t) : bool :=
  match DownBlock.kind b with
  | ResSkipDown | ResAttnSkipDown => true
  | ResDown | ResAttnDown => false
  end.
Definition skip_connection_is_not_None (b : DownBlock.t) : bool := has_skip_conv b.

(** Modelled from the spec: the residual steps of an up block of
    [unet_new.py]: each takes the last of the remaining skip tensors,
    concatenates it to the running tensor on the channel dimension and
    applies the residual block. Taking from an empty tuple raises. *)
Fixpoint up_resnet_steps (b : UpBlock.t) (i n : nat) (hidden_states : Tensor)
    (res_hidden_states_tuple : list Tensor) (temb : Tensor) : outcome Tensor :=
  match n with
  | 0 => mret hidden_states
  | S n' =>
      res_hidden_states ← getitem_last res_hidden_states_tuple;
      let res_hidden_states_tuple := slice_to_neg 1 res_hidden_states_tuple in
      let hidden_states := cat [hidden_states; res_hidden_states] 1 in
      let hidden_states := up_resnet_step b i hidden_states temb in
      up_resnet_steps b (S i) n' hidden_states res_hidden_states_tuple temb
  end.

(** Modelled from the spec: [len(block.resnets)] of an up block of
    [unet_new.py] is the number of layers it was built with. *)
Definition len_resnets (b : UpBlock.t) : nat := UpBlock.num_layers b.

(** Modelled from the spec: [forward(hidden_states, res_hidden_states_tuple,
    temb)] of an up block of [unet_new.py]: one residual step per layer, then
    the upsampling step if the block has one. *)
Definition up_block_call (b : UpBlock.t) (hidden_states : Tensor)
    (res_hidden_states_tuple : list Tensor) (temb : Tensor) : outcome Tensor :=
  hidden_states ← up_resnet_steps b 0 (len_resnets b) hidden_states
                     res_hidden_states_tuple temb;
  if UpBlock.add_upsample b then mret (up_resample_step b hidden_states)
  else mret hidden_states.

(** Modelled from the spec: [forward(hidden_states, temb)] of
    [UNetMidBlock2D] of [unet_new.py]: residual block, attention block,
    residual block. *)
Definition mid_block_call (b : UNetMidBlock2D.t) (hidden_states temb : Tensor) : Tensor :=
  let hidden_states := resnet_block (UNetMidBlock2D.resnets_0 b) hidden_states temb in
  let hidden_states := attention_block (UNetMidBlock2D.attentions_0 b) hidden_states in
  let hidden_states := resnet_block (UNetMidBlock2D.resnets_1 b) hidden_states temb in
  hidden_states.

End BlockCalls.

(** ** Construction arguments and configuration *)

(** The keyword arguments of [UNetUnconditionalModel.__init__]; an argument
    whose default is [None] is an [option]. *)
Module Args.
Record t := mk {
  image_size : option nat;
  in_channels : option nat;
  out_channels : option nat;
  num_res_blocks : option nat;
  dropout : Q;
  block_channels : list nat;
  down_blocks : list string;
  downsample_padding : nat;
  up_blocks : list string;
  resnet_act_fn : string;
  resnet_eps : Q;
  conv_resample : option bool;
  num_head_channels : nat;
  flip_sin_to_cos : bool;
  downscale_freq_shift : Q;
  time_embedding_type : string;
  time_embedding_act_fn : option string;
  attention_resolutions : list nat;
  ldm : bool;
  out_ch : option nat;
  resolution : option nat;
  attn_resolutions : option (list nat);
  resamp_with_conv : option bool;
  ch_mult : option (list nat);
  ch : option nat;
  ddpm : bool;
  sde : bool;
  nf : option nat;
  fir : option bool;
  progressive : option string;
  progressive_combine : option string;
  scale_by_sigma : option bool;
  skip_rescale : option bool;
  num_channels : option nat;
  centered : bool;
  conditional : bool;
  conv_size : nat;
  fir_kernel : list nat;
  fourier_scale : Q;
  init_scale : Q;
  progressive_input : string;
  continuous : bool
}.

(** The defaults of the signature. *)
Definition default : t := {|
  image_size := None;
  in_channels := None;
  out_channels := None;
  num_res_blocks := None;
  dropout := 0;
  block_channels := [224; 448; 672; 896];
  down_blocks := ["UNetResDownBlock2D"; "UNetResAttnDownBlock2D";
                  "UNetResAttnDownBlock2D"; "UNetResAttnDownBlock2D"];
  downsample_padding := 1;
  up_blocks := ["UNetResAttnUpBlock2D"; "UNetResAttnUpBlock2D";
                "UNetResAttnUpBlock2D"; "UNetResUpBlock2D"];
  resnet_act_fn := "silu";
  resnet_eps := 1 # 100000;
  conv_resample := Some true;
  num_head_channels := 32;
  flip_sin_to_cos := true;
  downscale_freq_shift := 0;
  time_embedding_type := "positional";
  time_embedding_act_fn := Some "silu";
  attention_resolutions := [8; 4; 2];
  ldm := false;
  out_ch := None;
  resolution := None;
  attn_resolutions := None;
  resamp_with_conv := None;
  ch_mult := None;
  ch := None;
  ddpm := false;
  sde := true;
  nf := None;
  fir := None;
  progressive := None;
  progressive_combine := None;
  scale_by_sigma := None;
  skip_rescale := None;
  num_channels := None;
  centered := false;
  conditional := true;
  conv_size := 3;
  fir_kernel := [1; 3; 3; 1];
  fourier_scale := 16;
  init_scale := 0;
  progressive_input := "input_skip";
  continuous := true
|}.

(** The arguments [a] with [time_embedding_type=v]. *)
Definition set_time_embedding_type (v : string) (a : t) : t :=
  mk (image_size a) (in_channels a) (out_channels a) (num_res_blocks a) (dropout a)
    (block_channels a) (down_blocks a) (downsample_padding a) (up_blocks a)
    (resnet_act_fn a) (resnet_eps a) (conv_resample a) (num_head_channels a)
    (flip_sin_to_cos a) (downscale_freq_shift a) v (time_embedding_act_fn a)
    (attention_resolutions a) (ldm a) (out_ch a) (resolution a) (attn_resolutions a)
    (resamp_with_conv a) (ch_mult a) (ch a) (ddpm a) (sde a) (nf a) (fir a)
    (progressive a) (progressive_combine a) (scale_by_sigma a) (skip_rescale a)
    (num_channels a) (centered a) (conditional a) (conv_size a) (fir_kernel a)
    (fourier_scale a) (init_scale a) (progressive_input a) (continuous a).
End Args.

(** [self.config], as [register_to_config] fills it. *)
Module Config.
Record t := mk {
  image_size : option nat;
  in_channels : option nat;
  block_channels : list nat;
  downsample_padding : nat;
  out_channels : option nat;
  num_res_blocks : option nat;
  down_blocks : list string;
  up_blocks : list string;
  dropout : Q;
  conv_resample : option bool;
  num_head_channels : nat;
  flip_sin_to_cos : bool;
  downscale_freq_shift : Q;
  time_embedding_type : string;
  time_embedding_act_fn : option string;
  attention_resolutions : list nat;
  attn_resolutions : option (list nat);
  ldm : bool;
  ddpm : bool;
  sde : bool
}.

Definition set_time_embedding_type (v : string) (c : t) : t :=
  mk (image_size c) (in_channels c) (block_channels c) (downsample_padding c)
     (out_channels c) (num_res_blocks c) (down_blocks c) (up_blocks c) (dropout c)
     (conv_resample c) (num_head_channels c) (flip_sin_to_cos c)
     (downscale_freq_shift c) v (time_embedding_act_fn c)
     (attention_resolutions c) (attn_resolutions c) (ldm c) (ddpm c) (sde c).

Definition set_time_embedding_act_fn (v : option string) (c : t) : t :=
  mk (image_size c) (in_channels c) (block_channels c) (downsample_padding c)
     (out_channels c) (num_res_blocks c) (down_blocks c) (up_blocks c) (dropout c)
     (conv_resample c) (num_head_channels c) (flip_sin_to_cos c)
     (downscale_freq_shift c) (time_embedding_type c) v
     (attention_resolutions c) (attn_resolutions c) (ldm c) (ddpm c) (sde c).
End Config.

Definition register_to_config (a : Args.t) : Config.t := {|
  Config.image_size := Args.image_size a;
  Config.in_channels := Args.in_channels a;
  Config.block_channels := Args.block_channels a;
  Config.downsample_padding := Args.downsample_padding a;
  Config.out_channels := Args.out_channels a;
  Config.num_res_blocks := Args.num_res_blocks a;
  Config.down_blocks := Args.down_blocks a;
  Config.up_blocks := Args.up_blocks a;
  Config.dropout := Args.dropout a;
  Config.conv_resample := Args.conv_resample a;
  Config.num_head_channels := Args.num_head_channels a;
  Config.flip_sin_to_cos := Args.flip_sin_to_cos a;
  Config.downscale_freq_shift := Args.downscale_freq_shift a;
  Config.time_embedding_type := Args.time_embedding_type a;
  Config.time_embedding_act_fn := Args.time_embedding_act_fn a;
  Config.attention_resolutions := Args.attention_resolutions a;
  Config.attn_resolutions := Args.attn_resolutions a;
  Config.ldm := Args.ldm a;
  Config.ddpm := Args.ddpm a;
  Config.sde := Args.sde a
|}.

(** ** The model object *)

(** The modules the legacy initialisers create. *)
Inductive LegacyModule :=
| LGaussianFourierProjection (g : GaussianFourierProjection)
| LLinear (l : Linear)
| LConv2d (c : Conv2d)
| LGroupNorm (g : GroupNorm)
| LResnetBlock2D (r : ResnetBlock2D)
| LAttentionBlock (a : AttentionBlock)
| LCombine (c : Combine.t)
| LResample (r : Resample)
| LSiLU.

(** The value of an attribute set on [self] by a legacy initialiser. *)
Inductive Attr :=
| ANone
| ANat (n : nat)
| ABool (b : bool)
| AStr (s : string)
| ANats (l : list nat)
| AModule (m : LegacyModule)
| AModuleList (l : list LegacyModule)
| AOpaque (what : string).

Definition attr_of_option {A} (f : A → Attr) (o : option A) : Attr :=
  match o with Some a => f a | None => ANone end.

Module UNetUnconditionalModel.

(** [self]. [conv_act] is a parameter-free [nn.SiLU()] and has no field;
    [attrs] holds the attributes the legacy initialisers add.

    [self.config] is kept as two records. [config] holds its attributes,
    which are what this file reads ([self.config.ldm],
    [self.config.time_embedding_type], ...) and what lines 185-186 assign.
    [config_items] holds its entries ([self.config["..."]]), which
    [register_to_config] fills at lines 157-178 and which an assignment to
    an attribute leaves as they are. *)
Record t := mk {
  config : Config.t;
  config_items : Config.t;
  image_size : option nat;
  conv_in : Conv2d;
  time_steps : TimeSteps;
  time_embedding : TimestepEmbedding.t;
  downsample_blocks : list DownBlock.t;
  mid : option UNetMidBlock2D.t;
  mid_new_2 : option UNetMidBlock2D.t;
  upsample_blocks : list UpBlock.t;
  conv_norm_out : GroupNorm;
  conv_out : Conv2d;
  is_overwritten : bool;
  attrs : gmap string Attr
}.

Definition set_is_overwritten (v : bool) (self : t) : t :=
  mk (config self) (config_items self) (image_size self) (conv_in self) (time_steps self)
     (time_embedding self) (downsample_blocks self) (mid self) (mid_new_2 self)
     (upsample_blocks self) (conv_norm_out self) (conv_out self) v (attrs self).

Definition set_attrs (v : gmap string Attr) (self : t) : t :=
  mk (config self) (config_items self) (image_size self) (conv_in self) (time_steps self)
     (time_embedding self) (downsample_blocks self) (mid self) (mid_new_2 self)
     (upsample_blocks self) (conv_norm_out self) (conv_out self)
     (is_overwritten self) v.

Definition set_mid (v : option UNetMidBlock2D.t) (self : t) : t :=
  mk (config self) (config_items self) (image_size self) (conv_in self) (time_steps self)
     (time_embedding self) (downsample_blocks self) v (mid_new_2 self)
     (upsample_blocks self) (conv_norm_out self) (conv_out self)
     (is_overwritten self) (attrs self).

Definition set_conv_in (v : Conv2d) (self : t) : t :=
  mk (config self) (config_items self) (image_size self) v (time_steps self)
     (time_embedding self) (downsample_blocks self) (mid self) (mid_new_2 self)
     (upsample_blocks self) (conv_norm_out self) (conv_out self)
     (is_overwritten self) (attrs self).

Definition set_time_steps (v : TimeSteps) (self : t) : t :=
  mk (config self) (config_items self) (image_size self) (conv_in self) v
     (time_embedding self) (downsample_blocks self) (mid self) (mid_new_2 self)
     (upsample_blocks self) (conv_norm_out self) (conv_out self)
     (is_overwritten self) (attrs self).

Definition set_time_embedding (v : TimestepEmbedding.t) (self : t) : t :=
  mk (config self) (config_items self) (image_size self) (conv_in self) (time_steps self)
     v (downsample_blocks self) (mid self) (mid_new_2 self)
     (upsample_blocks self) (conv_norm_out self) (conv_out self)
     (is_overwritten self) (attrs self).

Definition set_config_items (v : Config.t) (self : t) : t :=
  mk (config self) v (image_size self) (conv_in self) (time_steps self)
     (time_embedding self) (downsample_blocks self) (mid self) (mid_new_2 self)
     (upsample_blocks self) (conv_norm_out self) (conv_out self)
     (is_overwritten self) (attrs self).

(** [self.name = v] for an attribute of a legacy initialiser. *)
Definition setattr (name : string) (v : Attr) (self : t) : t :=
  set_attrs (<[name := v]> (attrs self)) self.

End UNetUnconditionalModel.

Import UNetUnconditionalModel.

(** ** The block factories *)

Definition down_kind_of_tag (tag : string) : option DownKind :=
  if decide (tag = "UNetResDownBlock2D") then Some ResDown
  else if decide (tag = "UNetResAttnDownBlock2D") then Some ResAttnDown
  else if decide (tag = "UNetResSkipDownBlock2D") then Some ResSkipDown
  else if decide (tag = "UNetResAttnSkipDownBlock2D") then Some ResAttnSkipDown
  else None.

Definition up_kind_of_tag (tag : string) : option UpKind :=
  if decide (tag = "UNetResUpBlock2D") then Some ResUp
  else if decide (tag = "UNetResAttnUpBlock2D") then Some ResAttnUp
  else None.

(** Modelled from the spec: [get_down_block] of [unet_new.py], the factory
    keyed by the type tag, which rejects an unknown tag with a
    ConfigurationError; the tags are those this file names. *)
Definition get_down_block (path down_block_type : string) (num_layers : option nat)
    (in_channels out_channels temb_channels : nat) (add_downsample : bool)
    (resnet_eps : Q) (resnet_act_fn : string) (attn_num_head_channels : nat)
    (downsample_padding : nat) : outcome DownBlock.t :=
  match down_kind_of_tag down_block_type with
  | None => Raise (ValueError (down_block_type +:+ " does not exist."))
  | Some kind =>
      num_layers ← require_some "num_layers" num_layers;
      mret (DownBlock.mk kind path num_layers in_channels out_channels temb_channels
              add_downsample resnet_eps resnet_act_fn attn_num_head_channels
              downsample_padding)
  end.

(** Modelled from the spec: [get_up_block] of [unet_new.py]. *)
Definition get_up_block (path up_block_type : string) (num_layers : nat)
    (in_channels out_channels prev_output_channel temb_channels : nat)
    (add_upsample : bool) (resnet_eps : Q) (resnet_act_fn : string)
    (attn_num_head_channels : nat) : outcome UpBlock.t :=
  match up_kind_of_tag up_block_type with
  | None => Raise (ValueError (up_block_type +:+ " does not exist."))
  | Some kind =>
      mret (UpBlock.mk kind path num_layers in_channels out_channels
              prev_output_channel temb_channels add_upsample resnet_eps
              resnet_act_fn attn_num_head_channels)
  end.

(** Modelled from the spec: the constructor of [UNetMidBlock2D] of
    [unet_new.py], which builds a channel-preserving residual block, an
    attention block and a second residual block. *)
Definition new_UNetMidBlock2D (path : string) (in_channels temb_channels : nat)
    (dropout resnet_eps : option Q) (resnet_act_fn : option string)
    (resnet_groups : option nat) (output_scale_factor : option ScaleFactor)
    (attn_num_head_channels : option nat) : UNetMidBlock2D.t :=
  let resnet k :=
    mkResnetBlock2D in_channels (Some in_channels) temb_channels dropout resnet_eps
      resnet_act_fn resnet_groups None output_scale_factor no_resample None None
      (path +:+ ".resnets." +:+ k) in
  UNetMidBlock2D.mk (resnet "0")
    (mkAttentionBlock in_channels attn_num_head_channels None (path +:+ ".attentions.0"))
    (resnet "1").

(** ** [UNetUnconditionalModel.__init__]: the block graph *)

(** [[k * x for x in l]] (and [[x * k for x in l]]) where [k] and [l] may
    be [None]. *)
Definition scale_list (k : option nat) (l : option (list nat)) : outcome (list nat) :=
  match l with
  | None => Raise (TypeError "'NoneType' object is not iterable")
  | Some [] => mret []
  | Some l =>
      match k with
      | None => Raise (TypeError "unsupported operand type(s) for *")
      | Some k => mret (map (λ x, k * x) l)
      end
  end.

(** The [# down] loop, from index [i] on. *)
Fixpoint build_down_blocks (a : Args.t) (block_channels : list nat)
    (time_embed_dim : nat) (i : nat) (output_channel : nat)
    (down_blocks : list string) : outcome (list DownBlock.t) :=
  match down_blocks with
  | [] => mret []
  | down_block_type :: down_blocks =>
      let input_channel := output_channel in
      output_channel ← getitem block_channels i;
      let is_final_block := bool_decide (i + 1 = length block_channels) in
      down_block ← get_down_block ("downsample_blocks." +:+ pretty i)
        down_block_type (Args.num_res_blocks a) input_channel output_channel
        time_embed_dim (negb is_final_block) (Args.resnet_eps a)
        (Args.resnet_act_fn a) (Args.num_head_channels a)
        (Args.downsample_padding a);
      rest ← build_down_blocks a block_channels time_embed_dim (S i)
        output_channel down_blocks;
      mret (down_block :: rest)
  end.

(** The [# up] loop, from index [i] on. *)
Fixpoint build_up_blocks (a : Args.t) (block_channels : list nat)
    (time_embed_dim : nat) (i : nat) (output_channel : nat)
    (up_blocks : list string) : outcome (list UpBlock.t) :=
  match up_blocks with
  | [] => mret []
  | up_block_type :: up_blocks =>
      let reversed_block_channels := reverse block_channels in
      let prev_output_channel := output_channel in
      output_channel ← getitem reversed_block_channels i;
      input_channel ← getitem reversed_block_channels
        (Nat.min (i + 1) (length block_channels - 1));
      let is_final_block := bool_decide (i + 1 = length block_channels) in
      num_res_blocks ← require_some "num_res_blocks" (Args.num_res_blocks a);
      up_block ← get_up_block ("upsample_blocks." +:+ pretty i) up_block_type
        (num_res_blocks + 1) input_channel output_channel prev_output_channel
        time_embed_dim (negb is_final_block) (Args.resnet_eps a)
        (Args.resnet_act_fn a) (Args.num_head_channels a);
      rest ← build_up_blocks a block_channels time_embed_dim (S i)
        output_channel up_blocks;
      mret (up_block :: rest)
  end.

(** ** [init_for_sde] *)

Definition require_bound {A} (var : string) (o : option A) : outcome A :=
  match o with
  | Some a => Ret a
  | None => Raise (UnboundLocalError var)
  end.

Definition truthy (o : option bool) : bool := default false o.

(** The attribute path of the module about to be appended to [modules]. *)
Definition next_path (modules : list LegacyModule) : string :=
  "all_modules." +:+ pretty (length modules).

(** [min(ch // 4, 32)] *)
Definition groups_of (ch : nat) : nat := Nat.min (ch / 4) 32.

Definition sde_resnet_block (modules : list LegacyModule) (nf in_ch : nat)
    (out_channels : option nat) (groups_out : nat) (kind : ResampleKind)
    (kernel : option string) (use_nin_shortcut : option bool) : ResnetBlock2D :=
  mkResnetBlock2D in_ch out_channels (4 * nf) None None (Some "silu")
    (Some (groups_of in_ch)) (Some groups_out) (Some scale_sqrt2) kind kernel
    use_nin_shortcut (next_path modules).

Definition sde_resnet (modules : list LegacyModule) (nf in_ch : nat)
    (out_channels : option nat) (groups_out : nat) (kind : ResampleKind)
    (kernel : option string) (use_nin_shortcut : option bool) : LegacyModule :=
  LResnetBlock2D
    (sde_resnet_block modules nf in_ch out_channels groups_out kind kernel
       use_nin_shortcut).

Definition sde_attn_block (modules : list LegacyModule) (ch : nat) : AttentionBlock :=
  mkAttentionBlock ch None (Some scale_sqrt2) (next_path modules).

(** [AttnBlock(channels=ch)] *)
Definition sde_attn (modules : list LegacyModule) (ch : nat) : LegacyModule :=
  LAttentionBlock (sde_attn_block modules ch).

(** [Up_sample(...)] and [Down_sample(...)], the partial applications
    chosen by [fir]. *)
Definition sde_Up_sample (a : Args.t) (path : string) (channels out_channels : option nat)
    (use_conv : option bool) : Resample :=
  if truthy (Args.fir a) then
    mkResample "FirUpsample2D" channels out_channels
      (match use_conv with Some u => Some u | None => Args.resamp_with_conv a end)
      None (Some (Args.fir_kernel a)) None path
  else
    mkResample "Upsample2D" channels out_channels use_conv None None
      (Some "Conv2d_0") path.

Definition sde_Down_sample (a : Args.t) (path : string) (channels out_channels : option nat)
    (use_conv : option bool) : Resample :=
  if truthy (Args.fir a) then
    mkResample "FirDownsample2D" channels out_channels
      (match use_conv with Some u => Some u | None => Args.resamp_with_conv a end)
      None (Some (Args.fir_kernel a)) None path
  else
    mkResample "Downsample2D" channels out_channels use_conv (Some 0) None
      (Some "Conv2d_0") path.

(** The state of the two module-building loops: [modules], [in_ch],
    [out_ch] (unbound until a residual block was built), [hs_c] and the
    pyramid channel count of the loop. *)
Definition SdeState : Type :=
  list LegacyModule * nat * option nat * list nat * option nat.

(** [for i_block in range(num_res_blocks)] of the downsampling part. *)
Fixpoint sde_down_blocks (a : Args.t) (nf mult resolution : nat) (n : nat)
    (st : SdeState) : outcome SdeState :=
  match n with
  | 0 => mret st
  | S n' =>
      let '(modules, in_ch, _, hs_c, input_pyramid_ch) := st in
      let out_ch := nf * mult in
      let modules := modules ++
        [sde_resnet modules nf in_ch (Some out_ch) (groups_of out_ch) no_resample
           None None] in
      let in_ch := out_ch in
      attn_resolutions ← require_some "attn_resolutions" (Args.attn_resolutions a);
      let modules :=
        if contains resolution attn_resolutions
        then modules ++ [sde_attn modules in_ch] else modules in
      let hs_c := hs_c ++ [in_ch] in
      sde_down_blocks a nf mult resolution n'
        (modules, in_ch, Some out_ch, hs_c, input_pyramid_ch)
  end.

(** The body of [if i_level != self.num_resolutions - 1:] of the
    downsampling part. *)
Definition sde_down_resample (a : Args.t) (nf : nat) (combine_method : string)
    (st : SdeState) : outcome SdeState :=
  let '(modules, in_ch, out_ch, hs_c, input_pyramid_ch) := st in
  out_ch_v ← require_bound "out_ch" out_ch;
  let modules := modules ++
    [sde_resnet modules nf in_ch None (groups_of out_ch_v) resample_down
       (Some (if truthy (Args.fir a) then "fir" else "sde_vp")) (Some true)] in
  '(modules, in_ch, input_pyramid_ch) ←
    (if decide (Args.progressive_input a = "input_skip") then
       dim1 ← require_bound "input_pyramid_ch" input_pyramid_ch;
       c ← Combine.__init__ (next_path modules) dim1 in_ch combine_method;
       let modules := modules ++ [LCombine c] in
       let in_ch := if decide (combine_method = "cat") then in_ch * 2 else in_ch in
       mret (modules, in_ch, input_pyramid_ch)
     else if decide (Args.progressive_input a = "residual") then
       let modules := modules ++
         [LResample (sde_Down_sample a (next_path modules) input_pyramid_ch
                       (Some in_ch) (Some true))] in
       mret (modules, in_ch, Some in_ch)
     else mret (modules, in_ch, input_pyramid_ch));
  let hs_c := hs_c ++ [in_ch] in
  mret (modules, in_ch, out_ch, hs_c, input_pyramid_ch).

(** [for i_level in range(self.num_resolutions)] of the downsampling part. *)
Fixpoint sde_down_levels (a : Args.t) (nf : nat) (ch_mult all_resolutions : list nat)
    (num_res_blocks : nat) (combine_method : string) (levels : list nat)
    (st : SdeState) : outcome SdeState :=
  match levels with
  | [] => mret st
  | i_level :: levels' =>
      mult ← getitem ch_mult i_level;
      resolution ← getitem all_resolutions i_level;
      st ← sde_down_blocks a nf mult resolution num_res_blocks st;
      st ← (if bool_decide (i_level + 1 ≠ length ch_mult)
            then sde_down_resample a nf combine_method st
            else mret st);
      sde_down_levels a nf ch_mult all_resolutions num_res_blocks combine_method
        levels' st
  end.

(** [for i_block in range(num_res_blocks + 1)] of the upsampling part. *)
Fixpoint sde_up_blocks (nf mult : nat) (n : nat) (st : SdeState) : outcome SdeState :=
  match n with
  | 0 => mret st
  | S n' =>
      let '(modules, in_ch, _, hs_c, pyramid_ch) := st in
      let out_ch := nf * mult in
      popped ← match last hs_c with
               | Some c => Ret c
               | None => Raise (IndexError "pop from empty list")
               end;
      let hs_c := removelast hs_c in
      let in_ch := in_ch + popped in
      let modules := modules ++
        [sde_resnet modules nf in_ch (Some out_ch) (groups_of out_ch) no_resample
           None None] in
      let in_ch := out_ch in
      sde_up_blocks nf mult n' (modules, in_ch, Some out_ch, hs_c, pyramid_ch)
  end.

(** The body of [if progressive != "none":] of the upsampling part;
    [is_first] is [i_level == self.num_resolutions - 1]. *)
Definition sde_up_progressive (a : Args.t) (channels : nat) (progressive : string)
    (is_first : bool) (modules : list LegacyModule) (in_ch : nat)
    (pyramid_ch : option nat) : outcome (list LegacyModule * option nat) :=
  if decide (progressive = "output_skip") then
    let modules := modules ++
      [LGroupNorm (nn_GroupNorm (next_path modules) (groups_of in_ch) in_ch
                     (1 # 1000000))] in
    let modules := modules ++
      [LConv2d (mkConv2d in_ch channels 3 1 (next_path modules +:+ ".weight")
                  (next_path modules +:+ ".bias"))] in
    mret (modules, Some channels)
  else if decide (progressive = "residual") then
    if is_first then
      let modules := modules ++
        [LGroupNorm (nn_GroupNorm (next_path modules) (groups_of in_ch) in_ch
                       (1 # 1000000))] in
      let modules := modules ++
        [LConv2d (mkConv2d in_ch in_ch 3 1 (next_path modules +:+ ".weight")
                    (next_path modules +:+ ".bias"))] in
      mret (modules, Some in_ch)
    else
      let modules := modules ++
        [LResample (sde_Up_sample a (next_path modules) pyramid_ch (Some in_ch)
                      (Some true))] in
      mret (modules, Some in_ch)
  else
    Raise (ValueError (progressive +:+
      (if is_first then " is not a valid name." else " is not a valid name"))).

(** What follows the residual blocks of a level in the upsampling part. *)
Definition sde_up_level_end (a : Args.t) (nf channels : nat) (attn_here : bool)
    (progressive : string) (is_first is_last : bool) (st : SdeState)
    : outcome SdeState :=
  let '(modules, in_ch, out_ch, hs_c, pyramid_ch) := st in
  let modules := if attn_here then modules ++ [sde_attn modules in_ch] else modules in
  '(modules, pyramid_ch) ←
    (if decide (progressive ≠ "none")
     then sde_up_progressive a channels progressive is_first modules in_ch pyramid_ch
     else mret (modules, pyramid_ch));
  modules ←
    (if is_last then mret modules
     else
       out_ch_v ← require_bound "out_ch" out_ch;
       mret (modules ++
         [sde_resnet modules nf in_ch None (groups_of out_ch_v) resample_up
            (Some (if truthy (Args.fir a) then "fir" else "sde_vp")) (Some true)]));
  mret (modules, in_ch, out_ch, hs_c, pyramid_ch).

(** [for i_level in reversed(range(self.num_resolutions))]; [channels] is
    [num_channels]. *)
Fixpoint sde_up_levels (a : Args.t) (nf channels : nat) (ch_mult all_resolutions : list nat)
    (num_res_blocks : nat) (progressive : string) (levels : list nat)
    (st : SdeState) : outcome SdeState :=
  match levels with
  | [] => mret st
  | i_level :: levels' =>
      mult ← getitem ch_mult i_level;
      st ← sde_up_blocks nf mult (num_res_blocks + 1) st;
      resolution ← getitem all_resolutions i_level;
      attn_resolutions ← require_some "attn_resolutions" (Args.attn_resolutions a);
      st ← sde_up_level_end a nf channels (contains resolution attn_resolutions)
             progressive (bool_decide (i_level + 1 = length ch_mult))
             (bool_decide (i_level = 0)) st;
      sde_up_levels a nf channels ch_mult all_resolutions num_res_blocks progressive
        levels' st
  end.

Definition str_in (s : option string) (l : list string) : bool :=
  match s with
  | Some s => bool_decide (s ∈ l)
  | None => false
  end.

(** [init_for_sde(image_size, num_channels, ..., continuous)]: every
    argument of the call is the [__init__] argument of the same name,
    except [embedding_type], for which [__init__] passes its local
    [time_embedding_type]. *)
Definition init_for_sde (self : t) (a : Args.t) (embedding_type : string) : outcome t :=
  let self := setattr "act" (AModule LSiLU) self in
  let self := setattr "nf" (attr_of_option ANat (Args.nf a)) self in
  let self := setattr "num_res_blocks" (attr_of_option ANat (Args.num_res_blocks a)) self in
  let self := setattr "attn_resolutions"
                (attr_of_option ANats (Args.attn_resolutions a)) self in
  ch_mult ← match Args.ch_mult a with
            | Some l => Ret l
            | None => Raise (TypeError "object of type 'NoneType' has no len()")
            end;
  let num_resolutions := length ch_mult in
  let self := setattr "num_resolutions" (ANat num_resolutions) self in
  all_resolutions ←
    match ch_mult with
    | [] => mret []
    | _ => image_size ← require_some "image_size" (Args.image_size a);
           mret (map (λ i, image_size / 2 ^ i) (seq 0 num_resolutions))
    end;
  let self := setattr "all_resolutions" (ANats all_resolutions) self in
  let self := setattr "conditional" (ABool (Args.conditional a)) self in
  let self := setattr "skip_rescale" (attr_of_option ABool (Args.skip_rescale a)) self in
  let self := setattr "progressive" (attr_of_option AStr (Args.progressive a)) self in
  let self := setattr "progressive_input" (AStr (Args.progressive_input a)) self in
  let self := setattr "embedding_type" (AStr embedding_type) self in
  _ ← assert (str_in (Args.progressive a) ["none"; "output_skip"; "residual"]);
  _ ← assert (str_in (Some (Args.progressive_input a)) ["none"; "input_skip"; "residual"]);
  _ ← assert (str_in (Some embedding_type) ["fourier"; "positional"]);
  progressive ← require_some "progressive" (Args.progressive a);
  progressive_combine ←
    match Args.progressive_combine a with
    | Some s => Ret s
    | None => Raise (AttributeError "'NoneType' object has no attribute 'lower'")
    end;
  let combine_method := lower progressive_combine in
  let modules : list LegacyModule := [] in
  '(modules, embed_dim) ←
    (if decide (embedding_type = "fourier") then
       g ← new_GaussianFourierProjection (next_path modules) (Args.nf a)
              (Args.fourier_scale a);
       let modules := modules ++ [LGaussianFourierProjection g] in
       nf ← require_some "nf" (Args.nf a);
       mret (modules, 2 * nf)
     else if decide (embedding_type = "positional") then
       nf ← require_some "nf" (Args.nf a);
       mret (modules, nf)
     else Raise (ValueError ("embedding type " +:+ embedding_type +:+ " unknown.")));
  nf ← require_some "nf" (Args.nf a);
  let modules := modules ++ [LLinear (nn_Linear (next_path modules) embed_dim (nf * 4))] in
  let modules := modules ++ [LLinear (nn_Linear (next_path modules) (nf * 4) (nf * 4))] in
  let self :=
    if decide (progressive = "output_skip")
    then setattr "pyramid_upsample"
           (AModule (LResample (sde_Up_sample a "pyramid_upsample" None None (Some false))))
           self
    else self in
  let self :=
    if decide (Args.progressive_input a = "input_skip")
    then setattr "pyramid_downsample"
           (AModule (LResample (sde_Down_sample a "pyramid_downsample" None None
                                  (Some false)))) self
    else self in
  conv ← nn_Conv2d (next_path modules) (Args.num_channels a) (Some nf) 3 1;
  let channels := conv_in_channels conv in
  let input_pyramid_ch :=
    if decide (Args.progressive_input a ≠ "none") then Some channels else None in
  let modules := modules ++ [LConv2d conv] in
  let hs_c := [nf] in
  let in_ch := nf in
  num_res_blocks ←
    match ch_mult with
    | [] => mret 0
    | _ => require_some "num_res_blocks" (Args.num_res_blocks a)
    end;
  st ← sde_down_levels a nf ch_mult all_resolutions num_res_blocks combine_method
         (seq 0 num_resolutions) (modules, in_ch, None, hs_c, input_pyramid_ch);
  let '(modules, in_ch, out_ch, hs_c, _) := st in
  let mid := new_UNetMidBlock2D "mid" in_ch (4 * nf) (Some (Args.dropout a)) None
               (Some "silu") (Some (groups_of in_ch)) (Some scale_sqrt2) None in
  in_ch ← getitem_last hs_c;
  out_ch_v ← require_bound "out_ch" out_ch;
  let resnet_0 := sde_resnet_block modules nf in_ch None (groups_of out_ch_v)
                    no_resample None None in
  let modules := modules ++ [LResnetBlock2D resnet_0] in
  let attn_0 := sde_attn_block modules in_ch in
  let modules := modules ++ [LAttentionBlock attn_0] in
  let resnet_1 := sde_resnet_block modules nf in_ch None (groups_of out_ch_v)
                    no_resample None None in
  let modules := modules ++ [LResnetBlock2D resnet_1] in
  let mid := UNetMidBlock2D.mk resnet_0 attn_0 resnet_1 in
  let self := set_mid (Some mid) self in
  st ← sde_up_levels a nf channels ch_mult all_resolutions num_res_blocks progressive
         (reverse (seq 0 num_resolutions)) (modules, in_ch, out_ch, hs_c, Some 0);
  let '(modules, in_ch, out_ch, hs_c, _) := st in
  _ ← assert (bool_decide (hs_c = []));
  let modules :=
    if decide (progressive ≠ "output_skip") then
      let modules := modules ++
        [LGroupNorm (nn_GroupNorm (next_path modules) (groups_of in_ch) in_ch
                       (1 # 1000000))] in
      modules ++
        [LConv2d (mkConv2d in_ch channels 3 1 (next_path modules +:+ ".weight")
                    (next_path modules +:+ ".bias"))]
    else modules in
  mret (setattr "all_modules" (AModuleList modules) self).

(** ** The legacy LDM and DDPM topologies

    [init_for_ldm], [init_for_ddpm] and the weight copies of the [ldm] and
    [ddpm] branches of [set_weights] rebuild two historical networks and
    copy their parameters through [set_weight] methods of [resnet.py] and
    [attention.py]. They are taken as parameters: every result below holds
    whatever they do to the model. A weight copy returns the model as it
    left it and the exception it raised, if any. *)

Record LdmArgs := mkLdmArgs {
  ldm_in_channels : option nat;
  ldm_model_channels : nat;
  ldm_channel_mult : list nat;
  ldm_num_res_blocks : option nat;
  ldm_dropout : Q;
  ldm_time_embed_dim : nat;
  ldm_attention_resolutions : list nat;
  ldm_num_head_channels : nat;
  ldm_conv_resample : option bool;
  ldm_out_channels : option nat
}.

Record DdpmArgs := mkDdpmArgs {
  ddpm_ch_mult : list nat;
  ddpm_ch : nat;
  ddpm_num_res_blocks : option nat;
  ddpm_resolution : option nat;
  ddpm_in_channels : option nat;
  ddpm_resamp_with_conv : option bool;
  ddpm_attn_resolutions : option (list nat);
  ddpm_out_ch : option nat
}.

Class LegacyMigration := {
  init_for_ldm : t → LdmArgs → outcome t;
  init_for_ddpm : t → DdpmArgs → outcome t;
  ldm_copy_weights : t → option exn * t;
  ddpm_copy_weights : t → option exn * t
}.

(** [[x // d for x in l]] *)
Definition floordiv_list (l : list nat) (d : nat) : outcome (list nat) :=
  match l with
  | [] => mret []
  | _ => if decide (d = 0) then Raise ZeroDivisionError
         else mret (map (λ x, x / d) l)
  end.

(** ** [UNetUnconditionalModel.__init__] *)

Definition sde_down_blocks_tags : list string :=
  ["UNetResSkipDownBlock2D"; "UNetResAttnSkipDownBlock2D";
   "UNetResSkipDownBlock2D"; "UNetResSkipDownBlock2D"].

(** The local variables that the [if sde:] block rebinds. *)
Record Locals := mkLocals {
  l_block_channels : list nat;
  l_in_channels : option nat;
  l_out_channels : option nat;
  l_conv_resample : option bool;
  l_time_embedding_type : string;
  l_down_blocks : list string
}.

(** Lines 179-192: the rebinding of the locals and of two configuration
    entries when [sde] is set. ([sampling_filter] is bound there too and
    never read.) *)
Definition sde_overrides (a : Args.t) (config : Config.t) : outcome (Locals * Config.t) :=
  if Args.sde a then
    block_channels ← scale_list (Args.nf a) (Args.ch_mult a);
    let in_channels := Args.num_channels a in
    let out_channels := Args.num_channels a in
    let conv_resample := Args.resamp_with_conv a in
    let time_embedding_type := "fourier" in
    let config := Config.set_time_embedding_type time_embedding_type config in
    let config := Config.set_time_embedding_act_fn None config in
    let down_blocks := sde_down_blocks_tags in
    mret (mkLocals block_channels in_channels out_channels conv_resample
            time_embedding_type down_blocks, config)
  else
    mret (mkLocals (Args.block_channels a) (Args.in_channels a) (Args.out_channels a)
            (Args.conv_resample a) (Args.time_embedding_type a) (Args.down_blocks a),
          config).

(** Lines 204-210: the embedding generator and the input width of the
    timestep MLP, which stays unbound when neither branch is taken. *)
Definition build_time_steps (a : Args.t) (config : Config.t) (block_channels : list nat)
    : outcome (option (TimeSteps * nat)) :=
  if decide (Config.time_embedding_type config = "fourier") then
    g ← new_GaussianFourierProjection "time_steps" (Args.nf a) (Args.fourier_scale a);
    let time_steps := TSFourier g in
    c0 ← getitem block_channels 0;
    let timestep_input_dim := 2 * c0 in
    mret (Some (time_steps, timestep_input_dim))
  else if decide (Config.time_embedding_type config = "positional") then
    n ← getitem (Config.block_channels config) 0;
    let time_steps := TSPositional (Timesteps.__init__ n (Args.flip_sin_to_cos a)
                                      (Args.downscale_freq_shift a)) in
    c0 ← getitem block_channels 0;
    let timestep_input_dim := c0 in
    mret (Some (time_steps, timestep_input_dim))
  else mret None.

(** Lines 154-297: the configuration, the rebinding of the locals and the
    block graph, up to [self.is_overwritten = False]. The entries of
    [self.config] are the arguments as they were passed; its attributes are
    those [sde_overrides] leaves. *)
Definition init_block_graph (a : Args.t) : outcome (t * Locals) :=
  let config := register_to_config a in
  '(locals, config) ← sde_overrides a config;
  let block_channels := l_block_channels locals in
  let in_channels := l_in_channels locals in
  let out_channels := l_out_channels locals in
  let image_size := Args.image_size a in
  c0 ← getitem block_channels 0;
  let time_embed_dim := c0 * 4 in
  (* input *)
  conv_in ← nn_Conv2d "conv_in" in_channels (Some c0) 3 1;
  (* time *)
  time ← build_time_steps a config block_channels;
  '(time_steps, timestep_input_dim) ← require_bound "timestep_input_dim" time;
  let time_embedding :=
    TimestepEmbedding.__init__ "time_embedding" timestep_input_dim time_embed_dim
      (Config.time_embedding_act_fn config) in
  (* down *)
  downsample_blocks ← build_down_blocks a block_channels time_embed_dim 0 c0
                         (l_down_blocks locals);
  (* mid *)
  c_last ← getitem_last block_channels;
  let mid_block path :=
    new_UNetMidBlock2D path c_last time_embed_dim (Some (Args.dropout a))
      (Some (Args.resnet_eps a)) (Some (Args.resnet_act_fn a)) None None
      (Some (Args.num_head_channels a)) in
  let mid := if Config.ddpm config then None else Some (mid_block "mid") in
  let mid_new_2 := if Config.ddpm config then Some (mid_block "mid_new_2") else None in
  (* up *)
  r0 ← getitem (reverse block_channels) 0;
  upsample_blocks ← build_up_blocks a block_channels time_embed_dim 0 r0
                       (Args.up_blocks a);
  (* out *)
  let conv_norm_out := nn_GroupNorm "conv_norm_out" 32 c0 (Args.resnet_eps a) in
  conv_out ← nn_Conv2d "conv_out" (Some c0) out_channels 3 1;
  mret (mk config (register_to_config a) image_size conv_in time_steps time_embedding
          downsample_blocks mid mid_new_2 upsample_blocks conv_norm_out conv_out false ∅,
        locals).

Section Construction.
Context `{LegacyMigration}.

(** Lines 298-367: the legacy topology built on top of the block graph. *)
Definition init_legacy (a : Args.t) (self : t) (locals : Locals) : outcome t :=
  let block_channels := l_block_channels locals in
  let in_channels := l_in_channels locals in
  let out_channels := l_out_channels locals in
  if Args.ldm a then
    model_channels ← getitem block_channels 0;
    let time_embed_dim := model_channels * 4 in
    channel_mult ← floordiv_list block_channels model_channels;
    init_for_ldm self
      (mkLdmArgs in_channels model_channels channel_mult (Args.num_res_blocks a)
         (Args.dropout a) time_embed_dim (Args.attention_resolutions a)
         (Args.num_head_channels a) (l_conv_resample locals) out_channels)
  else if Args.ddpm a then
    let out_channels := Args.out_ch a in
    let image_size := Args.resolution a in
    block_channels ← scale_list (Args.ch a) (Args.ch_mult a);
    let conv_resample := Args.resamp_with_conv a in
    let out_ch := out_channels in
    let resolution := image_size in
    ch ← getitem block_channels 0;
    ch_mult ← floordiv_list block_channels ch;
    let resamp_with_conv := conv_resample in
    init_for_ddpm self
      (mkDdpmArgs ch_mult ch (Args.num_res_blocks a) resolution in_channels
         resamp_with_conv (Args.attn_resolutions a) out_ch)
  else if Args.sde a then
    init_for_sde self a (l_time_embedding_type locals)
  else mret self.

Definition __init__ (a : Args.t) : outcome t :=
  '(self, locals) ← init_block_graph a;
  init_legacy a self locals.

End Construction.

(** ** [set_weights], [remove_ldm], [remove_ddpm] *)

(** Code that reads and writes [self] and may raise or stop. *)
Definition St (A : Type) : Type := t → outcome A * t.

Definition st_bind {A B} (c : St A) (k : A → St B) : St B := λ self,
  match c self with
  | (Ret a, self) => k a self
  | (Raise e, self) => (Raise e, self)
  | (Breakpoint, self) => (Breakpoint, self)
  end.
Definition st_read {A} (f : t → outcome A) : St A := λ self, (f self, self).
Definition st_write (f : t → t) : St unit := λ self, (Ret tt, f self).
Definition st_copy (f : t → option exn * t) : St unit := λ self,
  match f self with
  | (None, self) => (Ret tt, self)
  | (Some e, self) => (Raise e, self)
  end.

#[global] Instance St_bind : MBind St := λ A B k c, st_bind c k.

(** [del self.name] *)
Definition delattr (name : string) : St unit := λ self,
  match attrs self !! name with
  | Some _ => (Ret tt, set_attrs (delete name (attrs self)) self)
  | None => (Raise (AttributeError name), self)
  end.

Definition remove_ldm : St unit :=
  _ ← delattr "time_embed";
  _ ← delattr "input_blocks";
  _ ← delattr "middle_block";
  _ ← delattr "output_blocks";
  delattr "out".

Definition remove_ddpm : St unit :=
  _ ← delattr "temb";
  _ ← delattr "down";
  _ ← delattr "mid_new";
  _ ← delattr "up";
  delattr "norm_out".

(** [self.all_modules[i]] *)
Definition all_modules_item (i : nat) (self : t) : outcome LegacyModule :=
  match attrs self !! "all_modules" with
  | Some (AModuleList l) => getitem l i
  | Some _ => Raise (TypeError "object is not subscriptable")
  | None => Raise (AttributeError "all_modules")
  end.

(** [m.weight] and [m.bias] *)
Definition module_weight (m : LegacyModule) : outcome storage :=
  match m with
  | LGaussianFourierProjection g => Ret (gfp_weight g)
  | LLinear l => Ret (linear_weight l)
  | LConv2d c => Ret (conv_weight c)
  | LGroupNorm g => Ret (gn_weight g)
  | _ => Raise (AttributeError "weight")
  end.
Definition module_bias (m : LegacyModule) : outcome storage :=
  match m with
  | LLinear l => Ret (linear_bias l)
  | LConv2d c => Ret (conv_bias c)
  | LGroupNorm g => Ret (gn_bias g)
  | _ => Raise (AttributeError "bias")
  end.

Definition set_time_steps_weight (w : storage) (ts : TimeSteps) : TimeSteps :=
  match ts with
  | TSFourier g =>
      TSFourier (mkGaussianFourierProjection (embedding_size g) (fourier_scale_of g) w)
  | TSPositional t =>
      TSPositional (Timesteps.mk (Timesteps.num_channels t) (Timesteps.flip_sin_to_cos t)
                      (Timesteps.downscale_freq_shift t) (Some w))
  end.

Definition set_linear_weight (w : storage) (l : Linear) : Linear :=
  mkLinear (in_features l) (out_features l) w (linear_bias l).
Definition set_linear_bias (b : storage) (l : Linear) : Linear :=
  mkLinear (in_features l) (out_features l) (linear_weight l) b.
Definition set_conv_weight (w : storage) (c : Conv2d) : Conv2d :=
  mkConv2d (conv_in_channels c) (conv_out_channels c) (conv_kernel_size c)
    (conv_padding c) w (conv_bias c).
Definition set_conv_bias (b : storage) (c : Conv2d) : Conv2d :=
  mkConv2d (conv_in_channels c) (conv_out_channels c) (conv_kernel_size c)
    (conv_padding c) (conv_weight c) b.

Definition update_linear_1 (f : Linear → Linear) (self : t) : t :=
  let e := time_embedding self in
  set_time_embedding
    (TimestepEmbedding.mk (f (TimestepEmbedding.linear_1 e)) (TimestepEmbedding.act e)
       (TimestepEmbedding.linear_2 e)) self.
Definition update_linear_2 (f : Linear → Linear) (self : t) : t :=
  let e := time_embedding self in
  set_time_embedding
    (TimestepEmbedding.mk (TimestepEmbedding.linear_1 e) (TimestepEmbedding.act e)
       (f (TimestepEmbedding.linear_2 e))) self.

(** [import ipdb; ipdb.set_trace()] *)
Definition ipdb_set_trace : St unit := λ self, (Breakpoint, self).

Section SetWeights.
Context `{LegacyMigration}.

Definition set_weights : St unit :=
  _ ← st_write (set_is_overwritten true);
  config ← st_read (λ self, Ret (config self));
  if Config.ldm config then
    _ ← st_copy ldm_copy_weights;
    remove_ldm
  else if Config.ddpm config then
    _ ← st_copy ddpm_copy_weights;
    remove_ddpm
  else if Config.sde config then
    w ← st_read (λ self, m ← all_modules_item 0 self; module_weight m);
    _ ← st_write (λ self, set_time_steps (set_time_steps_weight w (time_steps self)) self);
    w ← st_read (λ self, m ← all_modules_item 1 self; module_weight m);
    _ ← st_write (update_linear_1 (set_linear_weight w));
    b ← st_read (λ self, m ← all_modules_item 1 self; module_bias m);
    _ ← st_write (update_linear_1 (set_linear_bias b));
    w ← st_read (λ self, m ← all_modules_item 2 self; module_weight m);
    _ ← st_write (update_linear_2 (set_linear_weight w));
    b ← st_read (λ self, m ← all_modules_item 2 self; module_bias m);
    _ ← st_write (update_linear_2 (set_linear_bias b));
    w ← st_read (λ self, m ← all_modules_item 3 self; module_weight m);
    _ ← st_write (λ self, set_conv_in (set_conv_weight w (conv_in self)) self);
    b ← st_read (λ self, m ← all_modules_item 3 self; module_bias m);
    _ ← st_write (λ self, set_conv_in (set_conv_bias b (conv_in self)) self);
    ipdb_set_trace
  else st_write (λ self, self).

End SetWeights.

(** ** [UNetUnconditionalModel.forward] *)

Section Forward.
Context `{Backend}.

(** Lines 379-383: the timestep made a tensor. *)
Definition normalize_timesteps (timestep : TimestepArg) (sample : Tensor)
    : outcome Tensor :=
  let timesteps := timestep in
  match timesteps with
  | TScalar v => tensor_of_scalar_long v (device sample)
  | TTensor t =>
      if decide (length (shape t) = 0) then mret (index_none_to t (device sample))
      else mret t
  end.

(** Lines 396-403: the loop over [self.downsample_blocks]. *)
Fixpoint down_pass (downsample_blocks : list DownBlock.t) (sample emb skip_sample : Tensor)
    (down_block_res_samples : list Tensor) : Tensor * list Tensor * Tensor :=
  match downsample_blocks with
  | [] => (sample, down_block_res_samples, skip_sample)
  | downsample_block :: rest =>
      let '(sample, res_samples, skip_sample) :=
        if has_skip_conv downsample_block && skip_connection_is_not_None downsample_block
        then down_block_call_skip downsample_block sample emb skip_sample
        else let '(sample, res_samples) := down_block_call downsample_block sample emb in
             (sample, res_samples, skip_sample) in
      let down_block_res_samples := down_block_res_samples ++ res_samples in
      down_pass rest sample emb skip_sample down_block_res_samples
  end.

(** Lines 412-418: the loop over [self.upsample_blocks]; the tuple left at
    the end is returned with the sample. *)
Fixpoint up_pass (upsample_blocks : list UpBlock.t) (sample : Tensor)
    (down_block_res_samples : list Tensor) (emb : Tensor)
    : outcome (Tensor * list Tensor) :=
  match upsample_blocks with
  | [] => mret (sample, down_block_res_samples)
  | upsample_block :: rest =>
      let res_samples :=
        slice_from_neg (len_resnets upsample_block) down_block_res_samples in
      let down_block_res_samples :=
        slice_to_neg (len_resnets upsample_block) down_block_res_samples in
      sample ← up_block_call upsample_block sample res_samples emb;
      up_pass rest sample down_block_res_samples emb
  end.

(** [block(sample, emb)] for an attribute that may hold no block. *)
Definition call_mid (name : string) (b : option UNetMidBlock2D.t) (sample emb : Tensor)
    : outcome Tensor :=
  match b with
  | Some b => mret (mid_block_call b sample emb)
  | None => Raise (TypeError (name +:+ " is not callable"))
  end.

(** Lines 420-423. *)
Definition post_process (self : t) (sample : Tensor) : Tensor :=
  let sample := group_norm (conv_norm_out self) sample in
  let sample := silu sample in
  let sample := conv2d (conv_out self) sample in
  sample.

(** Lines 378-427: [forward] after the [set_weights] guard. The debugging
    [print] of line 392 is left out. *)
Definition forward_body (self : t) (sample : Tensor) (timestep : TimestepArg)
    : outcome PyVal :=
  (* 1. time step embeddings *)
  timesteps ← normalize_timesteps timestep sample;
  let t_emb := time_steps_call (time_steps self) timesteps in
  let emb := TimestepEmbedding.forward (time_embedding self) t_emb in
  (* 2. pre-process sample *)
  let skip_sample := sample in
  let sample := conv2d (conv_in self) sample in
  (* 3. down blocks *)
  let down_block_res_samples := [sample] in
  let '(sample, down_block_res_samples, skip_sample) :=
    down_pass (downsample_blocks self) sample emb skip_sample down_block_res_samples in
  (* 4. mid block *)
  sample ← (if Config.ddpm (config self)
            then call_mid "mid_new_2" (mid_new_2 self) sample emb
            else call_mid "mid" (mid self) sample emb);
  (* 5. up blocks *)
  '(sample, down_block_res_samples) ←
    up_pass (upsample_blocks self) sample down_block_res_samples emb;
  (* 6. post-process sample *)
  let sample := post_process self sample in
  let output : gmap string Tensor := {[ "sample" := sample ]} in
  mret (VDict output).

Context `{LegacyMigration}.

Definition forward (sample : Tensor) (timestep : TimestepArg) : St PyVal :=
  _ ← (λ self, if negb (is_overwritten self) then set_weights self else (Ret tt, self)) : St unit;
  st_read (λ self, forward_body self sample timestep).

End Forward.

(** ** A backend that computes shapes and logs operations

    Used to run the model on concrete inputs: a tensor's [data] is the log
    of the operation codes applied to it, after the data of its operands;
    its [shape] follows the shape rules of [torch]. *)

Module Trace.

Definition truncate (q : Q) : Z := Z.quot (Qnum q) (Zpos (Qden q)).

#[export] Instance numerics : Numerics := {|
  Float := Q;
  float_to_long q := Some (truncate q)
|}.

Definition set_channels (c : nat) (s : list nat) : list nat :=
  match s with
  | [n; _; h; w] => [n; c; h; w]
  | _ => s
  end.

Definition conv_shape (c : Conv2d) (s : list nat) : list nat :=
  match s with
  | [n; _; h; w] =>
      [n; conv_out_channels c;
       h + 2 * conv_padding c + 1 - conv_kernel_size c;
       w + 2 * conv_padding c + 1 - conv_kernel_size c]
  | _ => s
  end.

Definition halve (s : list nat) : list nat :=
  match s with
  | [n; c; h; w] => [n; c; h / 2; w / 2]
  | _ => s
  end.

Definition double (s : list nat) : list nat :=
  match s with
  | [n; c; h; w] => [n; c; 2 * h; 2 * w]
  | _ => s
  end.

Definition set_last (c : nat) (s : list nat) : list nat :=
  match s with
  | [] => []
  | _ => removelast s ++ [c]
  end.

Definition channels (t : Tensor) : nat := default 0 (shape t !! 1).

Definition log (code : Z) (s : list nat) (x : Tensor) (operands : list Tensor) : Tensor :=
  mkTensor s torch_float (device x)
    (data x ++ concat (data <$> operands) ++ [ELong code]).

Definition cat_tensors (ts : list Tensor) (dim : nat) : Tensor :=
  match ts with
  | [] => mkTensor [] torch_float "cpu" []
  | x :: rest =>
      log 5 (<[dim := sum_list (map (λ t, default 0 (shape t !! dim)) ts)]> (shape x))
        x rest
  end.

#[export] Instance backend : Backend := {|
  conv2d c x := log 1 (conv_shape c (shape x)) x [];
  linear l x := log 2 (set_last (out_features l) (shape x)) x [];
  group_norm g x := log 3 (shape x) x [];
  silu x := log 4 (shape x) x [];
  cat := cat_tensors;
  add x y := log 6 (shape x) x [y];
  get_timestep_embedding ts dim _ _ := log 7 (shape ts ++ [dim]) ts [];
  gaussian_fourier_projection g ts :=
    log 8 (shape ts ++ [2 * default 0 (embedding_size g)]) ts [];
  resnet_block r x temb :=
    log 9 (set_channels (default (rb_in_channels r) (rb_out_channels r)) (shape x)) x [temb];
  attention_block a x := log 10 (shape x) x [];
  down_resnet_step b i x temb :=
    log (11 + Z.of_nat i) (set_channels (DownBlock.out_channels b) (shape x)) x [];
  down_resample_step b x := log 20 (halve (shape x)) x [];
  down_skip_step b x skip :=
    (log 21 (shape x) x [skip], log 22 (halve (shape skip)) skip []);
  up_resnet_step b i x temb :=
    log (100 * Z.of_nat (UpBlock.num_layers b) + Z.of_nat i)
      (set_channels (UpBlock.out_channels b) (shape x)) x [];
  up_resample_step b x := log 30 (double (shape x)) x []
|}.

(** The legacy LDM and DDPM parts reduced to the attributes they add to
    [self]; the weight copies change nothing. *)
Definition add_attrs (names : list string) (self : t) : t :=
  foldr (λ name self, setattr name (AOpaque name) self) self names.

#[export] Instance legacy : LegacyMigration := {|
  init_for_ldm self _ :=
    Ret (add_attrs ["time_embed"; "input_blocks"; "middle_block"; "output_blocks"; "out"]
           self);
  init_for_ddpm self _ :=
    Ret (add_attrs ["temb"; "down"; "mid_new"; "up"; "norm_out"] self);
  ldm_copy_weights self := (None, self);
  ddpm_copy_weights self := (None, self)
|}.

(** A score-SDE configuration: four levels, two residual blocks each. *)
Definition sde_args : Args.t :=
  let a := Args.default in
  Args.mk (Some 32) (Args.in_channels a) (Args.out_channels a) (Some 2) (Args.dropout a)
    (Args.block_channels a) (Args.down_blocks a) (Args.downsample_padding a)
    (Args.up_blocks a) (Args.resnet_act_fn a) (Args.resnet_eps a) (Args.conv_resample a)
    (Args.num_head_channels a) (Args.flip_sin_to_cos a) (Args.downscale_freq_shift a)
    (Args.time_embedding_type a) (Args.time_embedding_act_fn a)
    (Args.attention_resolutions a) false None None (Some [16]) (Some true)
    (Some [1; 2; 2; 2]) None false true (Some 128) (Some true) (Some "none")
    (Some "sum") (Some true) (Some true) (Some 3) false true 3 [1; 3; 3; 1] 16 0
    "input_skip" true.

(** A plain configuration: two levels of widths 64 and 128, two residual
    blocks each, no legacy topology. *)
Definition plain_args : Args.t :=
  let a := Args.default in
  Args.mk (Some 32) (Some 3) (Some 3) (Some 2) (Args.dropout a)
    [64; 128] ["UNetResDownBlock2D"; "UNetResAttnDownBlock2D"] (Args.downsample_padding a)
    ["UNetResAttnUpBlock2D"; "UNetResUpBlock2D"] (Args.resnet_act_fn a) (Args.resnet_eps a)
    (Args.conv_resample a)
    (Args.num_head_channels a) (Args.flip_sin_to_cos a) (Args.downscale_freq_shift a)
    (Args.time_embedding_type a) (Args.time_embedding_act_fn a)
    (Args.attention_resolutions a) false None None None None
    None None false false None None None
    None None None None false true 3 [1; 3; 3; 1] 16 0
    "input_skip" true.

(** The same with the LDM flag set too. *)
Definition ldm_sde_args : Args.t :=
  let a := sde_args in
  Args.mk (Args.image_size a) (Args.in_channels a) (Args.out_channels a)
    (Args.num_res_blocks a) (Args.dropout a) (Args.block_channels a)
    (Args.down_blocks a) (Args.downsample_padding a) (Args.up_blocks a)
    (Args.resnet_act_fn a) (Args.resnet_eps a) (Args.conv_resample a)
    (Args.num_head_channels a) (Args.flip_sin_to_cos a) (Args.downscale_freq_shift a)
    (Args.time_embedding_type a) (Args.time_embedding_act_fn a)
    (Args.attention_resolutions a) true (Args.out_ch a) (Args.resolution a)
    (Args.attn_resolutions a) (Args.resamp_with_conv a) (Args.ch_mult a) (Args.ch a)
    (Args.ddpm a) (Args.sde a) (Args.nf a) (Args.fir a) (Args.progressive a)
    (Args.progressive_combine a) (Args.scale_by_sigma a) (Args.skip_rescale a)
    (Args.num_channels a) (Args.centered a) (Args.conditional a) (Args.conv_size a)
    (Args.fir_kernel a) (Args.fourier_scale a) (Args.init_scale a)
    (Args.progressive_input a) (Args.continuous a).

(** The score-SDE configuration with an embedding kind that does not
    exist. *)
Definition bogus_kind_args : Args.t := Args.set_time_embedding_type "bogus" sde_args.

(** An input image batch and its log-free data. *)
Definition image (n c h w : nat) : Tensor := mkTensor [n; c; h; w] torch_float "cpu" [].

End Trace.

(** ** The legacy initialisers as the file defines them

    [init_for_ddpm] and [init_for_ldm], which [LegacyMigration] leaves
    open, are given here as the file defines them, each in a module of its
    own. The modules they build come from [resnet.py] and [attention.py]
    and are represented, like every layer, by their construction
    arguments. *)

(** ** [Normalize] *)

(** [Normalize(in_channels)]: a group normalisation over 32 groups with
    [eps=1e-6] and affine parameters. *)
Definition Normalize (owner : string) (in_channels : nat) : GroupNorm :=
  nn_GroupNorm owner 32 in_channels (1 # 1000000).

(** ** [init_for_ddpm]

    The function reads nothing of [self] but what it has just assigned;
    it is given as the function from its arguments to the attributes it
    assigns, in a record of their final values. The keyword argument
    [dropout] is left at its default, which is also what [__init__]
    passes. *)

Module Ddpm.

(** [x in attn_resolutions], where [x] may be [None]. *)
Definition in_resolutions (x : option nat) (attn_resolutions : option (list nat))
    : outcome bool :=
  match attn_resolutions with
  | None => Raise (TypeError "argument of type 'NoneType' is not iterable")
  | Some l => mret (match x with Some x => contains x l | None => false end)
  end.

(** [x // 2] and [x * 2], where [x] may be [None]. *)
Definition floordiv2 (x : option nat) : outcome (option nat) :=
  match x with
  | Some x => mret (Some (x / 2))
  | None => Raise (TypeError "unsupported operand type(s) for //")
  end.
Definition times2 (x : option nat) : outcome (option nat) :=
  match x with
  | Some x => mret (Some (x * 2))
  | None => Raise (TypeError "unsupported operand type(s) for *")
  end.

Definition dropout : Q := 1 # 10.

(** [ResnetBlock2D(in_channels=..., out_channels=..., temb_channels=...,
    dropout=dropout)] *)
Definition resnet (path : string) (temb_ch in_channels out_channels : nat)
    : ResnetBlock2D :=
  mkResnetBlock2D in_channels (Some out_channels) temb_ch (Some dropout) None None None
    None None no_resample None None path.

(** [AttentionBlock(channels, overwrite_qkv=True)]; the flag selects the
    layout of the weights to load and is not recorded. *)
Definition attention (path : string) (channels : nat) : AttentionBlock :=
  mkAttentionBlock channels None None path.

(** A level of [self.down] or of [self.up]: an [nn.Module()] with the
    attributes [block], [attn] and, when it was set, [downsample] or
    [upsample]. *)
Record Level := mkLevel {
  block : list ResnetBlock2D;
  attn : list AttentionBlock;
  resample : option Resample
}.

(** [self.mid], an [nn.Module()] with three attributes. *)
Record Mid := mkMid {
  block_1 : ResnetBlock2D;
  attn_1 : AttentionBlock;
  block_2 : ResnetBlock2D
}.

(** The attributes [init_for_ddpm] assigns on [self]. *)
Record t := mk {
  ch : nat;
  temb_ch : nat;
  num_resolutions : nat;
  num_res_blocks : option nat;
  resolution : option nat;
  temb_dense : list Linear;
  conv_in : Conv2d;
  down : list Level;
  mid : Mid;
  mid_new : UNetMidBlock2D.t;
  up : list Level;
  norm_out : GroupNorm;
  conv_out : Conv2d
}.

(** The state of a loop over the blocks of a level: [block_in], [block]
    and [attn]. *)
Definition BlockState : Type := nat * list ResnetBlock2D * list AttentionBlock.

(** [for i_block in range(self.num_res_blocks)] of the downsampling
    part. *)
Fixpoint down_blocks (a : DdpmArgs) (path : string) (temb_ch block_out : nat)
    (curr_res : option nat) (n : nat) (st : BlockState) : outcome BlockState :=
  match n with
  | 0 => mret st
  | S n' =>
      let '(block_in, block, attn) := st in
      let block := block ++
        [resnet (path +:+ ".block." +:+ pretty (length block)) temb_ch block_in
           block_out] in
      let block_in := block_out in
      here ← in_resolutions curr_res (ddpm_attn_resolutions a);
      let attn :=
        if here : bool
        then attn ++ [attention (path +:+ ".attn." +:+ pretty (length attn)) block_in]
        else attn in
      down_blocks a path temb_ch block_out curr_res n' (block_in, block, attn)
  end.

(** The state of the loops over the levels: the list built so far,
    [block_in] (unbound before the first level) and [curr_res]. *)
Definition LevelState : Type := list Level * option nat * option nat.

(** [for i_level in range(self.num_resolutions)] *)
Fixpoint down_levels (a : DdpmArgs) (levels : list nat) (st : LevelState)
    : outcome LevelState :=
  match levels with
  | [] => mret st
  | i_level :: levels' =>
      let '(down, _, curr_res) := st in
      let ch := ddpm_ch a in
      let ch_mult := ddpm_ch_mult a in
      let in_ch_mult := 1 :: ch_mult in
      let path := "down." +:+ pretty i_level in
      m ← getitem in_ch_mult i_level;
      let block_in := ch * m in
      m ← getitem ch_mult i_level;
      let block_out := ch * m in
      num_res_blocks ← require_some "num_res_blocks" (ddpm_num_res_blocks a);
      '(block_in, block, attn) ←
        down_blocks a path (ch * 4) block_out curr_res num_res_blocks (block_in, [], []);
      '(downsample, curr_res) ←
        (if bool_decide (i_level + 1 ≠ length ch_mult) then
           let downsample :=
             mkResample "Downsample2D" (Some block_in) None (ddpm_resamp_with_conv a)
               (Some 0) None None (path +:+ ".downsample") in
           curr_res ← floordiv2 curr_res;
           mret (Some downsample, curr_res)
         else mret (None, curr_res));
      down_levels a levels' (down ++ [mkLevel block attn downsample], Some block_in, curr_res)
  end.

(** [for i_block in range(self.num_res_blocks + 1)] of the upsampling
    part; the state carries [skip_in] too. *)
Fixpoint up_blocks (a : DdpmArgs) (path : string) (i_level : nat) (block_out : nat)
    (curr_res : option nat) (num_res_blocks : nat) (i_block n : nat)
    (st : BlockState * nat) : outcome (BlockState * nat) :=
  match n with
  | 0 => mret st
  | S n' =>
      let '(block_in, block, attn, skip_in) := st in
      let ch := ddpm_ch a in
      skip_in ←
        (if decide (i_block = num_res_blocks) then
           m ← getitem (1 :: ddpm_ch_mult a) i_level;
           mret (ch * m)
         else mret skip_in);
      let block := block ++
        [resnet (path +:+ ".block." +:+ pretty (length block)) (ch * 4)
           (block_in + skip_in) block_out] in
      let block_in := block_out in
      here ← in_resolutions curr_res (ddpm_attn_resolutions a);
      let attn :=
        if here : bool
        then attn ++ [attention (path +:+ ".attn." +:+ pretty (length attn)) block_in]
        else attn in
      up_blocks a path i_level block_out curr_res num_res_blocks (S i_block) n'
        (block_in, block, attn, skip_in)
  end.

(** [for i_level in reversed(range(self.num_resolutions))]; a level is
    prepended to [self.up]. *)
Fixpoint up_levels (a : DdpmArgs) (levels : list nat) (st : list Level * nat * option nat)
    : outcome (list Level * nat * option nat) :=
  match levels with
  | [] => mret st
  | i_level :: levels' =>
      let '(up, block_in, curr_res) := st in
      let ch := ddpm_ch a in
      let path := "up." +:+ pretty i_level in
      m ← getitem (ddpm_ch_mult a) i_level;
      let block_out := ch * m in
      let skip_in := ch * m in
      num_res_blocks ← require_some "num_res_blocks" (ddpm_num_res_blocks a);
      '(block_in, block, attn, _) ←
        up_blocks a path i_level block_out curr_res num_res_blocks 0 (num_res_blocks + 1)
          (block_in, [], [], skip_in);
      '(upsample, curr_res) ←
        (if decide (i_level ≠ 0) then
           let upsample :=
             mkResample "Upsample2D" (Some block_in) None (ddpm_resamp_with_conv a) None
               None None (path +:+ ".upsample") in
           curr_res ← times2 curr_res;
           mret (Some upsample, curr_res)
         else mret (None, curr_res));
      up_levels a levels' (mkLevel block attn upsample :: up, block_in, curr_res)
  end.

Definition init_for_ddpm (a : DdpmArgs) : outcome t :=
  let ch_mult := ddpm_ch_mult a in
  let ch := ddpm_ch a in
  let temb_ch := ch * 4 in
  let num_resolutions := length ch_mult in
  (* timestep embedding *)
  let dense := [nn_Linear "temb.dense.0" ch temb_ch;
                nn_Linear "temb.dense.1" temb_ch temb_ch] in
  (* downsampling *)
  conv_in ← nn_Conv2d "conv_in" (ddpm_in_channels a) (Some ch) 3 1;
  let curr_res := ddpm_resolution a in
  '(down, block_in, curr_res) ← down_levels a (seq 0 num_resolutions) ([], None, curr_res);
  (* middle *)
  block_in ← require_bound "block_in" block_in;
  let block_1 := resnet "mid.block_1" temb_ch block_in block_in in
  let attn_1 := attention "mid.attn_1" block_in in
  let block_2 := resnet "mid.block_2" temb_ch block_in block_in in
  let mid_new := new_UNetMidBlock2D "mid_new" block_in temb_ch (Some dropout) None None
                   None None None in
  let mid_new := UNetMidBlock2D.mk block_1 (UNetMidBlock2D.attentions_0 mid_new)
                   (UNetMidBlock2D.resnets_1 mid_new) in
  let mid_new := UNetMidBlock2D.mk (UNetMidBlock2D.resnets_0 mid_new) attn_1
                   (UNetMidBlock2D.resnets_1 mid_new) in
  let mid_new := UNetMidBlock2D.mk (UNetMidBlock2D.resnets_0 mid_new)
                   (UNetMidBlock2D.attentions_0 mid_new) block_2 in
  (* upsampling *)
  '(up, block_in, curr_res) ←
    up_levels a (reverse (seq 0 num_resolutions)) ([], block_in, curr_res);
  (* end *)
  let norm_out := Normalize "norm_out" block_in in
  conv_out ← nn_Conv2d "conv_out" (Some block_in) (ddpm_out_ch a) 3 1;
  mret (mk ch temb_ch num_resolutions (ddpm_num_res_blocks a) (ddpm_resolution a) dense
          conv_in down (mkMid block_1 attn_1 block_2) mid_new up norm_out conv_out).

End Ddpm.

(** ** [init_for_ldm]

    Like [init_for_ddpm], the function is given as the function from its
    arguments to the attributes it assigns. Head counts are integers that
    may be negative ([num_heads] is [-1] in the call of [__init__], and
    [num_head_channels == -1] is tested). *)

Module Ldm.

(** The parameters of [init_for_ldm]. *)
Record Args := mkArgs {
  in_channels : option nat;
  model_channels : nat;
  channel_mult : list nat;
  num_res_blocks : option nat;
  dropout : Q;
  time_embed_dim : nat;
  attention_resolutions : list nat;
  num_head_channels : Z;
  num_heads : Z;
  legacy : bool;
  use_spatial_transformer : bool;
  transformer_depth : nat;
  context_dim : option nat;
  conv_resample : option bool;
  out_channels : option nat
}.

(** The call of [__init__], lines 299-321. *)
Definition of_call (a : LdmArgs) : Args :=
  let transformer_depth := 1 in
  let context_dim := None in
  let legacy := true in
  let num_heads := (-1)%Z in
  mkArgs (ldm_in_channels a) (ldm_model_channels a) (ldm_channel_mult a)
    (ldm_num_res_blocks a) (ldm_dropout a) (ldm_time_embed_dim a)
    (ldm_attention_resolutions a) (Z.of_nat (ldm_num_head_channels a)) num_heads legacy
    false transformer_depth context_dim (ldm_conv_resample a) (ldm_out_channels a).

(** [AttentionBlock(channels, num_heads=..., num_head_channels=...)] *)
Record Attention := mkAttention {
  channels : nat;
  attention_num_heads : Z;
  attention_num_head_channels : option Z;
  attention_params : storage
}.

(** A layer of a [TimestepEmbedSequential] or of an [nn.Sequential]. *)
Inductive Layer :=
| LConv (c : Conv2d)
| LRes (r : ResnetBlock2D)
| LAttn (x : Attention)
| LDown (d : Resample)
| LUp (u : Resample).

(** The attributes [init_for_ldm] assigns on [self]. *)
Record t := mk {
  time_embed : Linear * Linear;
  input_blocks : list (list Layer);
  _feature_size : nat;
  middle_block : list Layer;
  output_blocks : list (list Layer);
  out : GroupNorm * Conv2d
}.

(** [x // y] on integers. *)
Definition floordiv (x y : Z) : outcome Z :=
  if decide (y = 0%Z) then Raise ZeroDivisionError else mret (x / y)%Z.

(** [ResnetBlock2D(in_channels=..., out_channels=..., dropout=dropout,
    temb_channels=time_embed_dim, eps=1e-5, non_linearity="silu",
    overwrite_for_ldm=True)]; the last flag selects the layout of the
    weights to load and is not recorded. *)
Definition resnet (a : Args) (path : string) (in_channels : nat)
    (out_channels : option nat) : ResnetBlock2D :=
  mkResnetBlock2D in_channels out_channels (time_embed_dim a) (Some (dropout a))
    (Some (1 # 100000)) (Some "silu") None None None no_resample None None path.

(** The rebinding of [num_heads] and [dim_head] that precedes every
    attention block. *)
Definition heads (a : Args) (ch : nat) (num_heads : Z) : outcome (Z * Z) :=
  '(num_heads, dim_head) ←
    (if decide (num_head_channels a = (-1)%Z) then
       dim_head ← floordiv (Z.of_nat ch) num_heads;
       mret (num_heads, dim_head)
     else
       num_heads ← floordiv (Z.of_nat ch) (num_head_channels a);
       let dim_head := num_head_channels a in
       mret (num_heads, dim_head));
  let dim_head := if legacy a then num_head_channels a else dim_head in
  mret (num_heads, dim_head).

(** [enumerate(l)] *)
Fixpoint enumerate_from {A} (i : nat) (l : list A) : list (nat * A) :=
  match l with
  | [] => []
  | x :: l => (i, x) :: enumerate_from (S i) l
  end.
Definition enumerate {A} (l : list A) : list (nat * A) := enumerate_from 0 l.

(** The state of the loops that build [self.input_blocks]:
    [self.input_blocks], [self._feature_size], [input_block_chans], [ch],
    [ds] and [num_heads]. *)
Definition InputState : Type :=
  list (list Layer) * nat * list nat * nat * nat * Z.

(** [for _ in range(num_res_blocks)] *)
Fixpoint input_res_blocks (a : Args) (mult : nat) (n : nat) (st : InputState)
    : outcome InputState :=
  match n with
  | 0 => mret st
  | S n' =>
      let '(input_blocks, feature_size, input_block_chans, ch, ds, num_heads) := st in
      let path := "input_blocks." +:+ pretty (length input_blocks) in
      let layers := [LRes (resnet a (path +:+ ".0") ch (Some (mult * model_channels a)))] in
      let ch := mult * model_channels a in
      '(layers, num_heads) ←
        (if contains ds (attention_resolutions a) then
           '(num_heads, dim_head) ← heads a ch num_heads;
           mret (layers ++ [LAttn (mkAttention ch num_heads (Some dim_head)
                                     (path +:+ ".1"))], num_heads)
         else mret (layers, num_heads));
      let input_blocks := input_blocks ++ [layers] in
      let feature_size := feature_size + ch in
      let input_block_chans := input_block_chans ++ [ch] in
      input_res_blocks a mult n'
        (input_blocks, feature_size, input_block_chans, ch, ds, num_heads)
  end.

(** [for level, mult in enumerate(channel_mult)] *)
Fixpoint input_levels (a : Args) (levels : list (nat * nat)) (st : InputState)
    : outcome InputState :=
  match levels with
  | [] => mret st
  | (level, mult) :: levels' =>
      num_res_blocks ← require_some "num_res_blocks" (num_res_blocks a);
      st ← input_res_blocks a mult num_res_blocks st;
      let '(input_blocks, feature_size, input_block_chans, ch, ds, num_heads) := st in
      let st :=
        if bool_decide (level + 1 ≠ length (channel_mult a)) then
          let out_ch := ch in
          let input_blocks := input_blocks ++
            [[LDown (mkResample "Downsample2D" (Some ch) (Some out_ch) (conv_resample a)
                       (Some 1) None (Some "op")
                       ("input_blocks." +:+ pretty (length input_blocks) +:+ ".0"))]] in
          let ch := out_ch in
          let input_block_chans := input_block_chans ++ [ch] in
          let ds := ds * 2 in
          let feature_size := feature_size + ch in
          (input_blocks, feature_size, input_block_chans, ch, ds, num_heads)
        else st in
      input_levels a levels' st
  end.

(** The state of the loops that build [self.output_blocks]. *)
Definition OutputState : Type :=
  list (list Layer) * nat * list nat * nat * nat * Z.

(** [for i in range(num_res_blocks + 1)] *)
Fixpoint output_res_blocks (a : Args) (level mult num_res_blocks : nat) (i n : nat)
    (st : OutputState) : outcome OutputState :=
  match n with
  | 0 => mret st
  | S n' =>
      let '(output_blocks, feature_size, input_block_chans, ch, ds, num_heads) := st in
      let path := "output_blocks." +:+ pretty (length output_blocks) in
      ich ← match last input_block_chans with
             | Some c => Ret c
             | None => Raise (IndexError "pop from empty list")
             end;
      let input_block_chans := removelast input_block_chans in
      let layers := [LRes (resnet a (path +:+ ".0") (ch + ich)
                             (Some (model_channels a * mult)))] in
      let ch := model_channels a * mult in
      '(layers, num_heads) ←
        (if contains ds (attention_resolutions a) then
           '(num_heads, dim_head) ← heads a ch num_heads;
           mret (layers ++ [LAttn (mkAttention ch (-1) (Some dim_head)
                                     (path +:+ "." +:+ pretty (length layers)))],
                 num_heads)
         else mret (layers, num_heads));
      let '(layers, ds) :=
        if bool_decide (level ≠ 0) && bool_decide (i = num_res_blocks) then
          let out_ch := ch in
          (layers ++ [LUp (mkResample "Upsample2D" (Some ch) (Some out_ch)
                             (conv_resample a) None None None
                             (path +:+ "." +:+ pretty (length layers)))],
           ds / 2)
        else (layers, ds) in
      let output_blocks := output_blocks ++ [layers] in
      let feature_size := feature_size + ch in
      output_res_blocks a level mult num_res_blocks (S i) n'
        (output_blocks, feature_size, input_block_chans, ch, ds, num_heads)
  end.

(** [for level, mult in list(enumerate(channel_mult))[::-1]] *)
Fixpoint output_levels (a : Args) (levels : list (nat * nat)) (st : OutputState)
    : outcome OutputState :=
  match levels with
  | [] => mret st
  | (level, mult) :: levels' =>
      num_res_blocks ← require_some "num_res_blocks" (num_res_blocks a);
      st ← output_res_blocks a level mult num_res_blocks 0 (num_res_blocks + 1) st;
      output_levels a levels' st
  end.

Definition init_for_ldm (a : Args) : outcome t :=
  let time_embed :=
    (nn_Linear "time_embed.0" (model_channels a) (time_embed_dim a),
     nn_Linear "time_embed.2" (time_embed_dim a) (time_embed_dim a)) in
  conv ← nn_Conv2d "input_blocks.0.0" (in_channels a) (Some (model_channels a)) 3 1;
  let input_blocks := [[LConv conv]] in
  let feature_size := model_channels a in
  let input_block_chans := [model_channels a] in
  let ch := model_channels a in
  let ds := 1 in
  st ← input_levels a (enumerate (channel_mult a))
         (input_blocks, feature_size, input_block_chans, ch, ds, num_heads a);
  let '(input_blocks, feature_size, input_block_chans, ch, ds, num_heads) := st in
  '(num_heads, dim_head) ← heads a ch num_heads;
  let dim_head := if decide (dim_head < 0)%Z then None else Some dim_head in
  let middle_block :=
    [LRes (resnet a "middle_block.0" ch None);
     LAttn (mkAttention ch num_heads dim_head "middle_block.1");
     LRes (resnet a "middle_block.2" ch None)] in
  let feature_size := feature_size + ch in
  st ← output_levels a (reverse (enumerate (channel_mult a)))
         ([], feature_size, input_block_chans, ch, ds, num_heads);
  let '(output_blocks, feature_size, _, _, _, _) := st in
  conv_out ← nn_Conv2d "out.2" (Some (model_channels a)) (out_channels a) 3 1;
  let out := (nn_GroupNorm "out.0" 32 (model_channels a) (1 # 100000), conv_out) in
  mret (mk time_embed input_blocks feature_size middle_block output_blocks out).

End Ldm.

(** ** Vocabulary of the properties *)

(** The number of skip tensors a down block returns. *)
Definition res_count (b : DownBlock.t) : nat :=
  DownBlock.num_layers b + (if DownBlock.add_downsample b then 1 else 0).

(** The [modules] of a loop state of [init_for_sde]. *)
Definition sde_modules (st : SdeState) : list LegacyModule := st.1.1.1.1.

(** [self] after a legacy initialiser or a weight copy: the block graph and
    the configuration are those of [self0]. *)
Definition same_graph (self0 self : t) : Prop :=
  config self = config self0
  ∧ downsample_blocks self = downsample_blocks self0
  ∧ upsample_blocks self = upsample_blocks self0
  ∧ mid_new_2 self = mid_new_2 self0
  ∧ conv_norm_out self = conv_norm_out self0
  ∧ conv_out self = conv_out self0
  ∧ conv_in_channels (conv_in self) = conv_in_channels (conv_in self0)
  ∧ conv_out_channels (conv_in self) = conv_out_channels (conv_in self0)
  ∧ conv_kernel_size (conv_in self) = conv_kernel_size (conv_in self0)
  ∧ conv_padding (conv_in self) = conv_padding (conv_in self0).

(** The up loop as the specification words it, "for each Up Block in
    reverse construction order": the loop of [forward] run over the up
    blocks in the reverse of the order in which [__init__] appended them. *)
Definition up_pass_reverse_construction_order `{Backend} (upsample_blocks : list UpBlock.t)
    (sample : Tensor) (down_block_res_samples : list Tensor) (emb : Tensor)
    : outcome (Tensor * list Tensor) :=
  up_pass (reverse upsample_blocks) sample down_block_res_samples emb.

(** The shape of the graph: every down block runs [R] residual steps and
    all but the last resample; every up block holds [R + 1] residual blocks
    and all but the last resample. *)
Definition down_graph (R : nat) (dbs : list DownBlock.t) : Prop :=
  ∃ init final, dbs = init ++ [final]
    ∧ Forall (λ b, DownBlock.num_layers b = R ∧ DownBlock.add_downsample b = true) init
    ∧ DownBlock.num_layers final = R ∧ DownBlock.add_downsample final = false.

Definition up_graph (R : nat) (ubs : list UpBlock.t) : Prop :=
  ∃ init final, ubs = init ++ [final]
    ∧ Forall (λ b, len_resnets b = R + 1 ∧ UpBlock.add_upsample b = true) init
    ∧ len_resnets final = R + 1 ∧ UpBlock.add_upsample final = false.

(** The shape of a feature map of [c] channels at resolution level [k],
    level 0 being the lowest resolution, [h] by [w]. *)
Definition level_shape (n h w c k : nat) : list nat := [n; c; 2 ^ k * h; 2 ^ k * w].

(** [temb] is a conditioning tensor of the given width for a batch of [n]:
    one row per sample, or a single row that is broadcast. *)
Definition conditions `{Numerics} (n width : nat) (temb : Tensor) : Prop :=
  ∃ k, shape temb = [k; width] ∧ (k = 1 ∨ k = n).

(** [bc[j]] for a list of widths, 0 past its end. *)
Definition width_at (bc : list nat) (j : nat) : nat := default 0 (bc !! j).

(** What the graph built from the widths [bc] holds at index [j] of
    [downsample_blocks] and at index [i] of [upsample_blocks], for [R]
    residual blocks per level and the embedding width [ted]. *)
Definition down_block_at (R ted : nat) (bc : list nat) (j : nat) (b : DownBlock.t) : Prop :=
  DownBlock.num_layers b = R
  ∧ DownBlock.temb_channels b = ted
  ∧ DownBlock.in_channels b = width_at bc (j - 1)
  ∧ DownBlock.out_channels b = width_at bc j
  ∧ DownBlock.add_downsample b = bool_decide (j + 1 ≠ length bc)
  ∧ has_skip_conv b = false.

Definition up_block_at (R ted : nat) (bc : list nat) (i : nat) (u : UpBlock.t) : Prop :=
  len_resnets u = R + 1
  ∧ UpBlock.temb_channels u = ted
  ∧ UpBlock.out_channels u = width_at bc (length bc - 1 - i)
  ∧ UpBlock.in_channels u = width_at bc (length bc - 2 - i)
  ∧ UpBlock.prev_output_channel u = width_at bc (Nat.min (length bc - i) (length bc - 1))
  ∧ UpBlock.add_upsample u = bool_decide (i + 1 ≠ length bc).

(** The shapes of the skip tensors of level [j] of the down path, in the
    order of the buffer: the tensor that entered down block [j] (the output
    of [conv_in] or of the downsampler of the block before), then the
    outputs of its [R] residual steps. *)
Definition skip_chunk (n h w R : nat) (bc : list nat) (j : nat) : list (list nat) :=
  let k := length bc - 1 - j in
  level_shape n h w (width_at bc (j - 1)) k
  :: replicate R (level_shape n h w (width_at bc j) k).

(** Modelled from the spec: what [torch] and the blocks of [unet_new.py]
    make of the shape of an operand they accept. A 3x3 convolution with
    padding 1, a linear layer, a normalisation and a residual block accept
    an operand of the width they were built for. A residual step of a down
    block takes [in_channels] channels (the first step) or [out_channels]
    channels and gives [out_channels]; the resample step halves an even
    height and width. A residual step of an up block takes the running
    tensor, of [prev_output_channel] channels (the first step) or
    [out_channels] channels, joined with a skip tensor of [out_channels]
    channels, or of [in_channels] channels for the last step; the resample
    step doubles height and width. Nothing is said of an operand of another
    width, which [torch] rejects. *)
Class ShapeLaws `{Backend} := {
  conv2d_shape : ∀ c x n h w,
    conv_kernel_size c = 3 → conv_padding c = 1 →
    shape x = [n; conv_in_channels c; h; w] →
    shape (conv2d c x) = [n; conv_out_channels c; h; w];
  linear_shape : ∀ l x k,
    shape x = [k; in_features l] → shape (linear l x) = [k; out_features l];
  group_norm_shape : ∀ g x n h w,
    shape x = [n; gn_num_channels g; h; w] → shape (group_norm g x) = shape x;
  silu_shape : ∀ x, shape (silu x) = shape x;
  cat_shape : ∀ x y n c1 c2 h w,
    shape x = [n; c1; h; w] → shape y = [n; c2; h; w] →
    shape (cat [x; y] 1) = [n; c1 + c2; h; w];
  get_timestep_embedding_shape : ∀ ts dim flip shift k,
    shape ts = [k] → shape (get_timestep_embedding ts dim flip shift) = [k; dim];
  gaussian_fourier_projection_shape : ∀ g ts k e,
    embedding_size g = Some e → shape ts = [k] →
    shape (gaussian_fourier_projection g ts) = [k; 2 * e];
  resnet_block_shape : ∀ r x temb n h w,
    rb_resample r = no_resample →
    shape x = [n; rb_in_channels r; h; w] → conditions n (rb_temb_channels r) temb →
    shape (resnet_block r x temb)
    = [n; default (rb_in_channels r) (rb_out_channels r); h; w];
  attention_block_shape : ∀ a x n h w,
    shape x = [n; attn_channels a; h; w] → shape (attention_block a x) = shape x;
  down_resnet_step_shape : ∀ b i x temb n h w,
    i < DownBlock.num_layers b →
    shape x = [n; if i is 0 then DownBlock.in_channels b else DownBlock.out_channels b;
               h; w] →
    conditions n (DownBlock.temb_channels b) temb →
    shape (down_resnet_step b i x temb) = [n; DownBlock.out_channels b; h; w];
  down_resample_step_shape : ∀ b x n h w,
    DownBlock.add_downsample b = true →
    shape x = [n; DownBlock.out_channels b; 2 * h; 2 * w] →
    shape (down_resample_step b x) = [n; DownBlock.out_channels b; h; w];
  up_resnet_step_shape : ∀ b i x temb n h w,
    i < UpBlock.num_layers b →
    shape x = [n; (if i is 0 then UpBlock.prev_output_channel b
                   else UpBlock.out_channels b)
                  + (if decide (i + 1 = UpBlock.num_layers b) then UpBlock.in_channels b
                     else UpBlock.out_channels b);
               h; w] →
    conditions n (UpBlock.temb_channels b) temb →
    shape (up_resnet_step b i x temb) = [n; UpBlock.out_channels b; h; w];
  up_resample_step_shape : ∀ b x n h w,
    UpBlock.add_upsample b = true →
    shape x = [n; UpBlock.out_channels b; h; w] →
    shape (up_resample_step b x) = [n; UpBlock.out_channels b; 2 * h; 2 * w]
}.

(** ** Vocabulary of the further properties *)

Definition ldm_attrs : list string :=
  ["time_embed"; "input_blocks"; "middle_block"; "output_blocks"; "out"].
Definition ddpm_attrs : list string := ["temb"; "down"; "mid_new"; "up"; "norm_out"].

Fixpoint delattrs (names : list string) : St unit :=
  match names with
  | [] => λ self, (Ret tt, self)
  | name :: names => _ ← delattr name; delattrs names
  end.

Definition present (self : t) (name : string) : Prop := is_Some (attrs self !! name).


(** The mid block [forward] calls. *)
Definition called_mid (self : t) : option UNetMidBlock2D.t :=
  if Config.ddpm (config self) then mid_new_2 self else mid self.

(** The rebound locals from which the block graph can be built. *)
Definition graph_buildable (a : Args.t) (locals : Locals) (config : Config.t) : Prop :=
  let bc := l_block_channels locals in
  bc ≠ []
  ∧ is_Some (l_in_channels locals) ∧ is_Some (l_out_channels locals)
  ∧ (Config.time_embedding_type config = "fourier" ∧ is_Some (Args.nf a)
     ∨ Config.time_embedding_type config = "positional" ∧ Config.block_channels config ≠ [])
  ∧ length (l_down_blocks locals) ≤ length bc
  ∧ length (Args.up_blocks a) ≤ length bc
  ∧ Forall (λ tag, is_Some (down_kind_of_tag tag)) (l_down_blocks locals)
  ∧ Forall (λ tag, is_Some (up_kind_of_tag tag)) (Args.up_blocks a)
  ∧ (l_down_blocks locals ≠ [] ∨ Args.up_blocks a ≠ [] → is_Some (Args.num_res_blocks a)).

(** The components of a loop state of [init_for_sde]. *)
Definition sde_in_ch (st : SdeState) : nat := st.1.1.1.2.
Definition sde_out_ch (st : SdeState) : option nat := st.1.1.2.
Definition sde_hs_c (st : SdeState) : list nat := st.1.2.
Definition sde_pyramid_ch (st : SdeState) : option nat := st.2.

(** The arguments from which [init_for_sde] builds the legacy modules. *)
Definition sde_buildable (a : Args.t) (embedding_type : string) : Prop :=
  (∃ ch_mult, Args.ch_mult a = Some ch_mult ∧ ch_mult ≠ [])
  ∧ is_Some (Args.image_size a)
  ∧ is_Some (Args.nf a)
  ∧ (∃ R, Args.num_res_blocks a = Some (S R))
  ∧ is_Some (Args.attn_resolutions a)
  ∧ (∃ p, Args.progressive a = Some p ∧ p ∈ ["none"; "output_skip"; "residual"])
  ∧ Args.progressive_input a ∈ ["none"; "input_skip"; "residual"]
  ∧ embedding_type ∈ ["fourier"; "positional"]
  ∧ is_Some (Args.progressive_combine a)
  ∧ is_Some (Args.num_channels a).

(** [c] does not end in a ValueError, the exception of the [raise]
    statements of this file. *)
Definition no_ValueError {A} (c : outcome A) : Prop := ∀ msg, c ≠ Raise (ValueError msg).

(** [P] is an invariant of the stateful code [c]: it holds of the object
    [c] leaves whenever it held of the object [c] found, whether [c]
    returned, raised or stopped. *)
Definition keeps {A} (P : t → Prop) (c : St A) : Prop := ∀ self, P self → P (c self).2.

(** The widths [ch * ch_mult[i]] and [ch * in_ch_mult[i]] of level [i] of
    the DDPM topology, and the width [block_in] has after the residual
    blocks of down level [i] when each level has [R] of them. *)
Definition ddpm_level_out (a : DdpmArgs) (i : nat) : nat :=
  ddpm_ch a * default 0 (ddpm_ch_mult a !! i).
Definition ddpm_level_in (a : DdpmArgs) (i : nat) : nat :=
  ddpm_ch a * default 0 ((1 :: ddpm_ch_mult a) !! i).
Definition ddpm_level_width (a : DdpmArgs) (R i : nat) : nat :=
  if R is 0 then ddpm_level_in a i else ddpm_level_out a i.

(** What level [i] of [self.down] holds. *)
Definition ddpm_down_level (a : DdpmArgs) (R i : nat) (lv : Ddpm.Level) : Prop :=
  rb_out_channels <$> Ddpm.block lv = replicate R (Some (ddpm_level_out a i))
  ∧ rb_in_channels <$> Ddpm.block lv
    = (if R is S R' then ddpm_level_in a i :: replicate R' (ddpm_level_out a i) else [])
  ∧ resample_channels <$> Ddpm.resample lv
    = (if bool_decide (i + 1 ≠ length (ddpm_ch_mult a))
       then Some (Some (ddpm_level_width a R i)) else None)
  ∧ Forall (λ x, attn_channels x = ddpm_level_out a i) (Ddpm.attn lv)
  ∧ Forall (λ r, rb_temb_channels r = ddpm_ch a * 4) (Ddpm.block lv).

(** What level [i] of [self.up] holds; [entering] is the value of
    [block_in] when the level is built. *)
Definition ddpm_up_level (a : DdpmArgs) (R i : nat) (entering : nat) (lv : Ddpm.Level)
    : Prop :=
  rb_out_channels <$> Ddpm.block lv = replicate (R + 1) (Some (ddpm_level_out a i))
  ∧ rb_in_channels <$> Ddpm.block lv
    = zip_with Nat.add (entering :: replicate R (ddpm_level_out a i))
        (replicate R (ddpm_level_out a i) ++ [ddpm_level_in a i])
  ∧ resample_channels <$> Ddpm.resample lv
    = (if decide (i ≠ 0) then Some (Some (ddpm_level_out a i)) else None)
  ∧ Forall (λ x, attn_channels x = ddpm_level_out a i) (Ddpm.attn lv)
  ∧ Forall (λ r, rb_temb_channels r = ddpm_ch a * 4) (Ddpm.block lv).

(** The arguments from which [init_for_ddpm] builds the topology. *)
Definition ddpm_buildable (a : DdpmArgs) : Prop :=
  ddpm_ch_mult a ≠ []
  ∧ is_Some (ddpm_in_channels a) ∧ is_Some (ddpm_out_ch a)
  ∧ is_Some (ddpm_num_res_blocks a) ∧ is_Some (ddpm_attn_resolutions a)
  ∧ (2 ≤ length (ddpm_ch_mult a) → is_Some (ddpm_resolution a)).

(** What [init_for_ddpm] assigns for the arguments [a] with
    [num_res_blocks = R]. *)
Definition ddpm_net (a : DdpmArgs) (R : nat) (net : Ddpm.t) : Prop :=
  let L := length (ddpm_ch_mult a) in
  let w := ddpm_level_width a R (L - 1) in
  let temb_ch := ddpm_ch a * 4 in
  length (Ddpm.down net) = L
  ∧ length (Ddpm.up net) = L
  ∧ (∀ i lv, Ddpm.down net !! i = Some lv → ddpm_down_level a R i lv)
  ∧ (∀ i lv, Ddpm.up net !! i = Some lv →
       ddpm_up_level a R i
         (if bool_decide (i + 1 = L) then w else ddpm_level_out a (i + 1)) lv)
  ∧ Ddpm.mid net
    = Ddpm.mkMid (Ddpm.resnet "mid.block_1" temb_ch w w) (Ddpm.attention "mid.attn_1" w)
        (Ddpm.resnet "mid.block_2" temb_ch w w)
  ∧ Ddpm.mid_new net
    = UNetMidBlock2D.mk (Ddpm.block_1 (Ddpm.mid net)) (Ddpm.attn_1 (Ddpm.mid net))
        (Ddpm.block_2 (Ddpm.mid net))
  ∧ Some (conv_in_channels (Ddpm.conv_in net)) = ddpm_in_channels a
  ∧ conv_out_channels (Ddpm.conv_in net) = ddpm_ch a
  ∧ Ddpm.norm_out net = Normalize "norm_out" (ddpm_level_out a 0)
  ∧ conv_in_channels (Ddpm.conv_out net) = ddpm_level_out a 0
  ∧ Some (conv_out_channels (Ddpm.conv_out net)) = ddpm_out_ch a.

(** The width of the tensor that enters down level [i]: the output of
    [conv_in] or of the downsampler of the level before. *)
Definition ddpm_entering (net : Ddpm.t) (i : nat) : option nat :=
  match i with
  | 0 => Some (conv_out_channels (Ddpm.conv_in net))
  | S i' => lv ← Ddpm.down net !! i'; d ← Ddpm.resample lv; resample_channels d
  end.

(** The width of the tensor that enters up level [i]: the output of the
    middle or of the last block of the level above. *)
Definition ddpm_before_up (net : Ddpm.t) (i : nat) : option nat :=
  if bool_decide (i + 1 = length (Ddpm.up net))
  then rb_out_channels (Ddpm.block_2 (Ddpm.mid net))
  else lv ← Ddpm.up net !! (i + 1); r ← last (Ddpm.block lv); rb_out_channels r.

Definition out_width (r : ResnetBlock2D) : nat := default 0 (rb_out_channels r).

(** A DDPM configuration: two levels of widths 32 and 64, two residual
    blocks each, attention at resolution 8. *)
Definition ddpm_example : DdpmArgs :=
  mkDdpmArgs [1; 2] 32 (Some 2) (Some 16) (Some 3) (Some true) (Some [8]) (Some 3).

(** The width a block of [self.input_blocks] or [self.output_blocks]
    emits, and the width the residual block at its head is built for. *)
Definition ldm_out_width (block : list Ldm.Layer) : nat :=
  match block with
  | Ldm.LConv c :: _ => conv_out_channels c
  | Ldm.LRes r :: _ => default 0 (rb_out_channels r)
  | Ldm.LDown d :: _ => default 0 (resample_out_channels d)
  | _ => 0
  end.
Definition ldm_in_width (block : list Ldm.Layer) : nat :=
  match block with
  | Ldm.LRes r :: _ => rb_in_channels r
  | _ => 0
  end.

(** No division by zero in the rebinding of [num_heads] and [dim_head]. *)
Definition ldm_heads_ok (a : Ldm.Args) (num_heads : Z) : Prop :=
  if decide (Ldm.num_head_channels a = (-1)%Z) then num_heads ≠ 0%Z
  else Ldm.num_head_channels a ≠ 0%Z.

(** The arguments from which [init_for_ldm] builds the topology. *)
Definition ldm_buildable (a : Ldm.Args) : Prop :=
  is_Some (Ldm.in_channels a) ∧ is_Some (Ldm.out_channels a)
  ∧ (Ldm.channel_mult a ≠ [] → is_Some (Ldm.num_res_blocks a))
  ∧ ldm_heads_ok a (Ldm.num_heads a).

(** An LDM configuration: two levels of widths 32 and 64, two residual
    blocks each, attention at downsampling rate 2, as [__init__] passes
    it. *)
Definition ldm_example : Ldm.Args :=
  Ldm.of_call (mkLdmArgs (Some 3) 32 [1; 2] (Some 2) 0 128 [2] 32 (Some true) (Some 3)).

(** Whether a block of [self.input_blocks] is a downsampler, and whether
    a block of [self.output_blocks] ends in an upsampler. *)
Definition ldm_is_down (block : list Ldm.Layer) : bool :=
  match block with
  | Ldm.LDown _ :: _ => true
  | _ => false
  end.
Definition ldm_is_up_layer (l : Ldm.Layer) : bool :=
  match l with
  | Ldm.LUp _ => true
  | _ => false
  end.
Definition ldm_has_up (block : list Ldm.Layer) : bool := existsb ldm_is_up_layer block.

(** The blocks that level [level] adds to [self.input_blocks] and to
    [self.output_blocks] when each level has [R] residual blocks: for each
    block, whether it is (or ends in) a resampler. *)
Definition ldm_input_level (a : Ldm.Args) (R level : nat) : list bool :=
  replicate R false
  ++ (if bool_decide (level + 1 ≠ length (Ldm.channel_mult a)) then [true] else []).
Definition ldm_output_level (R level : nat) : list bool :=
  replicate R false ++ [bool_decide (level ≠ 0)].

(** A DDPM configuration for [__init__]: the plain configuration with the
    [ddpm] flag and the arguments of the DDPM topology. *)
Definition ddpm_args : Args.t :=
  let a := Trace.plain_args in
  Args.mk (Args.image_size a) (Args.in_channels a) (Args.out_channels a)
    (Args.num_res_blocks a) (Args.dropout a) (Args.block_channels a)
    (Args.down_blocks a) (Args.downsample_padding a) (Args.up_blocks a)
    (Args.resnet_act_fn a) (Args.resnet_eps a) (Args.conv_resample a)
    (Args.num_head_channels a) (Args.flip_sin_to_cos a) (Args.downscale_freq_shift a)
    (Args.time_embedding_type a) (Args.time_embedding_act_fn a)
    (Args.attention_resolutions a) false (Some 3) (Some 32)
    (Some [16]) (Some true) (Some [2; 3]) (Some 32)
    true false (Args.nf a) (Args.fir a) (Args.progressive a)
    (Args.progressive_combine a) (Args.scale_by_sigma a) (Args.skip_rescale a)
    (Args.num_channels a) (Args.centered a) (Args.conditional a) (Args.conv_size a)
    (Args.fir_kernel a) (Args.fourier_scale a) (Args.init_scale a)
    (Args.progressive_input a) (Args.continuous a).

(** * Properties *)

(** ** Outcomes and slices *)

Lemma bind_Ret {A B} (c : outcome A) (k : A → outcome B) (b : B) :
  c ≫= k = Ret b → ∃ a, c = Ret a ∧ k a = Ret b.
Proof. destruct c as [a| |]; intros E; try discriminate. by exists a. Qed.

Lemma require_some_Ret {A} what (o : option A) a :
  require_some what o = Ret a → o = Some a.
Proof. destruct o; intros [= ->]; done. Qed.

Lemma require_bound_Ret {A} var (o : option A) a :
  require_bound var o = Ret a → o = Some a.
Proof. destruct o; intros [= ->]; done. Qed.

Lemma getitem_Ret {A} (l : list A) i a : getitem l i = Ret a → l !! i = Some a.
Proof. unfold getitem. destruct (l !! i); intros [= ->]; done. Qed.

(** Inversion of a successful monadic chain. *)
Lemma bind_ext {A B} (c : outcome A) (k1 k2 : A → outcome B) :
  (∀ x, k1 x = k2 x) → c ≫= k1 = c ≫= k2.
Proof. intros Hk. destruct c; simpl; [apply Hk|done|done]. Qed.

Lemma bind_assoc {A B C} (c : outcome A) (k : A → outcome B) (g : B → outcome C) :
  (c ≫= k) ≫= g = c ≫= (λ x, k x ≫= g).
Proof. by destruct c. Qed.

Lemma bind_ext_assoc {A B C} (c : outcome A) (k1 : A → outcome C) (k2 : A → outcome B)
    (g : B → outcome C) :
  (∀ x, k1 x = k2 x ≫= g) → c ≫= k1 = (c ≫= k2) ≫= g.
Proof. intros Hk. rewrite bind_assoc. by apply bind_ext. Qed.

Ltac inv_ret H :=
  repeat match type of H with
  | mbind _ _ = Ret _ => apply bind_Ret in H as (? & ? & H)
  | _ ≫= _ = Ret _ => apply bind_Ret in H as (? & ? & H)
  | mret _ = Ret _ => injection H as H
  | Ret _ = Ret _ => injection H as H
  | Raise _ = Ret _ => discriminate H
  | Breakpoint = Ret _ => discriminate H
  end.

Lemma slice_split {A} (n : nat) (l : list A) :
  0 < n → slice_to_neg n l ++ slice_from_neg n l = l.
Proof.
  intros Hn. unfold slice_to_neg, slice_from_neg.
  destruct (decide (n = 0)); [lia|]. apply take_drop.
Qed.

Lemma length_slice_from_neg {A} (n : nat) (l : list A) :
  0 < n → n ≤ length l → length (slice_from_neg n l) = n.
Proof.
  intros Hn Hl. unfold slice_from_neg.
  destruct (decide (n = 0)); [lia|]. rewrite length_drop. lia.
Qed.

Lemma length_slice_to_neg {A} (n : nat) (l : list A) :
  0 < n → length (slice_to_neg n l) = length l - n.
Proof.
  intros Hn. unfold slice_to_neg.
  destruct (decide (n = 0)); [lia|]. rewrite length_take. lia.
Qed.

(** ** C4: the skip-combine component *)

(** C4, as stated, fails: building the skip-combine component with the
    method string "xor" returns the component, with the string stored; no
    error is raised at construction time. *)
Lemma Combine_xor_is_constructed :
  Combine.__init__ "all_modules.9" 3 128 "xor"
  = Ret (Combine.mk (mkConv2d 3 128 1 0 "all_modules.9.Conv_0.weight"
                       "all_modules.9.Conv_0.bias") "xor")
  ∧ ¬ raises (Combine.__init__ "all_modules.9" 3 128 "xor").
Proof. split; [reflexivity|]. intros [e E]. discriminate E. Qed.

(** C4, amended: a method string other than "cat" and "sum" is accepted
    and stored by the constructor of the skip-combine component; it is
    every later call of the component's [forward] that raises the
    [ValueError] "Method ... not recognized.", the configuration error of
    the specification. *)
Theorem Combine_unrecognized_method `{Backend} (owner : string) (dim1 dim2 : nat)
    (method : string) :
  method ≠ "cat" → method ≠ "sum" →
  ∃ c e, Combine.__init__ owner dim1 dim2 method = Ret c
         ∧ Combine.method c = method
         ∧ e = ValueError ("Method " +:+ method +:+ " not recognized.")
         ∧ is_configuration_error e = true
         ∧ ∀ x y, Combine.forward c x y = Raise e.
Proof.
  intros Hcat Hsum. eexists _, _. split; [reflexivity|]. split; [reflexivity|].
  split; [reflexivity|]. split; [reflexivity|].
  intros x y. unfold Combine.forward. simpl.
  destruct (decide (method = "cat")); [done|].
  destruct (decide (method = "sum")); [done|]. reflexivity.
Qed.

Lemma Combine_unrecognized_method_witness :
  ∃ c e, Combine.__init__ "all_modules.9" 3 128 "xor" = Ret c
         ∧ Combine.method c = "xor"
         ∧ e = ValueError ("Method " +:+ "xor" +:+ " not recognized.")
         ∧ is_configuration_error e = true
         ∧ ∀ x y, @Combine.forward Trace.numerics Trace.backend c x y = Raise e.
Proof.
  apply (@Combine_unrecognized_method Trace.numerics Trace.backend
           "all_modules.9" 3 128 "xor"); discriminate.
Defined.

(** ** C8: the timestep MLP *)

(** C8: the timestep MLP is a linear layer from [channel] to
    [time_embed_dim], then silu when the activation kind is "silu" and
    nothing when it is unset (or any other kind), then a linear layer from
    [time_embed_dim] to [time_embed_dim]; its output is a function of the
    input and of the two linear layers alone. *)
Theorem TimestepEmbedding_contract `{Backend} (owner : string)
    (channel time_embed_dim : nat) (sample : Tensor) :
  let l1 := nn_Linear (owner +:+ ".linear_1") channel time_embed_dim in
  let l2 := nn_Linear (owner +:+ ".linear_2") time_embed_dim time_embed_dim in
  let mlp := TimestepEmbedding.__init__ owner channel time_embed_dim in
  in_features l1 = channel ∧ out_features l1 = time_embed_dim
  ∧ in_features l2 = time_embed_dim ∧ out_features l2 = time_embed_dim
  ∧ (∀ act_fn, TimestepEmbedding.linear_1 (mlp act_fn) = l1
               ∧ TimestepEmbedding.linear_2 (mlp act_fn) = l2)
  ∧ TimestepEmbedding.forward (mlp (Some "silu")) sample
    = linear l2 (silu (linear l1 sample))
  ∧ TimestepEmbedding.forward (mlp None) sample = linear l2 (linear l1 sample)
  ∧ (∀ act_fn, act_fn ≠ Some "silu" →
       TimestepEmbedding.forward (mlp act_fn) sample = linear l2 (linear l1 sample)).
Proof.
  simpl. repeat split.
  intros act_fn Hne.
  unfold TimestepEmbedding.forward, TimestepEmbedding.__init__. simpl.
  destruct (decide (act_fn = Some "silu")); [done|reflexivity].
Qed.

(** ** C7: the timestep argument *)

Lemma fits_int64_spec (z : Z) : fits_int64 z = true ↔ (int64_min ≤ z ≤ int64_max)%Z.
Proof. unfold fits_int64. rewrite andb_true_iff, !Z.leb_le. done. Qed.

Lemma fits_int64_false (z : Z) :
  ¬ (int64_min ≤ z ≤ int64_max)%Z → fits_int64 z = false.
Proof.
  intros Hz. destruct (fits_int64 z) eqn:E; [|done].
  apply fits_int64_spec in E. done.
Qed.

(** The computation of [forward] after the [set_weights] guard, step by
    step: the timestep is made a tensor, from which the embedding generator
    and the timestep MLP compute the conditioning vector; nothing else reads
    it. *)
Lemma forward_body_unfold `{Backend} (self : t) (sample : Tensor) (timestep : TimestepArg) :
  forward_body self sample timestep
  = (timesteps ← normalize_timesteps timestep sample;
     let emb := TimestepEmbedding.forward (time_embedding self)
                  (time_steps_call (time_steps self) timesteps) in
     let x := conv2d (conv_in self) sample in
     let down := down_pass (downsample_blocks self) x emb sample [x] in
     mid_sample ← (if Config.ddpm (config self)
                   then call_mid "mid_new_2" (mid_new_2 self) down.1.1 emb
                   else call_mid "mid" (mid self) down.1.1 emb);
     up ← up_pass (upsample_blocks self) mid_sample down.1.2 emb;
     mret (VDict {[ "sample" := post_process self up.1 ]})).
Proof.
  unfold forward_body. apply bind_ext; intros timesteps. cbv zeta.
  destruct (down_pass _ _ _ _ _) as [[s buf] skip]. cbn [fst snd].
  apply bind_ext; intros mid_sample. apply bind_ext; intros [out rest]. done.
Qed.

Section TimestepExamples.
Import Trace.

(** C7, as stated, fails for a scalar that [torch.long] cannot hold: the
    timestep 2^63 is not wrapped into a tensor, the call raises. *)
Lemma timestep_past_int64_is_not_wrapped :
  ∃ m, __init__ plain_args = Ret m
       ∧ normalize_timesteps (TScalar (PyInt (2 ^ 63))) (image 1 3 32 32)
         = Raise (RuntimeError "Overflow when unpacking long")
       ∧ (forward (image 1 3 32 32) (TScalar (PyInt (2 ^ 63))) m).1
         = Raise (RuntimeError "Overflow when unpacking long").
Proof.
  eexists. split; [vm_compute; reflexivity|]. split; vm_compute; reflexivity.
Qed.

End TimestepExamples.

(** C7, amended: [forward] first makes the timestep a tensor. A Python
    number that fits a signed 64-bit integer (a float is cut to its integer
    part) becomes a tensor of shape [1] and type long on the sample's
    device, and a number that does not fit makes the call raise
    RuntimeError; a 0-dimensional tensor becomes a tensor of shape [1] on
    the sample's device with the same value; any other tensor, a
    1-dimensional one in particular, is kept as it is. The embedding
    generator receives the tensor so obtained, and the rest of [forward]
    reads the timestep only through the conditioning vector. *)
Theorem timestep_is_normalized `{Backend} (self : t) (sample : Tensor) :
  (∀ z, (int64_min ≤ z ≤ int64_max)%Z →
        normalize_timesteps (TScalar (PyInt z)) sample
        = Ret (mkTensor [1] torch_long (device sample) [ELong z]))
  ∧ (∀ f z, float_to_long f = Some z → (int64_min ≤ z ≤ int64_max)%Z →
            normalize_timesteps (TScalar (PyFloat f)) sample
            = Ret (mkTensor [1] torch_long (device sample) [ELong z]))
  ∧ (∀ z, ¬ (int64_min ≤ z ≤ int64_max)%Z →
          ∃ msg, normalize_timesteps (TScalar (PyInt z)) sample = Raise (RuntimeError msg))
  ∧ (∀ f, (∀ z, float_to_long f = Some z → ¬ (int64_min ≤ z ≤ int64_max)%Z) →
          ∃ msg, normalize_timesteps (TScalar (PyFloat f)) sample = Raise (RuntimeError msg))
  ∧ (∀ dt dev d, normalize_timesteps (TTensor (mkTensor [] dt dev d)) sample
                 = Ret (mkTensor [1] dt (device sample) d))
  ∧ (∀ t, shape t ≠ [] → normalize_timesteps (TTensor t) sample = Ret t)
  ∧ (∀ timestep e, normalize_timesteps timestep sample = Raise e →
                   forward_body self sample timestep = Raise e)
  ∧ (∀ timestep timesteps, normalize_timesteps timestep sample = Ret timesteps →
       forward_body self sample timestep
       = (let emb := TimestepEmbedding.forward (time_embedding self)
                       (time_steps_call (time_steps self) timesteps) in
          let x := conv2d (conv_in self) sample in
          let down := down_pass (downsample_blocks self) x emb sample [x] in
          mid_sample ← (if Config.ddpm (config self)
                        then call_mid "mid_new_2" (mid_new_2 self) down.1.1 emb
                        else call_mid "mid" (mid self) down.1.1 emb);
          up ← up_pass (upsample_blocks self) mid_sample down.1.2 emb;
          mret (VDict {[ "sample" := post_process self up.1 ]}))).
Proof.
  split; [|split; [|split; [|split; [|split; [|split; [|split]]]]]].
  - intros z Hz. cbn. by rewrite (proj2 (fits_int64_spec z) Hz).
  - intros f z Hf Hz. cbn. by rewrite Hf, (proj2 (fits_int64_spec z) Hz).
  - intros z Hz. cbn. rewrite (fits_int64_false z Hz). by eexists.
  - intros f Hf. cbn. destruct (float_to_long f) as [z|] eqn:E; [|by eexists].
    rewrite (fits_int64_false z (Hf z eq_refl)). by eexists.
  - done.
  - intros t Ht. cbn. destruct (decide (length (shape t) = 0)) as [E|]; [|done].
    by apply nil_length_inv in E.
  - intros timestep e E. by rewrite forward_body_unfold, E.
  - intros timestep timesteps E. by rewrite forward_body_unfold, E.
Qed.

(** ** The block graph built by [__init__] *)

Lemma build_down_blocks_spec a bc ted i oc tags dbs :
  build_down_blocks a bc ted i oc tags = Ret dbs →
  length dbs = length tags
  ∧ ∀ j b, dbs !! j = Some b →
      Args.num_res_blocks a = Some (DownBlock.num_layers b)
      ∧ DownBlock.add_downsample b = negb (bool_decide (i + j + 1 = length bc))
      ∧ (tags !! j) ≫= down_kind_of_tag = Some (DownBlock.kind b)
      ∧ DownBlock.path b = "downsample_blocks." +:+ pretty (i + j).
Proof.
  revert i oc dbs. induction tags as [|tag tags IH]; intros i oc dbs E; simpl in E.
  - injection E as <-. split; [done|]. intros j b Hj. by rewrite lookup_nil in Hj.
  - inv_ret E. subst dbs.
    match goal with H : build_down_blocks _ _ _ _ _ _ = Ret _ |- _ =>
      apply IH in H as [Hlen Hrest] end.
    split; [simpl; by rewrite Hlen|].
    intros [|j] b Hj; simpl in Hj.
    + injection Hj as <-.
      match goal with H : get_down_block _ _ _ _ _ _ _ _ _ _ _ = Ret _ |- _ =>
        unfold get_down_block in H;
        destruct (down_kind_of_tag tag) as [k|] eqn:Hk; [|discriminate H];
        inv_ret H; subst end.
      match goal with H : require_some _ _ = Ret _ |- _ =>
        apply require_some_Ret in H end.
      simpl. rewrite Nat.add_0_r. repeat split; done.
    + destruct (Hrest j b Hj) as (Hnum & Hadd & Hkind & Hpath).
      simpl. replace (i + S j) with (S i + j) by lia. repeat split; try done.
Qed.

Lemma build_up_blocks_spec a bc ted i oc tags ubs :
  build_up_blocks a bc ted i oc tags = Ret ubs →
  length ubs = length tags
  ∧ ∀ j b, ubs !! j = Some b →
      (∃ R, Args.num_res_blocks a = Some R ∧ len_resnets b = R + 1)
      ∧ UpBlock.add_upsample b = negb (bool_decide (i + j + 1 = length bc))
      ∧ (tags !! j) ≫= up_kind_of_tag = Some (UpBlock.kind b)
      ∧ UpBlock.path b = "upsample_blocks." +:+ pretty (i + j).
Proof.
  revert i oc ubs. induction tags as [|tag tags IH]; intros i oc ubs E; simpl in E.
  - injection E as <-. split; [done|]. intros j b Hj. by rewrite lookup_nil in Hj.
  - inv_ret E. subst ubs.
    match goal with H : build_up_blocks _ _ _ _ _ _ = Ret _ |- _ =>
      apply IH in H as [Hlen Hrest] end.
    split; [simpl; by rewrite Hlen|].
    intros [|j] b Hj; simpl in Hj.
    + injection Hj as <-.
      match goal with H : get_up_block _ _ _ _ _ _ _ _ _ _ _ = Ret _ |- _ =>
        unfold get_up_block in H;
        destruct (up_kind_of_tag tag) as [k|] eqn:Hk; [|discriminate H];
        inv_ret H; subst end.
      match goal with H : require_some _ _ = Ret _ |- _ =>
        apply require_some_Ret in H end.
      simpl. rewrite Nat.add_0_r. repeat split; try done. eauto.
    + destruct (Hrest j b Hj) as (Hnum & Hadd & Hkind & Hpath).
      simpl. replace (i + S j) with (S i + j) by lia. repeat split; try done.
Qed.

Lemma built_down_graph a bc ted oc tags dbs R :
  build_down_blocks a bc ted 0 oc tags = Ret dbs →
  length tags = length bc → 0 < length bc →
  Args.num_res_blocks a = Some R →
  down_graph R dbs.
Proof.
  intros E Hlen Hpos HR. apply build_down_blocks_spec in E as [Hl Hspec].
  destruct dbs as [|b0 dbs0] using rev_ind; [simpl in Hl; lia|]. clear IHdbs0.
  rewrite length_app in Hl. simpl in Hl.
  exists dbs0, b0. split; [done|]. split.
  - apply Forall_lookup_2. intros j b Hj.
    pose proof (lookup_lt_Some _ _ _ Hj) as Hlt.
    destruct (Hspec j b) as (Hnum & Hadd & _).
    { by rewrite lookup_app_l. }
    rewrite HR in Hnum. injection Hnum as <-. split; [done|].
    rewrite Hadd. simpl. rewrite bool_decide_eq_false_2; [done|lia].
  - destruct (Hspec (length dbs0) b0) as (Hnum & Hadd & _).
    { rewrite lookup_app_r; [|lia]. by rewrite Nat.sub_diag. }
    rewrite HR in Hnum. injection Hnum as <-. split; [done|].
    rewrite Hadd. simpl. rewrite bool_decide_eq_true_2; [done|lia].
Qed.

Lemma built_up_graph a bc ted oc tags ubs R :
  build_up_blocks a bc ted 0 oc tags = Ret ubs →
  length tags = length bc → 0 < length bc →
  Args.num_res_blocks a = Some R →
  up_graph R ubs.
Proof.
  intros E Hlen Hpos HR. apply build_up_blocks_spec in E as [Hl Hspec].
  destruct ubs as [|b0 ubs0] using rev_ind; [simpl in Hl; lia|]. clear IHubs0.
  rewrite length_app in Hl. simpl in Hl.
  exists ubs0, b0. split; [done|]. split.
  - apply Forall_lookup_2. intros j b Hj.
    pose proof (lookup_lt_Some _ _ _ Hj) as Hlt.
    destruct (Hspec j b) as ((R' & HR' & Hnum) & Hadd & _).
    { by rewrite lookup_app_l. }
    rewrite HR in HR'. injection HR' as <-. split; [done|].
    rewrite Hadd. simpl. rewrite bool_decide_eq_false_2; [done|lia].
  - destruct (Hspec (length ubs0) b0) as ((R' & HR' & Hnum) & Hadd & _).
    { rewrite lookup_app_r; [|lia]. by rewrite Nat.sub_diag. }
    rewrite HR in HR'. injection HR' as <-. split; [done|].
    rewrite Hadd. simpl. rewrite bool_decide_eq_true_2; [done|lia].
Qed.

(** What construction leaves in [self] before the legacy initialisers. *)
Lemma init_block_graph_Ret a self locals :
  init_block_graph a = Ret (self, locals) →
  ∃ c0 dim r0,
    sde_overrides a (register_to_config a) = Ret (locals, config self)
    ∧ l_block_channels locals !! 0 = Some c0
    ∧ nn_Conv2d "conv_in" (l_in_channels locals) (Some c0) 3 1 = Ret (conv_in self)
    ∧ build_time_steps a (config self) (l_block_channels locals)
      = Ret (Some (time_steps self, dim))
    ∧ time_embedding self
      = TimestepEmbedding.__init__ "time_embedding" dim (c0 * 4)
          (Config.time_embedding_act_fn (config self))
    ∧ build_down_blocks a (l_block_channels locals) (c0 * 4) 0 c0 (l_down_blocks locals)
      = Ret (downsample_blocks self)
    ∧ build_up_blocks a (l_block_channels locals) (c0 * 4) 0 r0 (Args.up_blocks a)
      = Ret (upsample_blocks self)
    ∧ (if Config.ddpm (config self) then is_Some (mid_new_2 self) else is_Some (mid self))
    ∧ nn_Conv2d "conv_out" (Some c0) (l_out_channels locals) 3 1 = Ret (conv_out self)
    ∧ is_overwritten self = false
    ∧ attrs self = ∅.
Proof.
  unfold init_block_graph. intros E.
  apply bind_Ret in E as ([locals' config'] & Hov & E).
  apply bind_Ret in E as (c0 & Hc0 & E).
  apply bind_Ret in E as (cin & Hcin & E).
  apply bind_Ret in E as (time & Htime & E).
  apply bind_Ret in E as ([ts dim] & Hdim & E).
  apply bind_Ret in E as (dbs & Hdbs & E).
  apply bind_Ret in E as (clast & Hlast & E).
  apply bind_Ret in E as (r0 & Hr0 & E).
  apply bind_Ret in E as (ubs & Hubs & E).
  apply bind_Ret in E as (cout & Hcout & E).
  injection E as <- <-.
  apply require_bound_Ret in Hdim. subst time. apply getitem_Ret in Hc0.
  exists c0, dim, r0. simpl. repeat split; try done.
  destruct (Config.ddpm config'); eauto.
Qed.

(** The whole of what [init_block_graph] returns. *)
Lemma init_block_graph_inv a self locals :
  init_block_graph a = Ret (self, locals) →
  ∃ config c0 cin ts dim dbs c_last r0 ubs cout,
    sde_overrides a (register_to_config a) = Ret (locals, config)
    ∧ l_block_channels locals !! 0 = Some c0
    ∧ nn_Conv2d "conv_in" (l_in_channels locals) (Some c0) 3 1 = Ret cin
    ∧ build_time_steps a config (l_block_channels locals) = Ret (Some (ts, dim))
    ∧ build_down_blocks a (l_block_channels locals) (c0 * 4) 0 c0 (l_down_blocks locals)
      = Ret dbs
    ∧ last (l_block_channels locals) = Some c_last
    ∧ reverse (l_block_channels locals) !! 0 = Some r0
    ∧ build_up_blocks a (l_block_channels locals) (c0 * 4) 0 r0 (Args.up_blocks a)
      = Ret ubs
    ∧ nn_Conv2d "conv_out" (Some c0) (l_out_channels locals) 3 1 = Ret cout
    ∧ self
      = let mid_block path :=
          new_UNetMidBlock2D path c_last (c0 * 4) (Some (Args.dropout a))
            (Some (Args.resnet_eps a)) (Some (Args.resnet_act_fn a)) None None
            (Some (Args.num_head_channels a)) in
        mk config (register_to_config a) (Args.image_size a) cin ts
          (TimestepEmbedding.__init__ "time_embedding" dim (c0 * 4)
             (Config.time_embedding_act_fn config))
          dbs
          (if Config.ddpm config then None else Some (mid_block "mid"))
          (if Config.ddpm config then Some (mid_block "mid_new_2") else None)
          ubs (nn_GroupNorm "conv_norm_out" 32 c0 (Args.resnet_eps a)) cout false ∅.
Proof.
  unfold init_block_graph. intros E.
  apply bind_Ret in E as ([locals' config'] & Hov & E).
  apply bind_Ret in E as (c0 & Hc0 & E).
  apply bind_Ret in E as (cin & Hcin & E).
  apply bind_Ret in E as (time & Htime & E).
  apply bind_Ret in E as ([ts dim] & Hdim & E).
  apply bind_Ret in E as (dbs & Hdbs & E).
  apply bind_Ret in E as (clast & Hlast & E).
  apply bind_Ret in E as (r0 & Hr0 & E).
  apply bind_Ret in E as (ubs & Hubs & E).
  apply bind_Ret in E as (cout & Hcout & E).
  injection E as <- <-.
  apply require_bound_Ret in Hdim. subst time.
  apply getitem_Ret in Hc0, Hr0.
  unfold getitem_last in Hlast.
  destruct (last (l_block_channels locals')) as [cl|] eqn:Hl; [|discriminate Hlast].
  injection Hlast as ->.
  exists config', c0, cin, ts, dim, dbs, clast, r0, ubs, cout.
  repeat (split; [done|]). done.
Qed.

Lemma sde_overrides_config a locals config :
  sde_overrides a (register_to_config a) = Ret (locals, config) →
  Config.ldm config = Args.ldm a ∧ Config.ddpm config = Args.ddpm a
  ∧ Config.sde config = Args.sde a.
Proof.
  unfold sde_overrides. destruct (Args.sde a) eqn:Hsde; intros E; inv_ret E;
    subst; simpl; done.
Qed.

(** The graph built for [L] levels and [R] residual blocks per level. *)
Lemma init_block_graph_graph a self locals L R :
  init_block_graph a = Ret (self, locals) →
  length (l_block_channels locals) = L →
  length (l_down_blocks locals) = L →
  length (Args.up_blocks a) = L →
  Args.num_res_blocks a = Some R →
  0 < L ∧ down_graph R (downsample_blocks self) ∧ up_graph R (upsample_blocks self)
  ∧ length (downsample_blocks self) = L ∧ length (upsample_blocks self) = L.
Proof.
  intros E Hbc Hd Hu HR.
  apply init_block_graph_Ret in E
    as (c0 & dim & r0 & _ & Hc0 & _ & _ & _ & Hdbs & Hubs & _).
  assert (0 < L) as Hpos.
  { apply lookup_lt_Some in Hc0. lia. }
  split; [done|]. split; [|split; [|split]].
  - eapply built_down_graph; eauto; lia.
  - eapply built_up_graph; eauto; lia.
  - apply build_down_blocks_spec in Hdbs as [-> _]. done.
  - apply build_up_blocks_spec in Hubs as [-> _]. done.
Qed.

(** ** C2, C3: the skip buffer *)

Section SkipBuffer.
Context `{Backend}.

Lemma down_resnet_steps_length b i n h temb acc :
  length (down_resnet_steps b i n h temb acc).2 = length acc + n.
Proof.
  revert i h acc. induction n as [|n IH]; intros i h acc; simpl; [lia|].
  rewrite IH, length_app. simpl. lia.
Qed.

Lemma down_block_call_length b h temb :
  length (down_block_call b h temb).2 = res_count b.
Proof.
  unfold down_block_call, res_count.
  pose proof (down_resnet_steps_length b 0 (DownBlock.num_layers b) h temb []) as Hl.
  destruct (down_resnet_steps b 0 (DownBlock.num_layers b) h temb []) as [h' out].
  simpl in Hl. destruct (DownBlock.add_downsample b); simpl.
  - rewrite length_app. simpl. lia.
  - lia.
Qed.

Lemma down_block_call_skip_length b h temb skip :
  length (down_block_call_skip b h temb skip).1.2 = res_count b.
Proof.
  unfold down_block_call_skip, res_count.
  pose proof (down_resnet_steps_length b 0 (DownBlock.num_layers b) h temb []) as Hl.
  destruct (down_resnet_steps b 0 (DownBlock.num_layers b) h temb []) as [h' out].
  simpl in Hl. destruct (DownBlock.add_downsample b); simpl.
  - destruct (down_skip_step b (down_resample_step b h') skip) as [h2 skip2].
    simpl. rewrite length_app. simpl. lia.
  - lia.
Qed.

Lemma down_pass_length dbs sample emb skip acc :
  length (down_pass dbs sample emb skip acc).1.2
  = length acc + sum_list (res_count <$> dbs).
Proof.
  revert sample skip acc. induction dbs as [|b dbs IH]; intros sample skip acc; simpl.
  - lia.
  - destruct (has_skip_conv b && skip_connection_is_not_None b).
    + pose proof (down_block_call_skip_length b sample emb skip) as Hl.
      destruct (down_block_call_skip b sample emb skip) as [[s' res] k'].
      simpl in Hl. rewrite IH, length_app. unfold fmap. lia.
    + pose proof (down_block_call_length b sample emb) as Hl.
      destruct (down_block_call b sample emb) as [s' res].
      simpl in Hl. rewrite IH, length_app. unfold fmap. lia.
Qed.

Lemma sum_list_snoc (l : list nat) (x : nat) : sum_list (l ++ [x]) = sum_list l + x.
Proof. induction l as [|y l IH]; simpl; lia. Qed.

Lemma down_graph_count R dbs :
  down_graph R dbs → sum_list (res_count <$> dbs) = length dbs * R + (length dbs - 1).
Proof.
  intros (init & final & -> & Hinit & Hnum & Hadd).
  rewrite fmap_app, length_app. simpl. rewrite sum_list_snoc.
  unfold res_count at 2. rewrite Hnum, Hadd.
  rewrite (sum_list_fmap_same (R + 1)).
  - lia.
  - eapply Forall_impl; [exact Hinit|]. intros b [Hn Ha].
    unfold res_count. rewrite Hn, Ha. done.
Qed.

Lemma up_resnet_steps_returns b i n h res temb :
  n ≤ length res → returns (up_resnet_steps b i n h res temb).
Proof.
  revert i h res. induction n as [|n IH]; intros i h res Hn; simpl.
  - by eexists.
  - destruct res as [|r0 res0] using rev_ind; [simpl in Hn; lia|]. clear IHres0.
    unfold getitem_last. rewrite last_snoc. simpl.
    rewrite length_app in Hn. simpl in Hn.
    apply IH. rewrite length_slice_to_neg by lia. rewrite length_app. simpl. lia.
Qed.

Lemma up_block_call_returns b h res temb :
  len_resnets b ≤ length res → returns (up_block_call b h res temb).
Proof.
  intros Hn. unfold up_block_call.
  destruct (up_resnet_steps_returns b 0 (len_resnets b) h res temb Hn) as [h' ->].
  simpl. destruct (UpBlock.add_upsample b); by eexists.
Qed.

Lemma up_pass_drains R ubs sample buf emb :
  Forall (λ b, len_resnets b = R + 1) ubs →
  length buf = length ubs * (R + 1) →
  ∃ out, up_pass ubs sample buf emb = Ret (out, []).
Proof.
  intros Hall. revert sample buf.
  induction Hall as [|b ubs Hb _ IH]; intros sample buf Hlen; simpl in *.
  - exists sample. destruct buf; [done|simpl in Hlen; lia].
  - destruct (up_block_call_returns b sample (slice_from_neg (len_resnets b) buf) emb)
      as [s' ->].
    { rewrite length_slice_from_neg; lia. }
    simpl. apply IH. rewrite length_slice_to_neg by lia. lia.
Qed.

Lemma up_graph_Forall R ubs :
  up_graph R ubs → Forall (λ b, len_resnets b = R + 1) ubs.
Proof.
  intros (init & final & -> & Hinit & Hnum & _).
  apply Forall_app. split.
  - eapply Forall_impl; [exact Hinit|]. by intros b [? _].
  - by constructor.
Qed.

(** The step of the loop over [upsample_blocks] at a block with [k]
    residual layers, when the buffer holds at least [k] tensors. *)
Lemma up_pass_step b after sample (buffer : list Tensor) emb k :
  len_resnets b = k → 0 < k → k ≤ length buffer →
  ∃ kept popped,
    buffer = kept ++ popped ∧ length popped = k
    ∧ kept = take (length buffer - k) buffer
    ∧ up_pass (b :: after) sample buffer emb
      = (sample ← up_block_call b sample popped emb; up_pass after sample kept emb).
Proof.
  intros Hb Hk Hlen.
  exists (slice_to_neg k buffer), (slice_from_neg k buffer).
  split; [symmetry; apply slice_split; lia|].
  split; [apply length_slice_from_neg; lia|]. split.
  - unfold slice_to_neg. destruct (decide (k = 0)); [lia|done].
  - cbn [up_pass]. by rewrite Hb.
Qed.

(** C2: on an instance [m] that holds the block graph built for [L]
    resolution levels and [R] residual blocks per level, the skip buffer of
    [forward] holds 1 + L*R + (L-1) entries after the down pass. The graph
    has [L] up blocks of [R + 1] residual blocks each; the up block whose
    turn it is finds the buffer shortened by [R + 1] entries for every block
    before it, is called with its last [R + 1] entries and leaves the others
    to the blocks after it; the up pass ends with the buffer empty. *)
Theorem skip_buffer_balance (a : Args.t) (self m : t) (locals : Locals) (L R : nat)
    (sample : Tensor) (timestep : TimestepArg) (timesteps : Tensor) :
  init_block_graph a = Ret (self, locals) →
  length (l_block_channels locals) = L →
  length (l_down_blocks locals) = L →
  length (Args.up_blocks a) = L →
  Args.num_res_blocks a = Some R →
  downsample_blocks m = downsample_blocks self →
  upsample_blocks m = upsample_blocks self →
  normalize_timesteps timestep sample = Ret timesteps →
  let emb := TimestepEmbedding.forward (time_embedding m)
               (time_steps_call (time_steps m) timesteps) in
  let x := conv2d (conv_in m) sample in
  let down := down_pass (downsample_blocks m) x emb sample [x] in
  let buffer := down.1.2 in
  length buffer = 1 + L * R + (L - 1)
  ∧ length (upsample_blocks m) = L
  ∧ (∀ before b after s,
       upsample_blocks m = before ++ b :: after →
       let buffer_b := take (length buffer - length before * (R + 1)) buffer in
       ∃ kept popped,
         len_resnets b = R + 1
         ∧ buffer_b = kept ++ popped ∧ length popped = R + 1
         ∧ kept = take (length buffer - (length before + 1) * (R + 1)) buffer
         ∧ up_pass (b :: after) s buffer_b emb
           = (s ← up_block_call b s popped emb; up_pass after s kept emb))
  ∧ (∀ mid_sample,
       ∃ out, up_pass (upsample_blocks m) mid_sample buffer emb = Ret (out, []))
  ∧ forward_body m sample timestep
    = (mid_sample ← (if Config.ddpm (config m)
                     then call_mid "mid_new_2" (mid_new_2 m) down.1.1 emb
                     else call_mid "mid" (mid m) down.1.1 emb);
       up ← up_pass (upsample_blocks m) mid_sample buffer emb;
       mret (VDict {[ "sample" := post_process m up.1 ]})).
Proof.
  intros E Hbc Hd Hu HR Hdm Hum Hts emb x down buffer.
  destruct (init_block_graph_graph a self locals L R E Hbc Hd Hu HR)
    as (Hpos & Hdown & Hup & Hld & Hlu).
  rewrite <- Hdm in Hdown, Hld. rewrite <- Hum in Hup, Hlu.
  assert (length buffer = 1 + L * R + (L - 1)) as Hbuf.
  { unfold buffer, down. rewrite down_pass_length, (down_graph_count R) by done.
    rewrite Hld. simpl. lia. }
  pose proof (up_graph_Forall R _ Hup) as Hall.
  split; [done|]. split; [done|]. split; [|split].
  - intros before b after s Hsplit buffer_b.
    assert (len_resnets b = R + 1) as Hb.
    { rewrite Hsplit in Hall. apply Forall_app in Hall as [_ Hall].
      by apply Forall_cons in Hall as [Hb _]. }
    assert (length before < L) as Hlt.
    { rewrite <- Hlu, Hsplit, length_app. simpl. lia. }
    assert (length buffer = L * (R + 1)) as Hbuf' by (rewrite Hbuf; nia).
    assert (length buffer_b = (L - length before) * (R + 1)) as Hlb.
    { unfold buffer_b. rewrite length_take, Hbuf'. nia. }
    destruct (up_pass_step b after s buffer_b emb (R + 1) Hb) as (kept & popped & Hx);
      [lia|rewrite Hlb; nia|].
    destruct Hx as (Hsp & Hpop & Hkept & Hstep).
    exists kept, popped. repeat (split; [done|]). split; [|done].
    rewrite Hkept. unfold buffer_b. rewrite take_take. f_equal.
    rewrite length_take, Hbuf'. nia.
  - intros mid_sample. apply (up_pass_drains R); [done|]. rewrite Hbuf, Hlu.
    destruct L; [lia|]. lia.
  - by rewrite forward_body_unfold, Hts.
Qed.

End SkipBuffer.

Section SkipBufferExamples.
Import Trace.

Lemma skip_buffer_balance_witness :
  ∃ self locals m timesteps,
    init_block_graph plain_args = Ret (self, locals)
    ∧ __init__ plain_args = Ret m
    ∧ normalize_timesteps (TScalar (PyInt 0)) (image 1 3 32 32) = Ret timesteps
    ∧ let sample := image 1 3 32 32 in
      let emb := TimestepEmbedding.forward (time_embedding m)
                   (time_steps_call (time_steps m) timesteps) in
      let x := conv2d (conv_in m) sample in
      let down := down_pass (downsample_blocks m) x emb sample [x] in
      let buffer := down.1.2 in
      length buffer = 1 + 2 * 2 + (2 - 1)
      ∧ length (upsample_blocks m) = 2
      ∧ (∀ before b after s,
           upsample_blocks m = before ++ b :: after →
           let buffer_b := take (length buffer - length before * (2 + 1)) buffer in
           ∃ kept popped,
             len_resnets b = 2 + 1
             ∧ buffer_b = kept ++ popped ∧ length popped = 2 + 1
             ∧ kept = take (length buffer - (length before + 1) * (2 + 1)) buffer
             ∧ up_pass (b :: after) s buffer_b emb
               = (s ← up_block_call b s popped emb; up_pass after s kept emb))
      ∧ (∀ mid_sample,
           ∃ out, up_pass (upsample_blocks m) mid_sample buffer emb = Ret (out, []))
      ∧ forward_body m sample (TScalar (PyInt 0))
        = (mid_sample ← (if Config.ddpm (config m)
                         then call_mid "mid_new_2" (mid_new_2 m) down.1.1 emb
                         else call_mid "mid" (mid m) down.1.1 emb);
           up ← up_pass (upsample_blocks m) mid_sample buffer emb;
           mret (VDict {[ "sample" := post_process m up.1 ]})).
Proof.
  eexists _, _, _, _. split; [vm_compute; reflexivity|].
  split; [vm_compute; reflexivity|]. split; [vm_compute; reflexivity|].
  eapply (@skip_buffer_balance numerics backend plain_args); reflexivity.
Defined.

(** C3, as stated, fails on the order: the up blocks run in the order in
    which they were constructed, and running them in the reverse order
    gives another result. Here the graph has two up blocks; the first one
    built upsamples and the last one does not. *)
Lemma up_blocks_do_not_run_in_reverse_construction_order :
  ∃ self locals,
    init_block_graph Trace.plain_args = Ret (self, locals)
    ∧ let sample := Trace.image 1 128 16 16 in
      let buffer := replicate 6 (Trace.image 1 64 32 32) in
      let emb := Trace.image 1 256 1 1 in
      up_pass (upsample_blocks self) sample buffer emb
      ≠ up_pass_reverse_construction_order (upsample_blocks self) sample buffer emb.
Proof.
  eexists _, _. split; [vm_compute; reflexivity|].
  vm_compute. intros E. discriminate E.
Qed.

End SkipBufferExamples.

(** C3, amended: the up blocks run in construction order (the [j]-th block
    of [upsample_blocks] is the one built from the [j]-th type tag); the
    block whose turn it is receives the last [len(resnets)] tensors of the
    skip buffer, in the order they have in the buffer, with the running
    tensor and the conditioning vector, and the blocks after it go on with
    the buffer shortened by exactly these tensors. *)
Theorem up_blocks_pop_skips_in_construction_order `{Backend} (a : Args.t) (self : t)
    (locals : Locals) :
  init_block_graph a = Ret (self, locals) →
  (∀ j b, upsample_blocks self !! j = Some b →
     (Args.up_blocks a !! j) ≫= up_kind_of_tag = Some (UpBlock.kind b)
     ∧ UpBlock.path b = "upsample_blocks." +:+ pretty j)
  ∧ ∀ before b after sample buffer emb,
      upsample_blocks self = before ++ b :: after →
      len_resnets b ≤ length buffer →
      ∃ kept popped,
        buffer = kept ++ popped
        ∧ length popped = len_resnets b
        ∧ up_pass (b :: after) sample buffer emb
          = (sample ← up_block_call b sample popped emb;
             up_pass after sample kept emb).
Proof.
  intros E.
  apply init_block_graph_Ret in E
    as (c0 & dim & r0 & _ & _ & _ & _ & _ & _ & Hubs & _).
  apply build_up_blocks_spec in Hubs as [Hlen Hspec].
  split.
  - intros j b Hj. destruct (Hspec j b Hj) as (_ & _ & Hkind & Hpath). done.
  - intros before b after sample buffer emb Hsplit Hn.
    destruct (Hspec (length before) b) as ((R & _ & HR) & _).
    { rewrite Hsplit, lookup_app_r by lia. by rewrite Nat.sub_diag. }
    exists (slice_to_neg (len_resnets b) buffer), (slice_from_neg (len_resnets b) buffer).
    split; [symmetry; apply slice_split; lia|].
    split; [apply length_slice_from_neg; lia|]. reflexivity.
Qed.

Section UpOrderExamples.
Import Trace.

Lemma up_blocks_pop_skips_in_construction_order_witness :
  ∃ self locals,
    init_block_graph Trace.plain_args = Ret (self, locals)
    ∧ (∀ j b, upsample_blocks self !! j = Some b →
         (Args.up_blocks Trace.plain_args !! j) ≫= up_kind_of_tag = Some (UpBlock.kind b)
         ∧ UpBlock.path b = "upsample_blocks." +:+ pretty j)
    ∧ ∀ before b after sample buffer emb,
        upsample_blocks self = before ++ b :: after →
        len_resnets b ≤ length buffer →
        ∃ kept popped,
          buffer = kept ++ popped
          ∧ length popped = len_resnets b
          ∧ up_pass (b :: after) sample buffer emb
            = (sample ← up_block_call b sample popped emb;
               up_pass after sample kept emb).
Proof.
  eexists _, _. split; [vm_compute; reflexivity|].
  eapply (@up_blocks_pop_skips_in_construction_order Trace.numerics Trace.backend
            Trace.plain_args). reflexivity.
Defined.

End UpOrderExamples.

(** ** The legacy SDE topology *)



Lemma sde_down_blocks_prefix a nf mult res n st st' :
  sde_down_blocks a nf mult res n st = Ret st' →
  sde_modules st `prefix_of` sde_modules st'.
Proof.
  revert st. induction n as [|n IH]; intros st E; simpl in E.
  - injection E as <-. done.
  - destruct st as [[[[modules in_ch] out_ch] hs_c] ipc].
    inv_ret E. apply IH in E. etrans; [|exact E]. unfold sde_modules; simpl.
    destruct (contains _ _); [etrans|]; apply prefix_app_r; done.
Qed.

Lemma sde_down_resample_prefix a nf cm st st' :
  sde_down_resample a nf cm st = Ret st' →
  sde_modules st `prefix_of` sde_modules st'.
Proof.
  unfold sde_down_resample.
  destruct st as [[[[modules in_ch] out_ch] hs_c] ipc]. intros E.
  apply bind_Ret in E as (out_ch_v & _ & E).
  apply bind_Ret in E as ([[modules' in_ch'] ipc'] & Hm & E).
  injection E as <-. unfold sde_modules; simpl.
  repeat case_decide.
  - apply bind_Ret in Hm as (dim1 & _ & Hm).
    apply bind_Ret in Hm as (c & _ & Hm). inv_ret Hm. subst.
    rewrite <- (assoc_L (++)). apply prefix_app_r. done.
  - apply bind_Ret in Hm as (dim1 & _ & Hm).
    apply bind_Ret in Hm as (c & _ & Hm). inv_ret Hm. subst.
    rewrite <- (assoc_L (++)). apply prefix_app_r. done.
  - inv_ret Hm. subst. rewrite <- (assoc_L (++)). apply prefix_app_r. done.
  - inv_ret Hm. subst. apply prefix_app_r. done.
Qed.

Lemma sde_down_levels_prefix a nf ch_mult all_res R cm levels st st' :
  sde_down_levels a nf ch_mult all_res R cm levels st = Ret st' →
  sde_modules st `prefix_of` sde_modules st'.
Proof.
  revert st. induction levels as [|i levels IH]; intros st E; cbn [sde_down_levels] in E.
  - injection E as <-. done.
  - apply bind_Ret in E as (mult & _ & E).
    apply bind_Ret in E as (res & _ & E).
    apply bind_Ret in E as (st1 & H1 & E).
    apply bind_Ret in E as (st2 & H2 & E).
    apply sde_down_blocks_prefix in H1. apply IH in E.
    etrans; [exact H1|]. etrans; [|exact E].
    case_bool_decide.
    + by apply sde_down_resample_prefix in H2.
    + injection H2 as <-. done.
Qed.

Lemma sde_up_blocks_prefix nf mult n st st' :
  sde_up_blocks nf mult n st = Ret st' →
  sde_modules st `prefix_of` sde_modules st'.
Proof.
  revert st. induction n as [|n IH]; intros st E; simpl in E.
  - injection E as <-. done.
  - destruct st as [[[[modules in_ch] out_ch] hs_c] ipc].
    apply bind_Ret in E as (popped & _ & E).
    apply IH in E. etrans; [|exact E]. unfold sde_modules; simpl.
    apply prefix_app_r; done.
Qed.

Lemma sde_up_progressive_prefix a channels progressive is_first modules in_ch pc r :
  sde_up_progressive a channels progressive is_first modules in_ch pc = Ret r →
  modules `prefix_of` r.1.
Proof.
  unfold sde_up_progressive. intros E.
  repeat case_decide; [| destruct is_first |]; inv_ret E; subst; simpl;
    rewrite <- ?(assoc_L (++)); apply prefix_app_r; done.
Qed.

Lemma sde_up_level_end_prefix a nf channels attn progressive f l st st' :
  sde_up_level_end a nf channels attn progressive f l st = Ret st' →
  sde_modules st `prefix_of` sde_modules st'.
Proof.
  unfold sde_up_level_end.
  destruct st as [[[[modules in_ch] out_ch] hs_c] pc]. intros E.
  apply bind_Ret in E as ([modules1 pc1] & H1 & E).
  apply bind_Ret in E as (modules2 & H2 & E).
  injection E as <-. unfold sde_modules; simpl.
  assert (modules `prefix_of` modules1) as P1.
  { etrans; [|instantiate (1 := if attn then modules ++ [sde_attn modules in_ch] else modules)].
    - destruct attn; [apply prefix_app_r|]; done.
    - case_decide.
      + by apply sde_up_progressive_prefix in H1.
      + inv_ret H1. subst. done. }
  etrans; [exact P1|].
  destruct l.
  - injection H2 as <-. done.
  - inv_ret H2. subst. apply prefix_app_r. done.
Qed.

Lemma sde_up_levels_prefix a nf channels ch_mult all_res R progressive levels st st' :
  sde_up_levels a nf channels ch_mult all_res R progressive levels st = Ret st' →
  sde_modules st `prefix_of` sde_modules st'.
Proof.
  revert st. induction levels as [|i levels IH]; intros st E; cbn [sde_up_levels] in E.
  - injection E as <-. done.
  - apply bind_Ret in E as (mult & _ & E).
    apply bind_Ret in E as (st1 & H1 & E).
    apply bind_Ret in E as (res & _ & E).
    apply bind_Ret in E as (ar & _ & E).
    apply bind_Ret in E as (st2 & H2 & E).
    apply sde_up_blocks_prefix in H1. apply sde_up_level_end_prefix in H2.
    apply IH in E. etrans; [exact H1|]. etrans; [exact H2|]. done.
Qed.

Lemma same_graph_refl self : same_graph self self.
Proof. by repeat split. Qed.

Lemma init_for_sde_Ret self a m :
  init_for_sde self a "fourier" = Ret m →
  same_graph self m ∧ is_Some (mid m)
  ∧ is_overwritten m = is_overwritten self
  ∧ time_steps m = time_steps self ∧ time_embedding m = time_embedding self
  ∧ conv_in m = conv_in self
  ∧ ∃ g l1 l2 c rest,
      attrs m !! "all_modules"
      = Some (AModuleList (LGaussianFourierProjection g :: LLinear l1 :: LLinear l2
                             :: LConv2d c :: rest)).
Proof.
  unfold init_for_sde. intros E.
  apply bind_Ret in E as (ch_mult & _ & E).
  apply bind_Ret in E as (all_res & _ & E).
  apply bind_Ret in E as (? & _ & E).
  apply bind_Ret in E as (? & _ & E).
  apply bind_Ret in E as (? & _ & E).
  apply bind_Ret in E as (progressive & _ & E).
  apply bind_Ret in E as (pc & _ & E).
  apply bind_Ret in E as ([modules0 embed_dim] & Hm0 & E).
  apply bind_Ret in E as (nf & _ & E).
  apply bind_Ret in E as (conv & _ & E).
  apply bind_Ret in E as (R & _ & E).
  apply bind_Ret in E as (st1 & Hdown & E).
  destruct st1 as [[[[modules1 in_ch1] out_ch1] hs_c1] ipc1].
  apply bind_Ret in E as (in_ch2 & _ & E).
  apply bind_Ret in E as (out_ch_v & _ & E).
  apply bind_Ret in E as (st2 & Hup & E).
  destruct st2 as [[[[modules2 in_ch3] out_ch3] hs_c3] ipc3].
  apply bind_Ret in E as (? & _ & E).
  injection E as <-.
  rewrite decide_True in Hm0 by done.
  apply bind_Ret in Hm0 as (g0 & _ & Hm0).
  apply bind_Ret in Hm0 as (nf' & _ & Hm0). injection Hm0 as <- <-.
  apply sde_down_levels_prefix in Hdown. apply sde_up_levels_prefix in Hup.
  unfold sde_modules in Hdown, Hup. simpl in Hdown, Hup.
  split; [|split; [|split; [|split; [|split; [|split]]]]].
  1-6: repeat case_decide; simpl; try done; by eexists.
  match goal with |- context [setattr "all_modules" (AModuleList ?F)] =>
    assert (modules2 `prefix_of` F) as HF
  end.
  { case_decide; [|done]. rewrite <- (assoc_L (++)). apply prefix_app_r. done. }
  assert (modules1 `prefix_of` modules2) as H12.
  { etrans; [|exact Hup]. rewrite <- !(assoc_L (++)). apply prefix_app_r. done. }
  destruct (transitivity Hdown (transitivity H12 HF)) as [rest Hrest].
  do 4 eexists. exists rest. unfold setattr at 1. simpl. rewrite lookup_insert_eq.
  rewrite Hrest. reflexivity.
Qed.

Section FirstCall.
Context `{Backend} `{LegacyMigration}.

Lemma __init___Ret a m :
  __init__ a = Ret m → Args.ldm a = false → Args.ddpm a = false →
  ∃ self locals,
    init_block_graph a = Ret (self, locals)
    ∧ if Args.sde a then init_for_sde self a "fourier" = Ret m else m = self.
Proof.
  unfold __init__, init_legacy. intros E Hldm Hddpm.
  apply bind_Ret in E as ([self locals] & Hg & E).
  rewrite Hldm, Hddpm in E. exists self, locals. split; [done|].
  destruct (Args.sde a) eqn:Hsde; [|by injection E].
  apply init_block_graph_Ret in Hg as (_ & _ & _ & Hov & _).
  unfold sde_overrides in Hov. rewrite Hsde in Hov. inv_ret Hov. subst. done.
Qed.

(** The guard of [forward]: [set_weights] runs iff [is_overwritten] is not
    set. *)
Lemma forward_unfold (sample : Tensor) timestep (self : t) :
  forward sample timestep self
  = if is_overwritten self then (forward_body self sample timestep, self)
    else match set_weights self with
         | (Ret _, self') => (forward_body self' sample timestep, self')
         | (Raise e, self') => (Raise e, self')
         | (Breakpoint, self') => (Breakpoint, self')
         end.
Proof.
  unfold forward, mbind, St_bind, st_bind, st_read.
  destruct (is_overwritten self); simpl; [done|].
  destruct (set_weights self) as [[[]| |] self']; done.
Qed.

Lemma set_weights_sde_stops (self : t) g l1 l2 c rest :
  Config.ldm (config self) = false → Config.ddpm (config self) = false →
  Config.sde (config self) = true →
  attrs self !! "all_modules"
  = Some (AModuleList (LGaussianFourierProjection g :: LLinear l1 :: LLinear l2
                         :: LConv2d c :: rest)) →
  ∃ self', set_weights self = (Breakpoint, self')
           ∧ same_graph self self' ∧ is_overwritten self' = true
           ∧ mid self' = mid self ∧ attrs self' = attrs self.
Proof.
  intros Hldm Hddpm Hsde Hall.
  unfold set_weights, mbind, St_bind, st_bind, st_write, st_read, ipdb_set_trace.
  simpl. rewrite Hldm, Hddpm, Hsde.
  unfold all_modules_item. simpl. rewrite Hall. simpl.
  eexists. split; [reflexivity|]. simpl. by repeat split.
Qed.

End FirstCall.

(** ** C10: the first call *)

Section FirstCallExamples.
Import Trace.

(** C10, as stated, fails when [config.ldm] is set too: [set_weights]
    tests [config.ldm] and [config.ddpm] before [config.sde], takes the
    [ldm] branch, and the first [forward] call does not stop at the
    breakpoint of the [sde] branch. *)
Lemma first_forward_with_ldm_and_sde_meets_no_breakpoint :
  ∃ m, __init__ ldm_sde_args = Ret m
       ∧ Config.sde (config m) = true
       ∧ is_overwritten m = false
       ∧ (forward (image 1 3 32 32) (TScalar (PyInt 0)) m).1 ≠ Breakpoint.
Proof.
  eexists. split; [vm_compute; reflexivity|].
  split; [reflexivity|]. split; [reflexivity|].
  vm_compute. intros E. discriminate E.
Qed.

End FirstCallExamples.

(** C10, amended: the first [forward] call on an instance finds
    [is_overwritten] unset and runs [set_weights] before anything else;
    when [sde] is set and neither [ldm] nor [ddpm] is (the defaults),
    [set_weights] sets [is_overwritten], takes the [sde] branch and stops at
    its breakpoint, and so does the call. A later call on the instance finds
    the flag set and goes straight to the computation. *)
Theorem first_forward_stops_at_breakpoint `{Backend} `{LegacyMigration} (a : Args.t)
    (m : t) (sample : Tensor) (timestep : TimestepArg) :
  __init__ a = Ret m →
  Args.sde a = true → Args.ldm a = false → Args.ddpm a = false →
  is_overwritten m = false
  ∧ ∃ m', set_weights m = (Breakpoint, m')
          ∧ forward sample timestep m = (Breakpoint, m')
          ∧ is_overwritten m' = true
          ∧ forward sample timestep m' = (forward_body m' sample timestep, m').
Proof.
  intros E Hsde Hldm Hddpm.
  destruct (__init___Ret a m E Hldm Hddpm) as (self & locals & Hg & Hm).
  rewrite Hsde in Hm.
  apply init_block_graph_Ret in Hg
    as (_ & _ & _ & Hov & _ & _ & _ & _ & _ & _ & _ & _ & How & _).
  apply sde_overrides_config in Hov as (Hc1 & Hc2 & Hc3).
  apply init_for_sde_Ret in Hm
    as (Hsame & _ & How' & _ & _ & _ & (g & l1 & l2 & c & rest & Hall)).
  destruct Hsame as (Hcfg & _).
  assert (is_overwritten m = false) as Hfalse by congruence.
  split; [done|].
  destruct (set_weights_sde_stops m g l1 l2 c rest) as (m' & Hsw & _ & Htrue & _);
    try (rewrite Hcfg; congruence); [done|].
  exists m'. split; [done|]. split; [|split; [done|]].
  - rewrite forward_unfold, Hfalse, Hsw. done.
  - rewrite forward_unfold, Htrue. done.
Qed.

Section FirstCallWitness.
Import Trace.

Lemma first_forward_stops_at_breakpoint_witness :
  ∃ m, __init__ sde_args = Ret m
    ∧ is_overwritten m = false
    ∧ ∃ m', set_weights m = (Breakpoint, m')
        ∧ forward (image 1 3 32 32) (TScalar (PyInt 0)) m = (Breakpoint, m')
        ∧ is_overwritten m' = true
        ∧ forward (image 1 3 32 32) (TScalar (PyInt 0)) m'
          = (forward_body m' (image 1 3 32 32) (TScalar (PyInt 0)), m').
Proof.
  eexists. split; [vm_compute; reflexivity|].
  eapply (@first_forward_stops_at_breakpoint numerics backend legacy sde_args);
    reflexivity.
Defined.

End FirstCallWitness.

(** ** C6: what a call changes *)

Section MutationExamples.
Import Trace.

(** C6, as stated, fails: the first [forward] call on an instance changes
    a field that is not a weight, [is_overwritten], from [False] to [True]. *)
Lemma first_forward_sets_is_overwritten :
  ∃ m, __init__ plain_args = Ret m
       ∧ is_overwritten m = false
       ∧ is_overwritten (forward (image 1 3 32 32) (TScalar (PyInt 0)) m).2 = true
       ∧ (forward (image 1 3 32 32) (TScalar (PyInt 0)) m).2 ≠ m.
Proof.
  eexists. split; [vm_compute; reflexivity|].
  split; [reflexivity|]. split; [vm_compute; reflexivity|].
  intros E. apply (f_equal is_overwritten) in E. vm_compute in E. discriminate E.
Qed.

End MutationExamples.

(** C6, amended: a [forward] call on an instance whose [is_overwritten]
    flag is set changes nothing of the instance: submodules, configuration
    and every other field are the same after the call. A call that finds the
    flag unset changes the instance through [set_weights] alone, which sets
    the flag and runs the legacy weight migration; when no legacy flag is
    set, the flag is the only field that changes. *)
Theorem forward_mutates_only_through_set_weights `{Backend} `{LegacyMigration}
    (self : t) (sample : Tensor) (timestep : TimestepArg) :
  (forward sample timestep self).2
  = (if is_overwritten self then self else (set_weights self).2)
  ∧ (is_overwritten self = true → (forward sample timestep self).2 = self)
  ∧ (Config.ldm (config self) = false → Config.ddpm (config self) = false →
     Config.sde (config self) = false →
     (set_weights self).2 = set_is_overwritten true self).
Proof.
  assert ((forward sample timestep self).2
          = if is_overwritten self then self else (set_weights self).2) as Hfw.
  { rewrite forward_unfold. destruct (is_overwritten self); [done|].
    destruct (set_weights self) as [[[]| |] self']; done. }
  split; [done|]. split.
  - intros Hset. by rewrite Hfw, Hset.
  - intros Hldm Hddpm Hsde.
    unfold set_weights, mbind, St_bind, st_bind, st_write, st_read. simpl.
    by rewrite Hldm, Hddpm, Hsde.
Qed.

(** ** C9: what the [sde] flag rebinds *)

Lemma build_down_blocks_channels a bc ted i oc tags dbs :
  build_down_blocks a bc ted i oc tags = Ret dbs →
  ∀ j b, dbs !! j = Some b → bc !! (i + j) = Some (DownBlock.out_channels b).
Proof.
  revert i oc dbs. induction tags as [|tag tags IH]; intros i oc dbs E; simpl in E.
  - injection E as <-. intros j b Hj. by rewrite lookup_nil in Hj.
  - inv_ret E. subst dbs.
    match goal with H : build_down_blocks _ _ _ _ _ _ = Ret _ |- _ =>
      pose proof (IH _ _ _ H) as Hrest end.
    intros [|j] b Hj; simpl in Hj.
    + injection Hj as <-.
      match goal with H : get_down_block _ _ _ _ _ _ _ _ _ _ _ = Ret _ |- _ =>
        unfold get_down_block in H;
        destruct (down_kind_of_tag tag) as [k|] eqn:Hk; [|discriminate H];
        inv_ret H; subst end.
      simpl. rewrite Nat.add_0_r. by apply getitem_Ret.
    + replace (i + S j) with (S i + j) by lia. by apply Hrest.
Qed.

Lemma scale_list_Ret k l r :
  scale_list k l = Ret r → r ≠ [] →
  ∃ n ms, k = Some n ∧ l = Some ms ∧ r = map (λ x, n * x) ms.
Proof.
  unfold scale_list. destruct l as [[|m ms]|]; intros E Hr; inv_ret E; subst; try done.
  destruct k as [n|]; [|discriminate E]. inv_ret E. subst. eauto.
Qed.

(** C9: with [sde] set, [__init__] builds the block graph from rebound
    values, whatever the caller passed for them: the channel widths are
    [nf] times the entries of [ch_mult], the input and output channel
    counts are both [num_channels], [conv_resample] is [resamp_with_conv],
    the embedding kind is "fourier" with the embedding activation cleared,
    and the down blocks are the four fixed skip variants. *)
Theorem sde_flag_overrides_options (a : Args.t) (self : t) (locals : Locals) :
  init_block_graph a = Ret (self, locals) →
  Args.sde a = true →
  ∃ nf ch_mult num_channels,
    Args.nf a = Some nf ∧ Args.ch_mult a = Some ch_mult
    ∧ Args.num_channels a = Some num_channels
    ∧ locals = mkLocals (map (λ x, nf * x) ch_mult) (Some num_channels)
                 (Some num_channels) (Args.resamp_with_conv a) "fourier"
                 ["UNetResSkipDownBlock2D"; "UNetResAttnSkipDownBlock2D";
                  "UNetResSkipDownBlock2D"; "UNetResSkipDownBlock2D"]
    ∧ config self = Config.set_time_embedding_act_fn None
                      (Config.set_time_embedding_type "fourier" (register_to_config a))
    ∧ conv_in_channels (conv_in self) = num_channels
    ∧ Some (conv_out_channels (conv_in self)) = map (λ x, nf * x) ch_mult !! 0
    ∧ conv_out_channels (conv_out self) = num_channels
    ∧ time_steps self
      = TSFourier (mkGaussianFourierProjection (Some nf) (Args.fourier_scale a)
                     "time_steps.weight")
    ∧ TimestepEmbedding.act (time_embedding self) = None
    ∧ DownBlock.kind <$> downsample_blocks self
      = [ResSkipDown; ResAttnSkipDown; ResSkipDown; ResSkipDown]
    ∧ ∀ j b, downsample_blocks self !! j = Some b →
        map (λ x, nf * x) ch_mult !! j = Some (DownBlock.out_channels b).
Proof.
  intros E Hsde.
  apply init_block_graph_Ret in E
    as (c0 & dim & r0 & Hov & Hc0 & Hcin & Htime & Hemb & Hdbs & _ & _ & Hcout & _).
  unfold sde_overrides in Hov. rewrite Hsde in Hov.
  apply bind_Ret in Hov as (bc & Hbc & Hov). inv_ret Hov.
  match goal with H : _ = config self |- _ => symmetry in H; rename H into Hcfg end.
  subst locals.
  cbn [l_block_channels l_in_channels l_out_channels l_down_blocks] in *.
  destruct (scale_list_Ret _ _ _ Hbc) as (nf & ch_mult & Hnf & Hcm & ->).
  { intros ->. by rewrite lookup_nil in Hc0. }
  unfold nn_Conv2d in Hcin, Hcout.
  destruct (Args.num_channels a) as [num|] eqn:Hnum; [|discriminate Hcin].
  simpl in Hcin, Hcout. injection Hcin as Hcin. injection Hcout as Hcout.
  unfold build_time_steps in Htime. rewrite Hcfg in Htime. simpl in Htime.
  rewrite Hnf in Htime. simpl in Htime.
  unfold getitem in Htime. rewrite Hc0 in Htime. simpl in Htime.
  injection Htime as Hts Hdim.
  exists nf, ch_mult, num.
  repeat split; try done.
  - by rewrite <- Hcin.
  - by rewrite <- Hcin, Hc0.
  - by rewrite <- Hcout.
  - rewrite Hemb, Hcfg. reflexivity.
  - pose proof (build_down_blocks_spec _ _ _ _ _ _ _ Hdbs) as [Hlen Hspec].
    simpl in Hlen.
    destruct (downsample_blocks self) as [|b0 [|b1 [|b2 [|b3 [|b4 l]]]]];
      try discriminate Hlen.
    destruct (Hspec 0 b0 eq_refl) as (_ & _ & H0 & _).
    destruct (Hspec 1 b1 eq_refl) as (_ & _ & H1 & _).
    destruct (Hspec 2 b2 eq_refl) as (_ & _ & H2 & _).
    destruct (Hspec 3 b3 eq_refl) as (_ & _ & H3 & _).
    vm_compute in H0, H1, H2, H3. destruct b0, b1, b2, b3. simpl. congruence.
  - intros j b Hj. by apply (build_down_blocks_channels _ _ _ _ _ _ _ Hdbs j b).
Qed.

Section OverridesWitness.
Import Trace.

Lemma sde_flag_overrides_options_witness :
  ∃ self locals,
    init_block_graph sde_args = Ret (self, locals)
    ∧ ∃ nf ch_mult num_channels,
    Args.nf sde_args = Some nf ∧ Args.ch_mult sde_args = Some ch_mult
    ∧ Args.num_channels sde_args = Some num_channels
    ∧ locals = mkLocals (map (λ x, nf * x) ch_mult) (Some num_channels)
                 (Some num_channels) (Args.resamp_with_conv sde_args) "fourier"
                 ["UNetResSkipDownBlock2D"; "UNetResAttnSkipDownBlock2D";
                  "UNetResSkipDownBlock2D"; "UNetResSkipDownBlock2D"]
    ∧ config self = Config.set_time_embedding_act_fn None
                      (Config.set_time_embedding_type "fourier"
                         (register_to_config sde_args))
    ∧ conv_in_channels (conv_in self) = num_channels
    ∧ Some (conv_out_channels (conv_in self)) = map (λ x, nf * x) ch_mult !! 0
    ∧ conv_out_channels (conv_out self) = num_channels
    ∧ time_steps self
      = TSFourier (mkGaussianFourierProjection (Some nf) (Args.fourier_scale sde_args)
                     "time_steps.weight")
    ∧ TimestepEmbedding.act (time_embedding self) = None
    ∧ DownBlock.kind <$> downsample_blocks self
      = [ResSkipDown; ResAttnSkipDown; ResSkipDown; ResSkipDown]
    ∧ ∀ j b, downsample_blocks self !! j = Some b →
        map (λ x, nf * x) ch_mult !! j = Some (DownBlock.out_channels b).
Proof.
  eexists _, _. split; [vm_compute; reflexivity|].
  eapply (sde_flag_overrides_options sde_args); reflexivity.
Defined.

End OverridesWitness.

(** ** C5: the embedding kind *)

Section KindIgnored.
Variable kind : string.
Variable a : Args.t.
Let a' := Args.set_time_embedding_type kind a.

Lemma build_down_blocks_kind bc ted i oc tags :
  build_down_blocks a' bc ted i oc tags = build_down_blocks a bc ted i oc tags.
Proof.
  revert i oc. induction tags as [|tag tags IH]; intros i oc; simpl; [done|].
  apply bind_ext; intros c. apply bind_ext; intros b. by rewrite IH.
Qed.

Lemma build_up_blocks_kind bc ted i oc tags :
  build_up_blocks a' bc ted i oc tags = build_up_blocks a bc ted i oc tags.
Proof.
  revert i oc. induction tags as [|tag tags IH]; intros i oc; simpl; [done|].
  do 4 (apply bind_ext; intros ?). by rewrite IH.
Qed.

Lemma sde_down_blocks_kind nf mult res n st :
  sde_down_blocks a' nf mult res n st = sde_down_blocks a nf mult res n st.
Proof.
  revert st. induction n as [|n IH]; intros st; simpl; [done|].
  destruct st as [[[[modules in_ch] out_ch] hs_c] ipc].
  apply bind_ext; intros ar. by rewrite IH.
Qed.

Lemma sde_down_levels_kind nf ch_mult all_res R cm levels st :
  sde_down_levels a' nf ch_mult all_res R cm levels st
  = sde_down_levels a nf ch_mult all_res R cm levels st.
Proof.
  revert st. induction levels as [|i levels IH]; intros st; cbn [sde_down_levels]; [done|].
  do 2 (apply bind_ext; intros ?). rewrite sde_down_blocks_kind.
  apply bind_ext; intros st1. 
  replace (sde_down_resample a' nf cm st1) with (sde_down_resample a nf cm st1)
    by reflexivity.
  apply bind_ext; intros st2. apply IH.
Qed.

Lemma sde_up_levels_kind nf channels ch_mult all_res R progressive levels st :
  sde_up_levels a' nf channels ch_mult all_res R progressive levels st
  = sde_up_levels a nf channels ch_mult all_res R progressive levels st.
Proof.
  revert st. induction levels as [|i levels IH]; intros st; cbn [sde_up_levels]; [done|].
  do 4 (apply bind_ext; intros ?).
  match goal with |- sde_up_level_end a' ?n ?c ?at' ?p ?f ?l ?s ≫= _ = _ =>
    replace (sde_up_level_end a' n c at' p f l s)
      with (sde_up_level_end a n c at' p f l s) by reflexivity end.
  apply bind_ext; intros st2. apply IH.
Qed.

Lemma init_for_sde_kind self ty : init_for_sde self a' ty = init_for_sde self a ty.
Proof.
  unfold init_for_sde.
  do 7 (apply bind_ext; intros ?).
  apply bind_ext; intros [modules0 embed_dim].
  do 3 (apply bind_ext; intros ?).
  rewrite sde_down_levels_kind.
  apply bind_ext; intros [[[[modules1 in_ch1] out_ch1] hs_c1] ipc1].
  do 2 (apply bind_ext; intros ?).
  rewrite sde_up_levels_kind.
  apply bind_ext; intros [[[[modules2 in_ch2] out_ch2] hs_c2] ipc2].
  reflexivity.
Qed.

(** The entries of [self.config] play no part in [init_for_sde]. *)
Lemma init_for_sde_config_items (items : Config.t) self ty :
  init_for_sde (set_config_items items self) a ty
  = (m ← init_for_sde self a ty; mret (set_config_items items m)).
Proof.
  unfold init_for_sde.
  do 7 (apply bind_ext_assoc; intros ?).
  apply bind_ext_assoc; intros [modules0 embed_dim].
  do 3 (apply bind_ext_assoc; intros ?).
  apply bind_ext_assoc; intros [[[[modules1 in_ch1] out_ch1] hs_c1] ipc1].
  do 2 (apply bind_ext_assoc; intros ?).
  apply bind_ext_assoc; intros [[[[modules2 in_ch2] out_ch2] hs_c2] ipc2].
  apply bind_ext_assoc; intros ?.
  repeat case_decide; reflexivity.
Qed.

(** With [sde] set, the kind passed to [__init__] reaches the entries of
    [self.config] and nothing else. *)
Lemma init_block_graph_kind :
  Args.sde a = true →
  init_block_graph a'
  = ('(self, locals) ← init_block_graph a;
     mret (set_config_items (register_to_config a') self, locals)).
Proof.
  intros Hsde. unfold init_block_graph.
  assert (sde_overrides a' (register_to_config a') = sde_overrides a (register_to_config a))
    as ->.
  { unfold sde_overrides. change (Args.sde a') with (Args.sde a). by rewrite Hsde. }
  apply bind_ext_assoc; intros [locals config].
  do 3 (apply bind_ext_assoc; intros ?).
  apply bind_ext_assoc; intros [ts dim].
  rewrite build_down_blocks_kind. do 3 (apply bind_ext_assoc; intros ?).
  rewrite build_up_blocks_kind. do 2 (apply bind_ext_assoc; intros ?).
  reflexivity.
Qed.

Context `{LegacyMigration}.

Lemma __init___kind :
  Args.sde a = true → Args.ldm a = false → Args.ddpm a = false →
  __init__ a' = (m ← __init__ a; mret (set_config_items (register_to_config a') m)).
Proof.
  intros Hsde Hldm Hddpm. unfold __init__. rewrite init_block_graph_kind by done.
  rewrite bind_assoc. apply bind_ext_assoc; intros [self locals].
  cbn [mret outcome_ret mbind outcome_bind]. unfold init_legacy.
  change (Args.ldm a') with (Args.ldm a). change (Args.ddpm a') with (Args.ddpm a).
  change (Args.sde a') with (Args.sde a). rewrite Hldm, Hddpm, Hsde.
  rewrite init_for_sde_kind. apply init_for_sde_config_items.
Qed.

End KindIgnored.

Lemma init_block_graph_unrecognized_kind (a : Args.t) :
  Args.sde a = false →
  Args.time_embedding_type a ≠ "positional" → Args.time_embedding_type a ≠ "fourier" →
  ∃ e, init_block_graph a = Raise e
       ∧ (Args.block_channels a ≠ [] → Args.in_channels a ≠ None →
          e = UnboundLocalError "timestep_input_dim").
Proof.
  intros Hsde Hpos Hfou. unfold init_block_graph, sde_overrides. rewrite Hsde. simpl.
  unfold getitem at 1.
  destruct (Args.block_channels a) as [|c0 bc] eqn:Hbc; simpl.
  { eexists. split; [reflexivity|]. done. }
  unfold nn_Conv2d at 1.
  destruct (Args.in_channels a) as [cin|] eqn:Hin; simpl.
  2: { eexists. split; [reflexivity|]. done. }
  unfold build_time_steps. simpl.
  rewrite !decide_False by done. simpl.
  eexists. split; [reflexivity|]. done.
Qed.

Lemma init_block_graph_sde_kind (a : Args.t) (self : t) (locals : Locals) :
  init_block_graph a = Ret (self, locals) → Args.sde a = true →
  Config.time_embedding_type (config self) = "fourier"
  ∧ l_time_embedding_type locals = "fourier"
  ∧ ∃ g, time_steps self = TSFourier g.
Proof.
  intros E Hsde.
  apply init_block_graph_Ret in E as (c0 & dim & r0 & Hov & Hc0 & _ & Htime & _).
  unfold sde_overrides in Hov. rewrite Hsde in Hov.
  apply bind_Ret in Hov as (bc & Hbc & Hov). inv_ret Hov.
  match goal with H : _ = config self |- _ => symmetry in H; rename H into Hcfg end.
  subst locals. cbn [l_block_channels l_time_embedding_type] in *.
  unfold build_time_steps in Htime. rewrite Hcfg in Htime. simpl in Htime.
  apply bind_Ret in Htime as (g & _ & Htime).
  unfold getitem in Htime. rewrite Hc0 in Htime. simpl in Htime.
  injection Htime as Hts Hdim.
  rewrite Hcfg. repeat split. eauto.
Qed.

Section KindExamples.
Import Trace.

(** C5, as stated, fails: with [sde] left at its default, constructing the
    model with the embedding kind "bogus" succeeds; the kind was replaced by
    "fourier" before it was looked at. *)
Lemma bogus_embedding_kind_is_accepted_under_sde :
  Args.time_embedding_type bogus_kind_args = "bogus"
  ∧ ¬ raises (__init__ bogus_kind_args)
  ∧ ∃ m, __init__ bogus_kind_args = Ret m
         ∧ Config.time_embedding_type (config m) = "fourier".
Proof.
  split; [reflexivity|]. split.
  - intros [e E]. vm_compute in E. discriminate E.
  - eexists. split; [vm_compute; reflexivity|]. reflexivity.
Qed.

End KindExamples.

(** C5, amended: with the [sde] flag set (its default) and no other legacy
    flag, the embedding kind passed to the constructor is replaced by
    "fourier" before it is used. Constructing with any kind string,
    recognized or not, fails or succeeds as constructing with "fourier"
    does and builds the same instance, except for the entry
    [time_embedding_type] of [self.config], which keeps the string that was
    passed; the attribute [self.config.time_embedding_type] reads "fourier"
    and the embedding generator is the Fourier one. *)
Theorem embedding_kind_is_overridden_under_sde `{LegacyMigration} (a : Args.t)
    (kind : string) :
  Args.sde a = true → Args.ldm a = false → Args.ddpm a = false →
  let a_kind := Args.set_time_embedding_type kind a in
  let a_fourier := Args.set_time_embedding_type "fourier" a in
  __init__ a_kind
  = (m ← __init__ a_fourier; mret (set_config_items (register_to_config a_kind) m))
  ∧ ∀ m, __init__ a_kind = Ret m →
      Config.time_embedding_type (config_items m) = kind
      ∧ Config.time_embedding_type (config m) = "fourier"
      ∧ ∃ g, time_steps m = TSFourier g.
Proof.
  intros Hsde Hldm Hddpm a_kind a_fourier.
  assert (__init__ a_kind
          = (m ← __init__ a_fourier;
             mret (set_config_items (register_to_config a_kind) m))) as Heq.
  { unfold a_kind, a_fourier. rewrite !__init___kind by done.
    rewrite bind_assoc. by apply bind_ext. }
  split; [done|]. intros m E. rewrite Heq in E.
  apply bind_Ret in E as (mf & Hmf & E). injection E as <-.
  split; [done|]. cbn [config time_steps set_config_items].
  destruct (__init___Ret a_fourier mf Hmf Hldm Hddpm) as (self & locals & Hg & Hm).
  change (Args.sde a_fourier) with (Args.sde a) in Hm. rewrite Hsde in Hm.
  destruct (init_block_graph_sde_kind _ _ _ Hg Hsde) as (Hcfg & _ & g & Hts).
  apply init_for_sde_Ret in Hm as (Hsame & _ & _ & Hts' & _).
  destruct Hsame as (Hc & _). rewrite Hc, Hts'. eauto.
Qed.

Section KindWitness.
Import Trace.

Lemma embedding_kind_is_overridden_under_sde_witness :
  let a_kind := Args.set_time_embedding_type "bogus" sde_args in
  let a_fourier := Args.set_time_embedding_type "fourier" sde_args in
  __init__ a_kind
  = (m ← __init__ a_fourier; mret (set_config_items (register_to_config a_kind) m))
  ∧ ∀ m, __init__ a_kind = Ret m →
      Config.time_embedding_type (config_items m) = "bogus"
      ∧ Config.time_embedding_type (config m) = "fourier"
      ∧ ∃ g, time_steps m = TSFourier g.
Proof.
  apply (@embedding_kind_is_overridden_under_sde legacy sde_args "bogus"); reflexivity.
Defined.

End KindWitness.

(** ** C1: what [forward] returns *)

(** The logging backend obeys the shape laws. *)
#[export] Instance Trace_shape_laws : @ShapeLaws Trace.numerics Trace.backend.
Proof.
  split.
  - intros c x n h w Hk Hp Hx. cbn. unfold Trace.conv_shape.
    rewrite Hx, Hk, Hp. f_equal. f_equal. f_equal; [lia|f_equal; lia].
  - intros l x k Hx. cbn. by rewrite Hx.
  - done.
  - done.
  - intros x y n c1 c2 h w Hx Hy. cbn. rewrite Hx, Hy. cbn. do 2 f_equal. lia.
  - intros ts dim flip shift k Hts. cbn. by rewrite Hts.
  - intros g ts k e He Hts. cbn. by rewrite Hts, He.
  - intros r x temb n h w _ Hx _. cbn. by rewrite Hx.
  - done.
  - intros b i x temb n h w _ Hx _. cbn. by rewrite Hx.
  - intros b x n h w _ Hx. cbn. rewrite Hx. cbn [Trace.halve].
    by rewrite !(Nat.mul_comm 2), !Nat.div_mul by lia.
  - intros b i x temb n h w _ Hx _. cbn. by rewrite Hx.
  - intros b x n h w _ Hx. cbn. by rewrite Hx.
Qed.

Lemma slice_from_neg_app {A} n (l k : list A) :
  0 < n → length k = n → slice_from_neg n (l ++ k) = k.
Proof.
  intros Hn Hk. unfold slice_from_neg. destruct (decide (n = 0)); [lia|].
  rewrite length_app, drop_app_length'; [done|lia].
Qed.

Lemma slice_to_neg_app {A} n (l k : list A) :
  0 < n → length k = n → slice_to_neg n (l ++ k) = l.
Proof.
  intros Hn Hk. unfold slice_to_neg. destruct (decide (n = 0)); [lia|].
  rewrite length_app, take_app_length'; [done|lia].
Qed.

Lemma Forall_of_fmap_replicate {A B} (g : A → B) (l : list A) (n : nat) (y : B) :
  g <$> l = replicate n y → Forall (λ x, g x = y) l.
Proof.
  revert n. induction l as [|x l IH]; intros [|n] E; simpl in E; try done.
  injection E as Hx Hl. constructor; eauto.
Qed.

Lemma slice_to_neg_snoc {A} (l : list A) (x : A) : slice_to_neg 1 (l ++ [x]) = l.
Proof. apply slice_to_neg_app; [lia|done]. Qed.

Lemma level_shape_S n h w c k :
  level_shape n h w c (S k) = [n; c; 2 * (2 ^ k * h); 2 * (2 ^ k * w)].
Proof. unfold level_shape. by rewrite Nat.pow_succ_r', !Nat.mul_assoc. Qed.

Lemma width_at_lookup bc j c : bc !! j = Some c → width_at bc j = c.
Proof. unfold width_at. by intros ->. Qed.

(** The widths of the down blocks [__init__] builds from plain and
    attention type tags. *)
Lemma build_down_blocks_at a bc ted i oc tags dbs R :
  build_down_blocks a bc ted i oc tags = Ret dbs →
  Args.num_res_blocks a = Some R →
  Forall (λ tag, tag = "UNetResDownBlock2D" ∨ tag = "UNetResAttnDownBlock2D") tags →
  oc = width_at bc (i - 1) →
  ∀ t b, dbs !! t = Some b → down_block_at R ted bc (i + t) b.
Proof.
  revert i oc dbs.
  induction tags as [|tag tags IH]; intros i oc dbs E HR Htags Hoc; simpl in E.
  - injection E as <-. intros t b Ht. by rewrite lookup_nil in Ht.
  - apply bind_Ret in E as (oc' & Hoc' & E).
    apply bind_Ret in E as (b0 & Hb0 & E).
    apply bind_Ret in E as (rest & Hrest & E). injection E as <-.
    apply Forall_cons in Htags as [Htag Htags].
    apply getitem_Ret in Hoc'.
    unfold get_down_block in Hb0.
    destruct (down_kind_of_tag tag) as [kind|] eqn:Hk; [|discriminate Hb0].
    rewrite HR in Hb0. simpl in Hb0. injection Hb0 as <-.
    intros [|t] b Ht; simpl in Ht.
    + injection Ht as <-. rewrite Nat.add_0_r. unfold down_block_at. simpl.
      split; [done|]. split; [done|]. split; [done|].
      split; [by rewrite (width_at_lookup _ _ _ Hoc')|].
      split; [by repeat case_bool_decide|].
      destruct Htag as [-> | ->]; vm_compute in Hk; injection Hk as <-; done.
    + replace (i + S t) with (S i + t) by lia.
      apply (IH (S i) oc' rest Hrest HR Htags); [|done].
      simpl. by rewrite Nat.sub_0_r, (width_at_lookup _ _ _ Hoc').
Qed.

(** The widths of the up blocks [__init__] builds. *)
Lemma build_up_blocks_at a bc ted i oc tags ubs R :
  build_up_blocks a bc ted i oc tags = Ret ubs →
  Args.num_res_blocks a = Some R →
  oc = width_at bc (Nat.min (length bc - i) (length bc - 1)) →
  ∀ t u, ubs !! t = Some u → up_block_at R ted bc (i + t) u.
Proof.
  revert i oc ubs.
  induction tags as [|tag tags IH]; intros i oc ubs E HR Hoc; simpl in E.
  - injection E as <-. intros t u Ht. by rewrite lookup_nil in Ht.
  - apply bind_Ret in E as (oc' & Hoc' & E).
    apply bind_Ret in E as (ic & Hic & E).
    apply bind_Ret in E as (nrb & Hnrb & E).
    apply bind_Ret in E as (u0 & Hu0 & E).
    apply bind_Ret in E as (rest & Hrest & E). injection E as <-.
    apply getitem_Ret in Hoc', Hic. apply require_some_Ret in Hnrb.
    rewrite HR in Hnrb. injection Hnrb as <-.
    unfold get_up_block in Hu0.
    destruct (up_kind_of_tag tag) as [kind|]; [|discriminate Hu0].
    injection Hu0 as <-.
    pose proof (lookup_lt_Some _ _ _ Hoc') as Hi. rewrite length_reverse in Hi.
    rewrite reverse_lookup in Hoc' by done.
    pose proof (lookup_lt_Some _ _ _ Hic) as Hi'. rewrite length_reverse in Hi'.
    rewrite reverse_lookup in Hic by done.
    intros [|t] u Ht; simpl in Ht.
    + injection Ht as <-. rewrite Nat.add_0_r. unfold up_block_at, len_resnets. simpl.
      split; [done|]. split; [done|].
      split. { rewrite <- (width_at_lookup _ _ _ Hoc'). f_equal. lia. }
      split. { rewrite <- (width_at_lookup _ _ _ Hic). f_equal. lia. }
      split; [done|]. by repeat case_bool_decide.
    + replace (i + S t) with (S i + t) by lia.
      apply (IH (S i) oc' rest Hrest HR); [|done].
      rewrite <- (width_at_lookup _ _ _ Hoc'). f_equal. lia.
Qed.

Section Shapes.
Context `{ShapeLaws}.

Lemma down_resnet_steps_shape b i k hidden temb acc n h w :
  i + k ≤ DownBlock.num_layers b →
  shape hidden
  = [n; if i is 0 then DownBlock.in_channels b else DownBlock.out_channels b; h; w] →
  conditions n (DownBlock.temb_channels b) temb →
  shape (down_resnet_steps b i k hidden temb acc).1
  = [n; if i + k is 0 then DownBlock.in_channels b else DownBlock.out_channels b; h; w]
  ∧ shape <$> (down_resnet_steps b i k hidden temb acc).2
    = (shape <$> acc) ++ replicate k [n; DownBlock.out_channels b; h; w].
Proof.
  revert i hidden acc.
  induction k as [|k IH]; intros i hidden acc Hik Hh Ht; cbn [down_resnet_steps].
  - by rewrite Nat.add_0_r, app_nil_r.
  - assert (shape (down_resnet_step b i hidden temb)
            = [n; DownBlock.out_channels b; h; w]) as Hs.
    { apply down_resnet_step_shape; [lia|done|done]. }
    destruct (IH (S i) (down_resnet_step b i hidden temb)
                (acc ++ [down_resnet_step b i hidden temb])) as [Hx1 Hx2];
      [lia|done|done|].
    rewrite Nat.add_succ_r. split; [exact Hx1|].
    rewrite Hx2, fmap_app. cbn [fmap list_fmap replicate].
    by rewrite Hs, <- (assoc_L (++)).
Qed.

(** A down block of the plain or attention kind at index [j] of the
    graph: it records the outputs of its residual steps at the size of its
    input and, unless it is the last block, the halved tensor. *)
Lemma down_block_call_shape R ted bc j b sample emb n h w :
  down_block_at (S R) ted bc j b → j < length bc →
  conditions n ted emb →
  shape sample = level_shape n h w (width_at bc (j - 1)) (length bc - 1 - j) →
  shape (down_block_call b sample emb).1
  = level_shape n h w (width_at bc j) (length bc - 1 - S j)
  ∧ shape <$> (down_block_call b sample emb).2
    = replicate (S R) (level_shape n h w (width_at bc j) (length bc - 1 - j))
      ++ (if bool_decide (j + 1 ≠ length bc)
          then [level_shape n h w (width_at bc j) (length bc - 1 - S j)] else []).
Proof.
  intros (Hnum & Htemb & Hin & Hout & Hadd & _) Hj Hemb Hs.
  unfold down_block_call.
  destruct (down_resnet_steps_shape b 0 (DownBlock.num_layers b) sample emb []
              n (2 ^ (length bc - 1 - j) * h) (2 ^ (length bc - 1 - j) * w))
    as [Hx1 Hx2]; [simpl; lia| |by rewrite Htemb|].
  { by rewrite Hs, Hin. }
  destruct (down_resnet_steps b 0 (DownBlock.num_layers b) sample emb []) as [s1 outs].
  cbn [fst snd] in Hx1, Hx2. rewrite Hnum in Hx1, Hx2. cbn [Nat.add] in Hx1.
  rewrite Hout in Hx1, Hx2. cbn [fmap list_fmap app] in Hx2.
  rewrite Hadd. case_bool_decide as Hlast; cbn [fst snd].
  - assert (length bc - 1 - j = S (length bc - 1 - S j)) as Hexp by lia.
    assert (shape (down_resample_step b s1)
            = level_shape n h w (width_at bc j) (length bc - 1 - S j)) as Hds.
    { rewrite <- Hout. apply down_resample_step_shape; [done|].
      rewrite Hx1, Hout, Hexp. by rewrite !Nat.pow_succ_r', <- !Nat.mul_assoc. }
    split; [done|]. rewrite fmap_app, Hx2. cbn [fmap list_fmap]. by rewrite Hds.
  - split; [|by rewrite Hx2, app_nil_r].
    rewrite Hx1. unfold level_shape. by replace (length bc - 1 - S j) with (length bc - 1 - j) by lia.
Qed.

(** The down pass from block [j] on: the buffer receives, level after
    level, the tensors the up blocks will take. *)
Lemma down_pass_shape R ted bc n h w emb dbs j sample skip acc pre :
  (∀ t b, dbs !! t = Some b → down_block_at (S R) ted bc (j + t) b) →
  j + length dbs = length bc → dbs ≠ [] →
  conditions n ted emb →
  shape sample = level_shape n h w (width_at bc (j - 1)) (length bc - 1 - j) →
  shape <$> acc = pre ++ [level_shape n h w (width_at bc (j - 1)) (length bc - 1 - j)] →
  shape (down_pass dbs sample emb skip acc).1.1
  = level_shape n h w (width_at bc (length bc - 1)) 0
  ∧ shape <$> (down_pass dbs sample emb skip acc).1.2
    = pre ++ concat (skip_chunk n h w (S R) bc <$> seq j (length bc - j)).
Proof.
  revert j sample skip acc pre.
  induction dbs as [|b rest IH]; intros j sample skip acc pre Hat Hlen Hne Hemb Hs Hacc;
    [done|].
  cbn [down_pass].
  pose proof (Hat 0 b eq_refl) as Hb. rewrite Nat.add_0_r in Hb.
  assert (has_skip_conv b = false) as Hskip by apply Hb.
  rewrite Hskip. cbn [andb]. cbn [length] in Hlen.
  destruct (down_block_call_shape R ted bc j b sample emb n h w Hb ltac:(lia) Hemb Hs)
    as [Hs' Hres].
  destruct (down_block_call b sample emb) as [s' res]. cbn [fst snd] in Hs', Hres.
  destruct rest as [|b' rest'].
  - cbn [down_pass fst snd]. cbn [length] in Hlen.
    rewrite bool_decide_eq_false_2 in Hres by lia. rewrite app_nil_r in Hres.
    replace (length bc - j) with 1 by lia. cbn [seq fmap list_fmap concat].
    split.
    + rewrite Hs'. f_equal; [f_equal; lia|lia].
    + rewrite fmap_app, Hacc, Hres, app_nil_r, <- (assoc_L (++)). done.
  - rewrite bool_decide_eq_true_2 in Hres by (cbn [length] in Hlen; lia).
    destruct (IH (S j) s' skip (acc ++ res)
                (pre ++ skip_chunk n h w (S R) bc j)) as [Hx1 Hx2].
    + intros t b0 Ht. replace (S j + t) with (j + S t) by lia. by apply Hat.
    + cbn [length] in *. lia.
    + done.
    + done.
    + rewrite Hs'. cbn [Nat.sub]. by rewrite Nat.sub_0_r.
    + rewrite fmap_app, Hacc, Hres. cbn [Nat.sub]. rewrite Nat.sub_0_r.
      unfold skip_chunk. rewrite <- !(assoc_L (++)). done.
    + split; [done|]. rewrite Hx2.
      replace (length bc - j) with (S (length bc - S j)) by (cbn [length] in Hlen; lia).
      cbn [seq fmap list_fmap concat]. by rewrite <- (assoc_L (++)).
Qed.

Lemma up_resnet_steps_shape b i k hidden res temb n h w :
  i + k = UpBlock.num_layers b →
  shape hidden
  = [n; if i is 0 then UpBlock.prev_output_channel b else UpBlock.out_channels b; h; w] →
  shape <$> res
  = match k with
    | 0 => []
    | S k' => [n; UpBlock.in_channels b; h; w]
              :: replicate k' [n; UpBlock.out_channels b; h; w]
    end →
  conditions n (UpBlock.temb_channels b) temb →
  ∃ hidden', up_resnet_steps b i k hidden res temb = Ret hidden'
    ∧ shape hidden'
      = [n; if i + k is 0 then UpBlock.prev_output_channel b
            else UpBlock.out_channels b; h; w].
Proof.
  revert i hidden res.
  induction k as [|k IH]; intros i hidden res Hik Hh Hres Ht; cbn [up_resnet_steps].
  - rewrite Nat.add_0_r. eauto.
  - destruct res as [|x res0 _] using rev_ind; [discriminate Hres|].
    rewrite fmap_app in Hres. cbn [fmap list_fmap] in Hres.
    unfold getitem_last. rewrite last_snoc. cbn [mbind outcome_bind].
    rewrite slice_to_neg_snoc.
    assert (shape x = [n; if decide (i + 1 = UpBlock.num_layers b)
                          then UpBlock.in_channels b else UpBlock.out_channels b; h; w]
            ∧ shape <$> res0
              = match k with
                | 0 => []
                | S k' => [n; UpBlock.in_channels b; h; w]
                          :: replicate k' [n; UpBlock.out_channels b; h; w]
                end) as [Hx Hres0].
    { destruct k as [|k'].
      - rewrite decide_True by lia. cbn [replicate] in Hres.
        change [[n; UpBlock.in_channels b; h; w]]
          with ([] ++ [[n; UpBlock.in_channels b; h; w]]) in Hres.
        apply app_inj_tail in Hres as [? ?]. done.
      - rewrite decide_False by lia. rewrite replicate_S_end in Hres.
        change ([n; UpBlock.in_channels b; h; w]
                :: (replicate k' [n; UpBlock.out_channels b; h; w]
                    ++ [[n; UpBlock.out_channels b; h; w]]))
          with (([n; UpBlock.in_channels b; h; w]
                 :: replicate k' [n; UpBlock.out_channels b; h; w])
                ++ [[n; UpBlock.out_channels b; h; w]]) in Hres.
        apply app_inj_tail in Hres as [? ?]. done. }
    destruct (IH (S i) (up_resnet_step b i (cat [hidden; x] 1) temb) res0)
      as (hidden' & E & Hh'); [lia| |done|done|].
    { apply up_resnet_step_shape; [lia| |done]. by apply cat_shape. }
    exists hidden'. split; [done|]. by rewrite Nat.add_succ_r.
Qed.

(** The up block at index [i] of the graph, given the skip tensors of the
    level it mirrors. *)
Lemma up_block_call_shape R ted bc i u sample res emb n h w :
  up_block_at (S R) ted bc i u → i < length bc →
  conditions n ted emb →
  shape sample = level_shape n h w (UpBlock.prev_output_channel u) i →
  shape <$> res = skip_chunk n h w (S R) bc (length bc - 1 - i) →
  ∃ out, up_block_call u sample res emb = Ret out
    ∧ shape out
      = level_shape n h w (UpBlock.out_channels u)
          (if bool_decide (i + 1 ≠ length bc) then S i else i).
Proof.
  intros (Hnum & Htemb & Hout & Hin & Hprev & Hadd) Hi Hemb Hs Hres.
  unfold up_block_call. unfold len_resnets in *.
  destruct (up_resnet_steps_shape u 0 (UpBlock.num_layers u) sample res emb
              n (2 ^ i * h) (2 ^ i * w)) as (s1 & -> & Hs1); [done|done| |by rewrite Htemb|].
  { rewrite Hres, Hnum. unfold skip_chunk. rewrite Nat.add_1_r.
    replace (length bc - 1 - (length bc - 1 - i)) with i by lia.
    rewrite Hin, Hout. unfold level_shape.
    by replace (length bc - 1 - i - 1) with (length bc - 2 - i) by lia. }
  cbn [mbind outcome_bind]. rewrite Hnum, Nat.add_1_r in Hs1. cbn [Nat.add] in Hs1.
  rewrite Hadd. case_bool_decide; eexists; (split; [reflexivity|]); [|done].
  rewrite level_shape_S. by apply up_resample_step_shape.
Qed.

(** The up pass from block [i] on: every block finds the skip tensors of
    the level it mirrors, and the buffer is empty at the end. *)
Lemma up_pass_shape R ted bc n h w emb ubs i sample buffer :
  (∀ t u, ubs !! t = Some u → up_block_at (S R) ted bc (i + t) u) →
  i + length ubs = length bc → ubs ≠ [] →
  conditions n ted emb →
  shape sample
  = level_shape n h w (width_at bc (Nat.min (length bc - i) (length bc - 1))) i →
  shape <$> buffer = concat (skip_chunk n h w (S R) bc <$> seq 0 (length bc - i)) →
  ∃ out, up_pass ubs sample buffer emb = Ret (out, [])
    ∧ shape out = level_shape n h w (width_at bc 0) (length bc - 1).
Proof.
  revert i sample buffer.
  induction ubs as [|u rest IH]; intros i sample buffer Hat Hlen Hne Hemb Hs Hbuf; [done|].
  cbn [up_pass]. cbn [length] in Hlen.
  pose proof (Hat 0 u eq_refl) as Hu. rewrite Nat.add_0_r in Hu.
  pose proof Hu as (Hnum & _ & Hout & _ & Hprev & _).
  replace (length bc - i) with (S (length bc - 1 - i)) in Hbuf by lia.
  rewrite seq_S, fmap_app, concat_app in Hbuf. cbn [Nat.add fmap list_fmap concat] in Hbuf.
  rewrite app_nil_r in Hbuf.
  assert (length (skip_chunk n h w (S R) bc (length bc - 1 - i)) = S R + 1) as Hchunk.
  { unfold skip_chunk. cbn [length]. rewrite length_replicate. lia. }
  assert (S R + 1 ≤ length buffer) as Hge.
  { apply (f_equal length) in Hbuf. rewrite length_fmap, length_app, Hchunk in Hbuf. lia. }
  rewrite Hnum.
  rewrite <- (slice_split (S R + 1) buffer) in Hbuf by lia.
  rewrite fmap_app in Hbuf.
  apply app_inj_2 in Hbuf as [Hkept Hpopped].
  2: { rewrite length_fmap, length_slice_from_neg, Hchunk by lia. done. }
  destruct (up_block_call_shape R ted bc i u sample (slice_from_neg (S R + 1) buffer) emb
              n h w Hu ltac:(lia) Hemb) as (s' & -> & Hs'); [by rewrite Hs, Hprev|done|].
  cbn [mbind outcome_bind].
  destruct rest as [|u' rest'].
  - cbn [up_pass mret outcome_ret]. cbn [length] in Hlen.
    replace (length bc - 1 - i) with 0 in Hkept by lia.
    cbn [seq fmap list_fmap concat] in Hkept. apply fmap_nil_inv in Hkept as ->.
    exists s'. split; [done|].
    rewrite Hs', bool_decide_eq_false_2, Hout by lia.
    f_equal; [f_equal; lia|lia].
  - cbn [length] in Hlen. rewrite bool_decide_eq_true_2 in Hs' by lia.
    apply (IH (S i) s' (slice_to_neg (S R + 1) buffer)).
    + intros t u0 Ht. replace (S i + t) with (i + S t) by lia. by apply Hat.
    + cbn [length]. lia.
    + done.
    + done.
    + rewrite Hs', Hout. f_equal. f_equal. lia.
    + rewrite Hkept. do 3 f_equal. lia.
Qed.

Lemma mid_block_call_shape path c ted dropout eps act groups scale hc x emb n h w :
  shape x = [n; c; h; w] → conditions n ted emb →
  shape (mid_block_call
           (new_UNetMidBlock2D path c ted dropout eps act groups scale hc) x emb)
  = [n; c; h; w].
Proof.
  intros Hx Hemb. unfold mid_block_call, new_UNetMidBlock2D.
  cbn [UNetMidBlock2D.resnets_0 UNetMidBlock2D.attentions_0 UNetMidBlock2D.resnets_1].
  match goal with |- shape (resnet_block ?r1 (attention_block ?at0 (resnet_block ?r0 _ _)) _) = _ =>
    assert (shape (resnet_block r0 x emb) = [n; c; h; w]) as Hx0
      by (by apply (resnet_block_shape r0 x emb n h w));
    assert (shape (attention_block at0 (resnet_block r0 x emb)) = [n; c; h; w]) as Hx1
      by (by rewrite (attention_block_shape at0 _ n h w))
  end.
  match goal with |- shape (resnet_block ?r1 ?y _) = _ =>
    by rewrite (resnet_block_shape r1 y emb n h w)
  end.
Qed.

(** The conditioning vector has one row per timestep and the width of the
    timestep MLP. *)
Lemma time_embedding_shape owner dim ted act t_emb k :
  shape t_emb = [k; dim] →
  shape (TimestepEmbedding.forward (TimestepEmbedding.__init__ owner dim ted act) t_emb)
  = [k; ted].
Proof.
  intros Ht. unfold TimestepEmbedding.forward, TimestepEmbedding.__init__.
  cbn [TimestepEmbedding.linear_1 TimestepEmbedding.linear_2 TimestepEmbedding.act].
  assert (shape (linear (nn_Linear (owner +:+ ".linear_1") dim ted) t_emb) = [k; ted])
    as Hx1 by (by apply linear_shape).
  destruct (decide (act = Some "silu")).
  - apply (linear_shape (nn_Linear (owner +:+ ".linear_2") ted ted)).
    by rewrite silu_shape.
  - by apply (linear_shape (nn_Linear (owner +:+ ".linear_2") ted ted)).
Qed.

Lemma post_process_shape self x n h w :
  gn_num_channels (conv_norm_out self) = conv_in_channels (conv_out self) →
  conv_kernel_size (conv_out self) = 3 → conv_padding (conv_out self) = 1 →
  shape x = [n; conv_in_channels (conv_out self); h; w] →
  shape (post_process self x) = [n; conv_out_channels (conv_out self); h; w].
Proof.
  intros Hg Hk Hp Hx. unfold post_process.
  apply conv2d_shape; [done|done|].
  rewrite silu_shape, (group_norm_shape _ _ n h w); [done|]. by rewrite Hg.
Qed.

(** On a graph built from the widths [bc] and an input of the width of
    [conv_in], at a spatial size the down path can halve at every level,
    the computation of [forward] raises nothing: the up pass empties the
    buffer, and the dictionary returned holds its post-processed output, at
    the size of the input. *)
Lemma forward_body_returns self sample timestep timesteps R ted bc n h w
    path dropout eps act groups scale hc :
  bc ≠ [] →
  conv_kernel_size (conv_in self) = 3 → conv_padding (conv_in self) = 1 →
  conv_out_channels (conv_in self) = width_at bc 0 →
  (∀ t b, downsample_blocks self !! t = Some b → down_block_at (S R) ted bc t b) →
  length (downsample_blocks self) = length bc →
  Config.ddpm (config self) = false →
  mid self = Some (new_UNetMidBlock2D path (width_at bc (length bc - 1)) ted
                     dropout eps act groups scale hc) →
  (∀ t u, upsample_blocks self !! t = Some u → up_block_at (S R) ted bc t u) →
  length (upsample_blocks self) = length bc →
  gn_num_channels (conv_norm_out self) = width_at bc 0 →
  conv_kernel_size (conv_out self) = 3 → conv_padding (conv_out self) = 1 →
  conv_in_channels (conv_out self) = width_at bc 0 →
  normalize_timesteps timestep sample = Ret timesteps →
  conditions n ted (TimestepEmbedding.forward (time_embedding self)
                      (time_steps_call (time_steps self) timesteps)) →
  shape sample = [n; conv_in_channels (conv_in self);
                  2 ^ (length bc - 1) * h; 2 ^ (length bc - 1) * w] →
  let emb := TimestepEmbedding.forward (time_embedding self)
               (time_steps_call (time_steps self) timesteps) in
  let x := conv2d (conv_in self) sample in
  let down := down_pass (downsample_blocks self) x emb sample [x] in
  ∃ mb out,
    mid self = Some mb
    ∧ up_pass (upsample_blocks self) (mid_block_call mb down.1.1 emb) down.1.2 emb
      = Ret (out, [])
    ∧ forward_body self sample timestep
      = Ret (VDict {[ "sample" := post_process self out ]})
    ∧ shape (post_process self out)
      = [n; conv_out_channels (conv_out self);
         2 ^ (length bc - 1) * h; 2 ^ (length bc - 1) * w].
Proof.
  intros Hbc Hk1 Hp1 Hc1 Hdown Hld Hddpm Hmid Hup Hlu Hgn Hk2 Hp2 Hc2 Hts Hemb Hshape
    emb x down.
  assert (0 < length bc) as Hpos by (destruct bc; [done|simpl; lia]).
  assert (shape x = level_shape n h w (width_at bc (0 - 1)) (length bc - 1 - 0)) as Hx.
  { unfold x. rewrite (conv2d_shape _ _ _ _ _ Hk1 Hp1 Hshape), Hc1.
    cbn [Nat.sub]. by rewrite Nat.sub_0_r. }
  destruct (down_pass_shape R ted bc n h w emb (downsample_blocks self) 0 x sample [x] [])
    as [Hs1 Hbuf]; [done|lia| |done|done| |].
  { intros E. rewrite E in Hld. simpl in Hld. lia. }
  { cbn [fmap list_fmap app]. by rewrite Hx. }
  fold down in Hs1, Hbuf. cbn [app] in Hbuf. rewrite Nat.sub_0_r in Hbuf.
  set (mb := new_UNetMidBlock2D path (width_at bc (length bc - 1)) ted
               dropout eps act groups scale hc) in *.
  assert (shape (mid_block_call mb down.1.1 emb)
          = level_shape n h w (width_at bc (length bc - 1)) 0) as Hm.
  { by apply mid_block_call_shape. }
  destruct (up_pass_shape R ted bc n h w emb (upsample_blocks self) 0
              (mid_block_call mb down.1.1 emb) down.1.2) as (out & Hout & Hso);
    [done|lia| |done| | |].
  { intros E. rewrite E in Hlu. simpl in Hlu. lia. }
  { rewrite Hm. do 2 f_equal. lia. }
  { by rewrite Hbuf, Nat.sub_0_r. }
  exists mb, out. split; [done|]. split; [done|]. split.
  - rewrite forward_body_unfold, Hts. cbn [mbind outcome_bind]. cbv zeta.
    fold emb. fold x. fold down. rewrite Hddpm, Hmid. cbn [call_mid mbind outcome_bind mret outcome_ret].
    by rewrite Hout.
  - apply post_process_shape; [by rewrite Hgn, Hc2|done|done|]. by rewrite Hso, Hc2.
Qed.

End Shapes.

Section ForwardReturns.
Context `{ShapeLaws} `{LegacyMigration}.

(** The instance constructed with no legacy flag: the block graph as
    [__init__] leaves it, whose first [forward] call sets
    [is_overwritten] and nothing else. *)
Lemma plain_instance a m0 m sample0 timestep0 :
  __init__ a = Ret m0 →
  Args.sde a = false → Args.ldm a = false → Args.ddpm a = false →
  m = m0 ∨ m = (forward sample0 timestep0 m0).2 →
  ∃ locals flag,
    init_block_graph a = Ret (m0, locals)
    ∧ locals = mkLocals (Args.block_channels a) (Args.in_channels a) (Args.out_channels a)
                 (Args.conv_resample a) (Args.time_embedding_type a) (Args.down_blocks a)
    ∧ config m0 = register_to_config a
    ∧ m = set_is_overwritten flag m0
    ∧ ∀ sample timestep,
        (forward sample timestep m).1 = forward_body m sample timestep.
Proof.
  intros E Hsde Hldm Hddpm Hm.
  destruct (__init___Ret a m0 E Hldm Hddpm) as (self & locals & Hg & Hm0).
  rewrite Hsde in Hm0. subst self.
  pose proof (init_block_graph_inv _ _ _ Hg)
    as (cfg & c0 & cin & ts & dim & dbs & c_last & r0 & ubs & cout
        & Hov & _ & _ & _ & _ & _ & _ & _ & _ & Hself).
  unfold sde_overrides in Hov. rewrite Hsde in Hov. injection Hov as <- <-.
  assert (set_weights m0 = (Ret tt, set_is_overwritten true m0)) as Hsw.
  { unfold set_weights, mbind, St_bind, st_bind, st_write, st_read.
    rewrite Hself. simpl. by rewrite Hldm, Hddpm, Hsde. }
  assert (is_overwritten m0 = false) as How by by rewrite Hself.
  exists (mkLocals (Args.block_channels a) (Args.in_channels a) (Args.out_channels a)
            (Args.conv_resample a) (Args.time_embedding_type a) (Args.down_blocks a)).
  destruct Hm as [-> | ->].
  - exists false. split; [done|]. split; [done|]. split; [by rewrite Hself|].
    split; [by rewrite Hself|].
    intros sample timestep. by rewrite forward_unfold, How, Hsw.
  - exists true. split; [done|]. split; [done|]. split; [by rewrite Hself|].
    assert ((forward sample0 timestep0 m0).2 = set_is_overwritten true m0) as ->.
    { rewrite forward_unfold, How, Hsw. done. }
    split; [done|]. intros sample timestep. by rewrite forward_unfold.
Qed.

(** C1, amended: on an instance built with no legacy flag, down blocks of
    the plain or attention kinds, as many block types as channel widths, at
    least one residual block per level and, for the "fourier" kind, [nf]
    equal to the first channel width, [forward] on a sample of shape
    [batch, in_channels, H, W], with [H] and [W] multiples of
    2^(number of levels - 1), and on a timestep that becomes a tensor of
    length 1 or [batch], returns a dictionary whose only key, "sample",
    holds the post-processed tensor: group normalisation, nonlinearity and
    output convolution applied to what the up pass returns, which has
    emptied the skip buffer. That tensor has shape
    [batch, out_channels, H, W]. *)
Theorem forward_returns_sample_dict (a : Args.t) (m0 m : t) (L R n cin h w k : nat)
    (sample0 sample : Tensor) (timestep0 timestep : TimestepArg) (timesteps : Tensor) :
  __init__ a = Ret m0 →
  Args.sde a = false → Args.ldm a = false → Args.ddpm a = false →
  length (Args.block_channels a) = L →
  length (Args.down_blocks a) = L →
  length (Args.up_blocks a) = L →
  Forall (λ tag, tag = "UNetResDownBlock2D" ∨ tag = "UNetResAttnDownBlock2D")
    (Args.down_blocks a) →
  Args.num_res_blocks a = Some (S R) →
  Args.in_channels a = Some cin →
  (Args.time_embedding_type a = "fourier" → Args.nf a = head (Args.block_channels a)) →
  m = m0 ∨ m = (forward sample0 timestep0 m0).2 →
  shape sample = [n; cin; 2 ^ (L - 1) * h; 2 ^ (L - 1) * w] →
  normalize_timesteps timestep sample = Ret timesteps →
  shape timesteps = [k] → k = 1 ∨ k = n →
  let emb := TimestepEmbedding.forward (time_embedding m)
               (time_steps_call (time_steps m) timesteps) in
  let x := conv2d (conv_in m) sample in
  let down := down_pass (downsample_blocks m) x emb sample [x] in
  ∃ out_channels mb out,
    Args.out_channels a = Some out_channels
    ∧ mid m = Some mb
    ∧ up_pass (upsample_blocks m) (mid_block_call mb down.1.1 emb) down.1.2 emb
      = Ret (out, [])
    ∧ (forward sample timestep m).1
      = Ret (VDict {[ "sample" := conv2d (conv_out m)
                                    (silu (group_norm (conv_norm_out m) out)) ]})
    ∧ size ({[ "sample" := conv2d (conv_out m)
                             (silu (group_norm (conv_norm_out m) out)) ]}
            : gmap string Tensor) = 1
    ∧ shape (conv2d (conv_out m) (silu (group_norm (conv_norm_out m) out)))
      = [n; out_channels; 2 ^ (L - 1) * h; 2 ^ (L - 1) * w].
Proof.
  intros E Hsde Hldm Hddpm Hbc Hdb Hub Htags HR Hcin Hnf Hm Hshape Hts Hk Hkn.
  destruct (plain_instance a m0 m sample0 timestep0 E Hsde Hldm Hddpm Hm)
    as (locals & flag & Hg & Hlocals & Hcfg & Hmflag & Hfw).
  pose proof (init_block_graph_inv _ _ _ Hg)
    as (cfg & c0 & conv1 & ts & dim & dbs & c_last & r0 & ubs & conv2
        & Hov & Hc0 & Hconv1 & Htime & Hdbs & Hlast & Hr0 & Hubs & Hconv2 & Hself).
  subst locals. cbn [l_block_channels l_in_channels l_out_channels l_down_blocks] in *.
  assert (cfg = register_to_config a) as ->.
  { rewrite <- Hcfg, Hself. done. }
  set (bc := Args.block_channels a) in *.
  assert (width_at bc 0 = c0) as Hw0 by by apply width_at_lookup.
  assert (width_at bc (length bc - 1) = c_last) as Hwl.
  { apply width_at_lookup. replace (length bc - 1) with (pred (length bc)) by lia.
    by rewrite <- last_lookup. }
  assert (r0 = c_last) as ->.
  { rewrite <- head_lookup, head_reverse in Hr0. congruence. }
  rewrite Hcin in Hconv1. cbn in Hconv1. injection Hconv1 as <-.
  unfold nn_Conv2d in Hconv2.
  destruct (Args.out_channels a) as [cout|] eqn:Hcout; [|discriminate Hconv2].
  cbn in Hconv2. injection Hconv2 as <-.
  assert (conditions n (c0 * 4)
            (TimestepEmbedding.forward
               (TimestepEmbedding.__init__ "time_embedding" dim (c0 * 4)
                  (Config.time_embedding_act_fn (register_to_config a)))
               (time_steps_call ts timesteps))) as Hemb.
  { exists k. split; [|done]. apply time_embedding_shape.
    unfold build_time_steps in Htime. repeat case_decide.
    - apply bind_Ret in Htime as (g & Hgfp & Htime).
      apply bind_Ret in Htime as (c0' & Hc0' & Htime). injection Htime as <- <-.
      apply getitem_Ret in Hc0'.
      apply bind_Ret in Hgfp as (nf & Hnf' & Hgfp). injection Hgfp as <-.
      apply require_some_Ret in Hnf'.
      assert (nf = c0') as ->.
      { rewrite Hnf in Hnf' by done. rewrite head_lookup in Hnf'.
        rewrite Hnf' in Hc0'. by injection Hc0'. }
      by apply (gaussian_fourier_projection_shape _ _ k c0').
    - apply bind_Ret in Htime as (c & Hc & Htime).
      apply bind_Ret in Htime as (c0' & Hc0' & Htime). injection Htime as <- <-.
      apply getitem_Ret in Hc0', Hc. cbn in Hc.
      assert (c = c0') as ->.
      { fold bc in Hc. rewrite Hc in Hc0'. by injection Hc0'. }
      by apply get_timestep_embedding_shape.
    - discriminate Htime. }
  assert (m = set_is_overwritten flag m0) as Hm' by done.
  rewrite Hself in Hm'. cbn in Hm'.
  destruct (forward_body_returns m sample timestep timesteps R (c0 * 4) bc n h w
              "mid" (Some (Args.dropout a)) (Some (Args.resnet_eps a))
              (Some (Args.resnet_act_fn a)) None None (Some (Args.num_head_channels a)))
    as (mb & out & Hmid & Hup & Hret & Hsh); rewrite ?Hm'; cbn; try done.
  - intros Hnil. unfold bc in *. by rewrite Hnil in Hc0.
  - intros t b Ht. apply (build_down_blocks_at _ _ _ _ _ _ _ _ Hdbs HR Htags); [|done].
    done.
  - apply build_down_blocks_spec in Hdbs as [-> _]. unfold bc in *. lia.
  - by rewrite Hddpm, Hwl.
  - intros t u Ht. apply (build_up_blocks_at _ _ _ _ _ _ _ _ Hubs HR); [|done].
    rewrite <- Hwl. f_equal. lia.
  - apply build_up_blocks_spec in Hubs as [-> _]. unfold bc in *. lia.
  - unfold bc in *. by rewrite Hbc.
  - rewrite Hm' in Hmid, Hup, Hret, Hsh, Hfw. exists cout, mb, out.
    split; [done|]. split; [exact Hmid|]. split; [exact Hup|].
    split; [rewrite Hfw; exact Hret|]. split; [apply map_size_singleton|].
    unfold bc in *. rewrite Hbc in Hsh. exact Hsh.
Qed.

End ForwardReturns.

Section ForwardExamples.
Import Trace.

(** C1, as stated, fails on what is returned: [forward] returns a
    dictionary, not a tensor; the tensor is the value of its key "sample". *)
Lemma forward_returns_a_dict_not_a_tensor :
  ∃ m, __init__ plain_args = Ret m
       ∧ (∃ d, (forward (image 1 3 32 32) (TScalar (PyInt 0)) m).1 = Ret (VDict d))
       ∧ ∀ t, (forward (image 1 3 32 32) (TScalar (PyInt 0)) m).1 ≠ Ret (VTensor t).
Proof.
  eexists. split; [vm_compute; reflexivity|]. split.
  - eexists. vm_compute. reflexivity.
  - intros t E. vm_compute in E. discriminate E.
Qed.

Lemma forward_returns_sample_dict_witness :
  ∃ m timesteps,
    __init__ plain_args = Ret m
    ∧ normalize_timesteps (TScalar (PyInt 0)) (image 1 3 32 32) = Ret timesteps
    ∧ let sample := image 1 3 32 32 in
      let emb := TimestepEmbedding.forward (time_embedding m)
                   (time_steps_call (time_steps m) timesteps) in
      let x := conv2d (conv_in m) sample in
      let down := down_pass (downsample_blocks m) x emb sample [x] in
      ∃ out_channels mb out,
        Args.out_channels plain_args = Some out_channels
        ∧ mid m = Some mb
        ∧ up_pass (upsample_blocks m) (mid_block_call mb down.1.1 emb) down.1.2 emb
          = Ret (out, [])
        ∧ (forward sample (TScalar (PyInt 0)) m).1
          = Ret (VDict {[ "sample" := conv2d (conv_out m)
                                        (silu (group_norm (conv_norm_out m) out)) ]})
        ∧ size ({[ "sample" := conv2d (conv_out m)
                                 (silu (group_norm (conv_norm_out m) out)) ]}
                : gmap string Tensor) = 1
        ∧ shape (conv2d (conv_out m) (silu (group_norm (conv_norm_out m) out)))
          = [1; out_channels; 2 ^ (2 - 1) * 16; 2 ^ (2 - 1) * 16].
Proof.
  eexists _, _. split; [vm_compute; reflexivity|]. split; [vm_compute; reflexivity|].
  eapply (@forward_returns_sample_dict numerics backend Trace_shape_laws legacy
            plain_args _ _ 2 1 1 3 16 16 1 (image 1 3 32 32) (image 1 3 32 32)
            (TScalar (PyInt 0)) (TScalar (PyInt 0)));
    try reflexivity.
  - constructor; [by left|]. constructor; [by right|]. constructor.
  - intros E. vm_compute in E. discriminate E.
  - by left.
  - by left.
Defined.

End ForwardExamples.

(** * Further properties *)

Lemma set_attrs_attrs self : set_attrs (attrs self) self = self.
Proof. by destruct self. Qed.

Lemma delattrs_spec names self :
  NoDup names →
  ∃ r self', delattrs names self = (r, self')
    ∧ self' = set_attrs (attrs self') self
    ∧ ((Forall (present self) names ∧ r = Ret tt
        ∧ ∀ k, attrs self' !! k = if bool_decide (k ∈ names) then None else attrs self !! k)
       ∨ (∃ pre name post, names = pre ++ name :: post
            ∧ Forall (present self) pre ∧ attrs self !! name = None
            ∧ r = Raise (AttributeError name)
            ∧ ∀ k, attrs self' !! k
                   = if bool_decide (k ∈ pre) then None else attrs self !! k)).
Proof.
  revert self. induction names as [|name names IH]; intros self Hnd.
  - exists (Ret tt), self. split; [done|]. split; [by rewrite set_attrs_attrs|].
    left. split; [constructor|]. split; [done|]. intros k.
    rewrite bool_decide_eq_false_2; [done|]. apply not_elem_of_nil.
  - apply NoDup_cons in Hnd as [Hnotin Hnd].
    cbn [delattrs]. unfold mbind, St_bind, st_bind, delattr.
    destruct (attrs self !! name) as [v|] eqn:Hname.
    + destruct (IH (set_attrs (delete name (attrs self)) self) Hnd)
        as (r & self' & E & Hself & Hcases).
      exists r, self'. split; [exact E|]. split.
      { rewrite Hself at 1. by destruct self. }
      assert (∀ k, k ∈ names → present (set_attrs (delete name (attrs self)) self) k
                → present self k) as Hpres.
      { intros k Hk. unfold present. simpl.
        rewrite lookup_delete_ne; [done|]. intros ->. done. }
      destruct Hcases as [(Hall & -> & Hlk) | (pre & nm & post & -> & Hall & Hnm & -> & Hlk)].
      * left. split.
        { constructor; [unfold present; by rewrite Hname|].
          rewrite Forall_forall in Hall |- *. intros k Hk. by apply Hpres, Hall. }
        split; [done|]. intros k. rewrite Hlk. simpl.
        destruct (decide (k = name)) as [->|Hne].
        -- rewrite (bool_decide_eq_true_2 (name ∈ name :: names)) by set_solver.
           case_bool_decide; [done|]. by rewrite lookup_delete_eq.
        -- rewrite lookup_delete_ne by done.
           repeat case_bool_decide; set_solver.
      * right. exists (name :: pre), nm, post. split; [done|]. split.
        { constructor; [unfold present; by rewrite Hname|].
          rewrite Forall_forall in Hall |- *. intros k Hk.
          apply Hpres, Hall; [|done]. set_solver. }
        split.
        { simpl in Hnm. rewrite lookup_delete_ne in Hnm; [done|].
          intros ->. apply Hnotin. set_solver. }
        split; [done|]. intros k. rewrite Hlk. simpl.
        destruct (decide (k = name)) as [->|Hne].
        -- rewrite (bool_decide_eq_true_2 (name ∈ name :: pre)) by set_solver.
           case_bool_decide; [done|]. by rewrite lookup_delete_eq.
        -- rewrite lookup_delete_ne by done.
           repeat case_bool_decide; set_solver.
    + exists (Raise (AttributeError name)), self. split; [done|].
      split; [by rewrite set_attrs_attrs|]. right.
      exists [], name, names. split; [done|]. split; [constructor|].
      split; [done|]. split; [done|]. intros k.
      rewrite bool_decide_eq_false_2; [done|]. apply not_elem_of_nil.
Qed.

Lemma remove_ldm_delattrs self : remove_ldm self = delattrs ldm_attrs self.
Proof.
  unfold remove_ldm, ldm_attrs. cbn [delattrs].
  unfold mbind, St_bind, st_bind.
  repeat match goal with
  | |- context [delattr ?k ?s] => destruct (delattr k s) as [[[]| |] ?]; try reflexivity
  end.
Qed.

Lemma remove_ddpm_delattrs self : remove_ddpm self = delattrs ddpm_attrs self.
Proof.
  unfold remove_ddpm, ddpm_attrs. cbn [delattrs].
  unfold mbind, St_bind, st_bind.
  repeat match goal with
  | |- context [delattr ?k ?s] => destruct (delattr k s) as [[[]| |] ?]; try reflexivity
  end.
Qed.

Lemma NoDup_ldm_attrs : NoDup ldm_attrs.
Proof. apply (bool_decide_unpack _). by vm_compute. Qed.

Lemma NoDup_ddpm_attrs : NoDup ddpm_attrs.
Proof. apply (bool_decide_unpack _). by vm_compute. Qed.

(** ** [remove_ldm], [remove_ddpm] *)

(** X1: [remove_ldm] changes nothing of [self] but its legacy attributes.
    When "time_embed", "input_blocks", "middle_block", "output_blocks" and
    "out" are all set it returns and exactly these five are gone; otherwise
    it raises AttributeError for the first of them that is missing, and the
    ones before it have already been deleted. *)
Theorem remove_ldm_all_or_first_missing (self : t) :
  ∃ r self', remove_ldm self = (r, self')
    ∧ self' = set_attrs (attrs self') self
    ∧ ((Forall (present self) ldm_attrs ∧ r = Ret tt
        ∧ ∀ k, attrs self' !! k
               = if bool_decide (k ∈ ldm_attrs) then None else attrs self !! k)
       ∨ (∃ pre name post, ldm_attrs = pre ++ name :: post
            ∧ Forall (present self) pre ∧ attrs self !! name = None
            ∧ r = Raise (AttributeError name)
            ∧ ∀ k, attrs self' !! k
                   = if bool_decide (k ∈ pre) then None else attrs self !! k)).
Proof.
  rewrite remove_ldm_delattrs. apply delattrs_spec, NoDup_ldm_attrs.
Qed.

(** X2: [remove_ddpm] does the same for "temb", "down", "mid_new", "up" and
    "norm_out". *)
Theorem remove_ddpm_all_or_first_missing (self : t) :
  ∃ r self', remove_ddpm self = (r, self')
    ∧ self' = set_attrs (attrs self') self
    ∧ ((Forall (present self) ddpm_attrs ∧ r = Ret tt
        ∧ ∀ k, attrs self' !! k
               = if bool_decide (k ∈ ddpm_attrs) then None else attrs self !! k)
       ∨ (∃ pre name post, ddpm_attrs = pre ++ name :: post
            ∧ Forall (present self) pre ∧ attrs self !! name = None
            ∧ r = Raise (AttributeError name)
            ∧ ∀ k, attrs self' !! k
                   = if bool_decide (k ∈ pre) then None else attrs self !! k)).
Proof.
  rewrite remove_ddpm_delattrs. apply delattrs_spec, NoDup_ddpm_attrs.
Qed.

(** ** The channel widths of the block graph *)

Lemma build_down_blocks_chain a bc ted i oc tags dbs :
  build_down_blocks a bc ted i oc tags = Ret dbs →
  ∀ j b, dbs !! j = Some b →
    DownBlock.temb_channels b = ted
    ∧ match j with
      | 0 => DownBlock.in_channels b = oc
      | S j' => ∃ b', dbs !! j' = Some b'
                      ∧ DownBlock.in_channels b = DownBlock.out_channels b'
      end.
Proof.
  revert i oc dbs. induction tags as [|tag tags IH]; intros i oc dbs E; simpl in E.
  - injection E as <-. intros j b Hj. by rewrite lookup_nil in Hj.
  - apply bind_Ret in E as (oc' & Hoc & E).
    apply bind_Ret in E as (b0 & Hb0 & E).
    apply bind_Ret in E as (rest & Hrest & E). injection E as <-.
    unfold get_down_block in Hb0.
    destruct (down_kind_of_tag tag) as [k|]; [|discriminate Hb0].
    apply bind_Ret in Hb0 as (nl & _ & Hb0). injection Hb0 as <-.
    specialize (IH _ _ _ Hrest).
    intros [|j] b Hj; simpl in Hj.
    + injection Hj as <-. done.
    + destruct (IH j b Hj) as [Ht Hin]. split; [done|].
      destruct j as [|j'].
      * exists (DownBlock.mk k ("downsample_blocks." +:+ pretty i) nl oc oc' ted
                  (negb (bool_decide (i + 1 = length bc))) (Args.resnet_eps a)
                  (Args.resnet_act_fn a) (Args.num_head_channels a)
                  (Args.downsample_padding a)).
        split; [done|]. simpl. done.
      * destruct Hin as (b' & Hb' & Hin). exists b'. done.
Qed.

Lemma build_up_blocks_chain a bc ted i oc tags ubs :
  build_up_blocks a bc ted i oc tags = Ret ubs →
  ∀ j u, ubs !! j = Some u →
    UpBlock.temb_channels u = ted
    ∧ reverse bc !! (i + j) = Some (UpBlock.out_channels u)
    ∧ reverse bc !! (Nat.min (i + j + 1) (length bc - 1)) = Some (UpBlock.in_channels u)
    ∧ match j with
      | 0 => UpBlock.prev_output_channel u = oc
      | S j' => ∃ u', ubs !! j' = Some u'
                      ∧ UpBlock.prev_output_channel u = UpBlock.out_channels u'
      end.
Proof.
  revert i oc ubs. induction tags as [|tag tags IH]; intros i oc ubs E; simpl in E.
  - injection E as <-. intros j b Hj. by rewrite lookup_nil in Hj.
  - apply bind_Ret in E as (oc' & Hoc & E).
    apply bind_Ret in E as (ic & Hic & E).
    apply bind_Ret in E as (nrb & _ & E).
    apply bind_Ret in E as (u0 & Hu0 & E).
    apply bind_Ret in E as (rest & Hrest & E). injection E as <-.
    unfold get_up_block in Hu0.
    destruct (up_kind_of_tag tag) as [k|]; [|discriminate Hu0].
    injection Hu0 as <-.
    apply getitem_Ret in Hoc, Hic.
    specialize (IH _ _ _ Hrest).
    intros [|j] u Hj; simpl in Hj.
    + injection Hj as <-. simpl. rewrite !Nat.add_0_r. done.
    + destruct (IH j u Hj) as (Ht & Hout & Hin & Hprev).
      replace (i + S j) with (S i + j) by lia.
      split; [done|]. split; [done|]. split; [done|].
      destruct j as [|j'].
      * eexists. split; [reflexivity|]. simpl. done.
      * destruct Hprev as (u' & Hu' & Hprev). exists u'. done.
Qed.

Section DownThread.
Context `{LegacyMigration}.

(** X3: in an instance that [__init__] returns with neither [ldm] nor
    [ddpm] set, down block [j] produces [block_channels[j]] channels (the
    widths as rebound under [sde]) and consumes what the block before it
    produces, the first one consuming the output of the instance's
    [conv_in]; the only block without a downsampler is the one at index
    [len(block_channels) - 1], whatever the number of blocks. *)
Theorem down_blocks_thread_channels (a : Args.t) (m : t) :
  __init__ a = Ret m → Args.ldm a = false → Args.ddpm a = false →
  ∃ locals config,
    sde_overrides a (register_to_config a) = Ret (locals, config)
    ∧ ∀ j b, downsample_blocks m !! j = Some b →
        l_block_channels locals !! j = Some (DownBlock.out_channels b)
        ∧ match j with
          | 0 => DownBlock.in_channels b = conv_out_channels (conv_in m)
          | S j' => ∃ b', downsample_blocks m !! j' = Some b'
                          ∧ DownBlock.in_channels b = DownBlock.out_channels b'
          end
        ∧ DownBlock.add_downsample b
          = bool_decide (j + 1 ≠ length (l_block_channels locals)).
Proof.
  intros E Hldm Hddpm.
  destruct (__init___Ret a m E Hldm Hddpm) as (self & locals & Hg & Hm).
  assert (downsample_blocks m = downsample_blocks self ∧ conv_in m = conv_in self)
    as [Hd Hc].
  { destruct (Args.sde a); [|by subst].
    apply init_for_sde_Ret in Hm as ((_ & Hd & _) & _ & _ & _ & _ & Hc & _). done. }
  exists locals, (config self).
  apply init_block_graph_Ret in Hg
    as (c0 & dim & r0 & Hov & Hc0 & Hcin & _ & _ & Hdbs & _).
  split; [done|]. rewrite Hd, Hc. intros j b Hj.
  pose proof (build_down_blocks_channels _ _ _ _ _ _ _ Hdbs j b Hj) as Hout.
  pose proof (build_down_blocks_chain _ _ _ _ _ _ _ Hdbs j b Hj) as [_ Hin].
  apply build_down_blocks_spec in Hdbs as [_ Hspec].
  destruct (Hspec j b Hj) as (_ & Hadd & _).
  split; [done|]. split.
  - destruct j; [|done]. rewrite Hin.
    unfold nn_Conv2d in Hcin. destruct (l_in_channels locals); [|discriminate Hcin].
    simpl in Hcin. injection Hcin as <-. done.
  - rewrite Hadd. simpl. repeat case_bool_decide; done.
Qed.

End DownThread.

Section ThreadExamples.
Import Trace.

Lemma down_blocks_thread_channels_witness :
  ∃ m, __init__ sde_args = Ret m
    ∧ ∃ locals config,
        sde_overrides sde_args (register_to_config sde_args) = Ret (locals, config)
        ∧ ∀ j b, downsample_blocks m !! j = Some b →
            l_block_channels locals !! j = Some (DownBlock.out_channels b)
            ∧ match j with
              | 0 => DownBlock.in_channels b = conv_out_channels (conv_in m)
              | S j' => ∃ b', downsample_blocks m !! j' = Some b'
                              ∧ DownBlock.in_channels b = DownBlock.out_channels b'
              end
            ∧ DownBlock.add_downsample b
              = bool_decide (j + 1 ≠ length (l_block_channels locals)).
Proof.
  eexists. split; [vm_compute; reflexivity|].
  apply (down_blocks_thread_channels sde_args); vm_compute; reflexivity.
Defined.

End ThreadExamples.

(** X4: up block [j] produces [reversed(block_channels)[j]] channels, is
    told that the block before it produced [prev_output_channel] channels
    (for the first up block, the width of the mid block that [forward]
    calls) and takes its skip width from
    [reversed(block_channels)[min(j + 1, len(block_channels) - 1)]]; the only
    block without an upsampler is the one at index
    [len(block_channels) - 1]. *)
Theorem up_blocks_thread_channels (a : Args.t) (self : t) (locals : Locals) :
  init_block_graph a = Ret (self, locals) →
  ∀ j u, upsample_blocks self !! j = Some u →
    reverse (l_block_channels locals) !! j = Some (UpBlock.out_channels u)
    ∧ reverse (l_block_channels locals)
        !! Nat.min (j + 1) (length (l_block_channels locals) - 1)
      = Some (UpBlock.in_channels u)
    ∧ match j with
      | 0 => ∃ m, called_mid self = Some m
                  ∧ UpBlock.prev_output_channel u
                    = rb_in_channels (UNetMidBlock2D.resnets_0 m)
      | S j' => ∃ u', upsample_blocks self !! j' = Some u'
                      ∧ UpBlock.prev_output_channel u = UpBlock.out_channels u'
      end
    ∧ UpBlock.add_upsample u
      = bool_decide (j + 1 ≠ length (l_block_channels locals)).
Proof.
  intros E j u Hj.
  apply init_block_graph_inv in E
    as (cfg & c0 & cin & ts & dim & dbs & c_last & r0 & ubs & cout
        & _ & _ & _ & _ & _ & Hlast & Hr0 & Hubs & _ & ->).
  cbn [upsample_blocks] in Hj.
  destruct (build_up_blocks_chain _ _ _ _ _ _ _ Hubs j u Hj)
    as (_ & Hout & Hin & Hprev).
  apply build_up_blocks_spec in Hubs as [_ Hspec].
  destruct (Hspec j u Hj) as (_ & Hadd & _).
  simpl in Hout, Hin. split; [done|]. split; [done|]. split.
  - destruct j; [|done].
    assert (r0 = c_last) as ->.
    { rewrite <- head_lookup, head_reverse in Hr0. congruence. }
    unfold called_mid. cbn [config mid mid_new_2].
    destruct (Config.ddpm cfg); eexists; (split; [reflexivity|]); done.
  - rewrite Hadd. simpl. repeat case_bool_decide; done.
Qed.

Section UpThreadExamples.
Import Trace.

Lemma up_blocks_thread_channels_witness :
  ∃ self locals,
    init_block_graph plain_args = Ret (self, locals)
    ∧ ∀ j u, upsample_blocks self !! j = Some u →
        reverse (l_block_channels locals) !! j = Some (UpBlock.out_channels u)
        ∧ reverse (l_block_channels locals)
            !! Nat.min (j + 1) (length (l_block_channels locals) - 1)
          = Some (UpBlock.in_channels u)
        ∧ match j with
          | 0 => ∃ m, called_mid self = Some m
                      ∧ UpBlock.prev_output_channel u
                        = rb_in_channels (UNetMidBlock2D.resnets_0 m)
          | S j' => ∃ u', upsample_blocks self !! j' = Some u'
                          ∧ UpBlock.prev_output_channel u = UpBlock.out_channels u'
          end
        ∧ UpBlock.add_upsample u
          = bool_decide (j + 1 ≠ length (l_block_channels locals)).
Proof.
  eexists _, _. split; [vm_compute; reflexivity|].
  eapply (up_blocks_thread_channels plain_args); reflexivity.
Defined.

End UpThreadExamples.

(** X5: the up path mirrors the down path: when up block [j] and down
    block [len(block_channels) - 1 - j] both exist, they have the same
    input width and the same output width. *)
Theorem up_blocks_mirror_down_blocks (a : Args.t) (self : t) (locals : Locals) :
  init_block_graph a = Ret (self, locals) →
  ∀ j u d, upsample_blocks self !! j = Some u →
    downsample_blocks self !! (length (l_block_channels locals) - 1 - j) = Some d →
    UpBlock.in_channels u = DownBlock.in_channels d
    ∧ UpBlock.out_channels u = DownBlock.out_channels d.
Proof.
  intros E j u d Hu Hd.
  apply init_block_graph_inv in E
    as (cfg & c0 & cin & ts & dim & dbs & c_last & r0 & ubs & cout
        & _ & Hc0 & _ & _ & Hdbs & _ & _ & Hubs & _ & ->).
  cbn [upsample_blocks downsample_blocks] in Hu, Hd.
  set (bc := l_block_channels locals) in *.
  destruct (build_up_blocks_chain _ _ _ _ _ _ _ Hubs j u Hu) as (_ & Hout & Hin & _).
  pose proof (build_down_blocks_channels _ _ _ _ _ _ _ Hdbs _ d Hd) as Hdout.
  pose proof (build_down_blocks_chain _ _ _ _ _ _ _ Hdbs _ d Hd) as [_ Hdin].
  simpl in Hout, Hin, Hdout.
  apply reverse_lookup_Some in Hout as [Hout Hlt].
  apply reverse_lookup_Some in Hin as [Hin _].
  split.
  - destruct (length bc - 1 - j) as [|k] eqn:Hk.
    + rewrite Hdin. replace (length bc - S (Nat.min (j + 1) (length bc - 1))) with 0 in Hin by lia.
      congruence.
    + destruct Hdin as (d' & Hd' & ->).
      pose proof (build_down_blocks_channels _ _ _ _ _ _ _ Hdbs _ d' Hd') as Hd'out.
      simpl in Hd'out.
      replace (length bc - S (Nat.min (j + 1) (length bc - 1))) with k in Hin by lia.
      congruence.
  - replace (length bc - S j) with (length bc - 1 - j) in Hout by lia. congruence.
Qed.

Section MirrorExamples.
Import Trace.

Lemma up_blocks_mirror_down_blocks_witness :
  ∃ self locals,
    init_block_graph plain_args = Ret (self, locals)
    ∧ ∀ j u d, upsample_blocks self !! j = Some u →
        downsample_blocks self !! (length (l_block_channels locals) - 1 - j) = Some d →
        UpBlock.in_channels u = DownBlock.in_channels d
        ∧ UpBlock.out_channels u = DownBlock.out_channels d.
Proof.
  eexists _, _. split; [vm_compute; reflexivity|].
  eapply (up_blocks_mirror_down_blocks plain_args); reflexivity.
Defined.

End MirrorExamples.

(** ** Which arguments build a block graph *)

Lemma getitem_returns {A} (l : list A) i : returns (getitem l i) ↔ i < length l.
Proof.
  unfold returns, getitem. rewrite <- lookup_lt_is_Some.
  destruct (l !! i); split; intros [x Hx]; try discriminate; eauto.
Qed.

Lemma require_some_returns {A} what (o : option A) :
  returns (require_some what o) ↔ is_Some o.
Proof.
  unfold returns. destruct o; simpl; split; intros [x Hx]; try discriminate; eauto.
Qed.

Lemma returns_bind {A B} (c : outcome A) (k : A → outcome B) :
  returns (c ≫= k) ↔ ∃ x, c = Ret x ∧ returns (k x).
Proof.
  unfold returns. split.
  - intros [y E]. apply bind_Ret in E as (x & -> & E). eauto.
  - intros (x & -> & y & E). eauto.
Qed.

Lemma build_down_blocks_returns a bc ted i oc tags :
  returns (build_down_blocks a bc ted i oc tags)
  ↔ (tags ≠ [] → i + length tags ≤ length bc)
    ∧ Forall (λ tag, is_Some (down_kind_of_tag tag)) tags
    ∧ (tags ≠ [] → is_Some (Args.num_res_blocks a)).
Proof.
  revert i oc. induction tags as [|tag tags IH]; intros i oc; cbn [build_down_blocks].
  - split; [|by eexists]. intros _. split; [done|]. split; [constructor|done].
  - rewrite returns_bind. split.
    + intros (oc' & Hoc & Hr). apply returns_bind in Hr as (b & Hb & Hr).
      apply returns_bind in Hr as (rest & Hrest & _).
      assert (returns (build_down_blocks a bc ted (S i) oc' tags)) as Hr' by by eexists.
      apply IH in Hr' as (Hlen & Hall & _).
      unfold get_down_block in Hb.
      destruct (down_kind_of_tag tag) as [k|] eqn:Hk; [|discriminate Hb].
      apply bind_Ret in Hb as (nl & Hnl & _). apply require_some_Ret in Hnl.
      apply getitem_Ret, lookup_lt_Some in Hoc.
      split.
      { intros _. destruct tags; [simpl; lia|]. specialize (Hlen ltac:(done)).
        simpl in *. lia. }
      split; [constructor; [by rewrite Hk|done]|].
      intros _. by rewrite Hnl.
    + intros (Hlen & Hall & Hn). specialize (Hlen ltac:(done)). simpl in Hlen.
      apply Forall_cons in Hall as [[k Hk] Hall].
      destruct Hn as [nl Hnl]; [done|].
      destruct (getitem bc i) as [oc'| |] eqn:Hoc.
      2,3: assert (returns (getitem bc i)) as [? Hx] by (apply getitem_returns; lia);
           rewrite Hoc in Hx; discriminate Hx.
      exists oc'. split; [done|].
      unfold get_down_block. rewrite Hk, Hnl. simpl.
      apply returns_bind.
      assert (returns (build_down_blocks a bc ted (S i) oc' tags)) as [rest Hrest].
      { apply IH. split; [intros _; lia|]. split; [done|]. intros _. by rewrite Hnl. }
      exists rest. split; [done|]. by eexists.
Qed.

Lemma build_up_blocks_returns a bc ted i oc tags :
  returns (build_up_blocks a bc ted i oc tags)
  ↔ (tags ≠ [] → i + length tags ≤ length bc)
    ∧ Forall (λ tag, is_Some (up_kind_of_tag tag)) tags
    ∧ (tags ≠ [] → is_Some (Args.num_res_blocks a)).
Proof.
  revert i oc. induction tags as [|tag tags IH]; intros i oc; cbn [build_up_blocks].
  - split; [|by eexists]. intros _. split; [done|]. split; [constructor|done].
  - rewrite returns_bind. split.
    + intros (oc' & Hoc & Hr). apply returns_bind in Hr as (ic & Hic & Hr).
      apply returns_bind in Hr as (nrb & Hnrb & Hr).
      apply returns_bind in Hr as (u & Hu & Hr).
      apply returns_bind in Hr as (rest & Hrest & _).
      assert (returns (build_up_blocks a bc ted (S i) oc' tags)) as Hr' by by eexists.
      apply IH in Hr' as (Hlen & Hall & _).
      unfold get_up_block in Hu.
      destruct (up_kind_of_tag tag) as [k|] eqn:Hk; [|discriminate Hu].
      apply require_some_Ret in Hnrb.
      apply getitem_Ret, lookup_lt_Some in Hoc. rewrite length_reverse in Hoc.
      split.
      { intros _. destruct tags; [simpl; lia|]. specialize (Hlen ltac:(done)).
        simpl in *. lia. }
      split; [constructor; [by rewrite Hk|done]|].
      intros _. by rewrite Hnrb.
    + intros (Hlen & Hall & Hn). specialize (Hlen ltac:(done)). simpl in Hlen.
      apply Forall_cons in Hall as [[k Hk] Hall].
      destruct Hn as [nl Hnl]; [done|].
      destruct (getitem (reverse bc) i) as [oc'| |] eqn:Hoc.
      2,3: assert (returns (getitem (reverse bc) i)) as [? Hx]
             by (apply getitem_returns; rewrite length_reverse; lia);
           rewrite Hoc in Hx; discriminate Hx.
      exists oc'. split; [done|].
      destruct (getitem (reverse bc) (Nat.min (i + 1) (length bc - 1))) as [ic| |] eqn:Hic.
      2,3: assert (returns (getitem (reverse bc) (Nat.min (i + 1) (length bc - 1))))
             as [? Hx] by (apply getitem_returns; rewrite length_reverse; lia);
           rewrite Hic in Hx; discriminate Hx.
      simpl. rewrite Hnl. simpl.
      unfold get_up_block. rewrite Hk. simpl.
      assert (returns (build_up_blocks a bc ted (S i) oc' tags)) as [rest Hrest].
      { apply IH. split; [intros _; lia|]. split; [done|]. intros _. by rewrite Hnl. }
      rewrite Hrest. by eexists.
Qed.

(** X6: [__init__] gets as far as [self.is_overwritten = False] exactly
    when the rebound locals allow it: [block_channels] is not empty, the
    input and output channel counts are given, the embedding kind is
    "fourier", with [nf] given, or "positional", there are no more down or
    up block types than channel widths (fewer are accepted), every type tag
    is one of the known ones, and [num_res_blocks] is given if there is any
    block. *)
Theorem init_block_graph_returns_iff (a : Args.t) :
  returns (init_block_graph a)
  ↔ ∃ locals config,
      sde_overrides a (register_to_config a) = Ret (locals, config)
      ∧ graph_buildable a locals config.
Proof.
  split.
  - intros [[self locals] E].
    apply init_block_graph_inv in E
      as (cfg & c0 & cin & ts & dim & dbs & c_last & r0 & ubs & cout
          & Hov & Hc0 & Hcin & Hts & Hdbs & Hlast & Hr0 & Hubs & Hcout & _).
    exists locals, cfg. split; [done|].
    assert (returns (build_down_blocks a (l_block_channels locals) (c0 * 4) 0 c0
                       (l_down_blocks locals))) as Hd by by eexists.
    assert (returns (build_up_blocks a (l_block_channels locals) (c0 * 4) 0 r0
                       (Args.up_blocks a))) as Hu by by eexists.
    apply build_down_blocks_returns in Hd as (Hd1 & Hd2 & Hd3).
    apply build_up_blocks_returns in Hu as (Hu1 & Hu2 & Hu3).
    assert (0 < length (l_block_channels locals)) as Hpos.
    { apply lookup_lt_Some in Hc0. done. }
    assert (length (l_down_blocks locals) ≤ length (l_block_channels locals)) as Hd1'.
    { destruct (l_down_blocks locals); [simpl; lia|]. by apply Hd1. }
    assert (length (Args.up_blocks a) ≤ length (l_block_channels locals)) as Hu1'.
    { destruct (Args.up_blocks a); [simpl; lia|]. by apply Hu1. }
    unfold graph_buildable. split.
    { intros Hnil. by rewrite Hnil in Hc0. }
    unfold nn_Conv2d in Hcin, Hcout.
    split. { destruct (l_in_channels locals); [by eexists|discriminate Hcin]. }
    split. { destruct (l_out_channels locals); [by eexists|discriminate Hcout]. }
    split.
    { unfold build_time_steps in Hts. repeat case_decide.
      - left. split; [done|]. apply bind_Ret in Hts as (g & Hg & _).
        apply bind_Ret in Hg as (n & Hn & _). apply require_some_Ret in Hn.
        by rewrite Hn.
      - right. split; [done|]. apply bind_Ret in Hts as (n & Hn & _).
        apply getitem_Ret in Hn. intros Hnil. by rewrite Hnil in Hn.
      - discriminate Hts. }
    split; [done|]. split; [done|]. split; [done|]. split; [done|].
    intros [?|?]; auto.
  - intros (locals & cfg & Hov & Hbc & [cin Hcin] & [cout Hcout] & Hty & Hld & Hlu
            & Hdt & Hut & Hn).
    unfold init_block_graph. rewrite Hov. simpl.
    destruct (l_block_channels locals) as [|c0 bc] eqn:Ebc; [done|].
    cbn [getitem lookup list_lookup]. simpl.
    rewrite Hcin. simpl.
    assert (∃ ts dim, build_time_steps a cfg (c0 :: bc) = Ret (Some (ts, dim)))
      as (ts & dim & Hts).
    { unfold build_time_steps. destruct Hty as [[Hf [nf Hnf]]|[Hp Hcb]].
      - rewrite decide_True by done. rewrite Hnf. simpl. eauto.
      - rewrite decide_False by (by rewrite Hp). rewrite decide_True by done.
        destruct (Config.block_channels cfg) as [|n0 ?]; [done|]. simpl. eauto. }
    rewrite Hts. simpl.
    assert (returns (build_down_blocks a (c0 :: bc) (c0 * 4) 0 c0 (l_down_blocks locals)))
      as [dbs Hdbs].
    { apply build_down_blocks_returns. split; [intros _; simpl in *; lia|]. split; [done|].
      intros ?. apply Hn. by left. }
    rewrite Hdbs. simpl.
    unfold getitem_last.
    destruct (last (c0 :: bc)) as [cl|] eqn:Hl.
    2: { apply last_None in Hl. discriminate Hl. }
    simpl.
    destruct (getitem (reverse (c0 :: bc)) 0) as [r0| |] eqn:Hr0.
    2,3: assert (returns (getitem (reverse (c0 :: bc)) 0)) as [? Hx]
           by (apply getitem_returns; rewrite length_reverse; simpl; lia);
         rewrite Hr0 in Hx; discriminate Hx.
    simpl.
    assert (returns (build_up_blocks a (c0 :: bc) (c0 * 4) 0 r0 (Args.up_blocks a)))
      as [ubs Hubs].
    { apply build_up_blocks_returns. split; [intros _; simpl in *; lia|]. split; [done|].
      intros ?. apply Hn. by right. }
    rewrite Hubs. simpl. rewrite Hcout. simpl. by eexists.
Qed.

(** ** Which arguments [init_for_sde] accepts *)

Lemma ret_bind {A B} (x : A) (k : A → outcome B) : Ret x ≫= k = k x.
Proof. reflexivity. Qed.

Lemma getitem_lookup {A} (l : list A) i x : l !! i = Some x → getitem l i = Ret x.
Proof. unfold getitem. by intros ->. Qed.

Lemma sde_down_blocks_run a nf mult res n st ar :
  Args.attn_resolutions a = Some ar →
  ∃ st', sde_down_blocks a nf mult res n st = Ret st'
    ∧ sde_hs_c st' = sde_hs_c st ++ replicate n (nf * mult)
    ∧ sde_pyramid_ch st' = sde_pyramid_ch st
    ∧ sde_in_ch st' = (if n is 0 then sde_in_ch st else nf * mult)
    ∧ sde_out_ch st' = (if n is 0 then sde_out_ch st else Some (nf * mult)).
Proof.
  intros Har. revert st. induction n as [|n IH]; intros st.
  - exists st. simpl. rewrite app_nil_r. done.
  - destruct st as [[[[modules in_ch] out_ch] hs_c] ipc]. cbn [sde_down_blocks].
    rewrite Har. simpl.
    match goal with |- context [sde_down_blocks a nf mult res n ?s] =>
      destruct (IH s) as (st' & E & Hhs & Hp & Hin & Hout) end.
    exists st'. split; [exact E|].
    unfold sde_hs_c, sde_pyramid_ch, sde_in_ch, sde_out_ch in *. simpl in *.
    rewrite Hhs, Hp, Hin, Hout. rewrite <- (assoc_L (++)). simpl.
    repeat split; destruct n; done.
Qed.

Lemma sde_down_resample_run a nf cm st oc :
  sde_out_ch st = Some oc →
  (Args.progressive_input a = "input_skip" → is_Some (sde_pyramid_ch st)) →
  ∃ st', sde_down_resample a nf cm st = Ret st'
    ∧ length (sde_hs_c st') = length (sde_hs_c st) + 1
    ∧ sde_out_ch st' = Some oc
    ∧ (is_Some (sde_pyramid_ch st) → is_Some (sde_pyramid_ch st')).
Proof.
  destruct st as [[[[modules in_ch] out_ch] hs_c] ipc].
  unfold sde_hs_c, sde_pyramid_ch, sde_out_ch. simpl. intros -> Hp.
  unfold sde_down_resample. simpl.
  destruct (decide (Args.progressive_input a = "input_skip")) as [Hi|Hi].
  - destruct (Hp Hi) as [p ->]. simpl. eexists. split; [reflexivity|]. simpl.
    rewrite length_app. simpl. repeat split; eauto.
  - destruct (decide (Args.progressive_input a = "residual")).
    + simpl. eexists. split; [reflexivity|]. simpl.
      rewrite length_app. simpl. repeat split; eauto.
    + simpl. eexists. split; [reflexivity|]. simpl.
      rewrite length_app. simpl. repeat split; eauto.
Qed.

(** The number of entries the downsampling part pushes on [hs_c] for the
    levels [levels] of [L]. *)
Lemma sde_down_levels_run a nf ch_mult all_res R cm levels st ar :
  Args.attn_resolutions a = Some ar →
  Forall (λ i, i < length ch_mult ∧ i < length all_res) levels →
  (Args.progressive_input a = "input_skip" → is_Some (sde_pyramid_ch st)) →
  ∃ st', sde_down_levels a nf ch_mult all_res (S R) cm levels st = Ret st'
    ∧ length (sde_hs_c st')
      = length (sde_hs_c st)
        + sum_list ((λ i, S R + (if bool_decide (i + 1 ≠ length ch_mult) then 1 else 0))
                      <$> levels)
    ∧ (levels ≠ [] → is_Some (sde_out_ch st')).
Proof.
  intros Har Hlv. revert st. induction Hlv as [|i levels [Hi1 Hi2] Hlv IH]; intros st Hp.
  - exists st. simpl. split; [done|]. split; [lia|done].
  - cbn [sde_down_levels].
    destruct (lookup_lt_is_Some_2 ch_mult i Hi1) as [mult Hmult].
    destruct (lookup_lt_is_Some_2 all_res i Hi2) as [res Hres].
    rewrite (getitem_lookup _ _ _ Hmult), (getitem_lookup _ _ _ Hres), !ret_bind.
    destruct (sde_down_blocks_run a nf mult res (S R) st ar Har)
      as (st1 & E1 & Hhs1 & Hp1 & _ & Hout1).
    rewrite E1, ret_bind.
    assert (∃ st2, (if bool_decide (i + 1 ≠ length ch_mult)
                    then sde_down_resample a nf cm st1 else mret st1) = Ret st2
              ∧ length (sde_hs_c st2)
                = length (sde_hs_c st1)
                  + (if bool_decide (i + 1 ≠ length ch_mult) then 1 else 0)
              ∧ is_Some (sde_out_ch st2)
              ∧ (is_Some (sde_pyramid_ch st1) → is_Some (sde_pyramid_ch st2)))
      as (st2 & E2 & Hhs2 & Hout2 & Hp2).
    { case_bool_decide.
      - destruct (sde_down_resample_run a nf cm st1 (nf * mult) Hout1)
          as (st2 & E2 & Hl & Ho & Hpp).
        { rewrite Hp1. done. }
        exists st2. rewrite Ho. eauto.
      - exists st1. rewrite Hout1. split; [done|]. split; [lia|]. eauto. }
    rewrite E2, ret_bind.
    destruct (IH st2) as (st' & E & Hhs & Hout).
    { intros Hin. apply Hp2. rewrite Hp1. by apply Hp. }
    exists st'. split; [exact E|]. split.
    + rewrite Hhs, Hhs2, Hhs1, length_app, length_replicate.
      rewrite fmap_cons. simpl. lia.
    + intros _. destruct levels as [|i' levels']; [|by apply Hout].
      simpl in E. injection E as <-. done.
Qed.

Lemma sde_up_blocks_run nf mult n st :
  n ≤ length (sde_hs_c st) →
  ∃ st', sde_up_blocks nf mult n st = Ret st'
    ∧ length (sde_hs_c st') = length (sde_hs_c st) - n
    ∧ sde_pyramid_ch st' = sde_pyramid_ch st
    ∧ (is_Some (sde_out_ch st) → is_Some (sde_out_ch st'))
    ∧ (0 < n → is_Some (sde_out_ch st')).
Proof.
  revert st. induction n as [|n IH]; intros st Hn.
  - exists st. simpl. split; [done|]. split; [lia|]. split; [done|]. split; [done|lia].
  - destruct st as [[[[modules in_ch] out_ch] hs_c] ipc].
    unfold sde_hs_c in Hn. simpl in Hn. cbn [sde_up_blocks].
    destruct hs_c as [|c hs_c0] using rev_ind; [simpl in Hn; lia|]. clear IHhs_c0.
    rewrite last_snoc, removelast_last. simpl.
    rewrite length_app in Hn. simpl in Hn.
    match goal with |- context [sde_up_blocks nf mult n ?s] =>
      destruct (IH s) as (st' & E & Hhs & Hp & Hout & _) end.
    { unfold sde_hs_c. simpl. lia. }
    exists st'. split; [exact E|].
    unfold sde_hs_c, sde_pyramid_ch, sde_out_ch in *. simpl in *.
    rewrite Hhs, Hp, length_app. simpl.
    split; [lia|]. split; [done|]. split; intros _; apply Hout; eauto.
Qed.

Lemma sde_up_level_end_run a nf channels attn progressive is_first is_last st :
  progressive ∈ ["none"; "output_skip"; "residual"] →
  is_Some (sde_out_ch st) →
  ∃ st', sde_up_level_end a nf channels attn progressive is_first is_last st = Ret st'
    ∧ sde_hs_c st' = sde_hs_c st ∧ sde_out_ch st' = sde_out_ch st.
Proof.
  destruct st as [[[[modules in_ch] out_ch] hs_c] ipc].
  unfold sde_hs_c, sde_out_ch. simpl. intros Hp [oc ->].
  unfold sde_up_level_end, sde_up_progressive.
  assert (progressive = "none" ∨ progressive = "output_skip" ∨ progressive = "residual")
    as [-> | [-> | ->]] by set_solver.
  all: simpl; destruct is_first, is_last; simpl; eexists; (split; [reflexivity|]); done.
Qed.

Lemma sde_up_levels_run a nf channels ch_mult all_res R progressive levels st ar :
  Args.attn_resolutions a = Some ar →
  progressive ∈ ["none"; "output_skip"; "residual"] →
  Forall (λ i, i < length ch_mult ∧ i < length all_res) levels →
  length levels * (R + 1) ≤ length (sde_hs_c st) →
  ∃ st', sde_up_levels a nf channels ch_mult all_res R progressive levels st = Ret st'
    ∧ length (sde_hs_c st') = length (sde_hs_c st) - length levels * (R + 1).
Proof.
  intros Har Hp Hlv. revert st. induction Hlv as [|i levels [Hi1 Hi2] Hlv IH]; intros st Hlen.
  - exists st. simpl. split; [done|lia].
  - cbn [sde_up_levels].
    destruct (lookup_lt_is_Some_2 ch_mult i Hi1) as [mult Hmult].
    destruct (lookup_lt_is_Some_2 all_res i Hi2) as [res Hres].
    rewrite (getitem_lookup _ _ _ Hmult), ret_bind.
    simpl in Hlen.
    destruct (sde_up_blocks_run nf mult (R + 1) st)
      as (st1 & E1 & Hhs1 & _ & _ & Hout1); [lia|].
    rewrite E1, ret_bind, (getitem_lookup _ _ _ Hres), Har. cbn [require_some].
    rewrite !ret_bind.
    destruct (sde_up_level_end_run a nf channels (contains res ar) progressive
                (bool_decide (i + 1 = length ch_mult)) (bool_decide (i = 0)) st1 Hp)
      as (st2 & E2 & Hhs2 & _); [apply Hout1; lia|].
    rewrite E2, ret_bind.
    destruct (IH st2) as (st' & E & Hhs).
    { rewrite Hhs2, Hhs1. lia. }
    exists st'. split; [exact E|]. rewrite Hhs, Hhs2, Hhs1. cbn [length]. lia.
Qed.

Lemma sum_list_levels (L r : nat) (k : nat) :
  k ≤ L →
  sum_list ((λ i, r + (if bool_decide (i + 1 ≠ L) then 1 else 0)) <$> seq 0 k)
  = k * r + (if bool_decide (k = L) then k - 1 else k).
Proof.
  set (f := λ i, r + (if bool_decide (i + 1 ≠ L) then 1 else 0)).
  induction k as [|k IH]; intros Hk.
  - simpl. case_bool_decide; done.
  - rewrite seq_S, fmap_app.
    change (f <$> [0 + k]) with [f k].
    rewrite sum_list_snoc, IH by lia. unfold f.
    rewrite (bool_decide_eq_false_2 (k = L)) by lia.
    repeat case_bool_decide; lia.
Qed.

Lemma sde_seq_levels (ms : list nat) (f : nat → nat) :
  Forall (λ i, i < length ms ∧ i < length (map f (seq 0 (length ms)))) (seq 0 (length ms)).
Proof.
  apply Forall_forall. intros i Hi. apply elem_of_seq in Hi.
  rewrite length_map, length_seq. lia.
Qed.

Lemma init_for_sde_accepts self a ty : sde_buildable a ty → returns (init_for_sde self a ty).
Proof.
  intros ((ms & Hms & Hne) & [isz Hisz] & [nf Hnf] & [R HR] & [ar Har] & (p & Hp & Hpin)
          & Hpi & Hty & [pc Hpc] & [nc Hnc]).
  unfold init_for_sde. cbv zeta. rewrite Hms, ret_bind.
  assert (∀ (A : Type) (x y : A), match ms with [] => x | _ :: _ => y end = y) as Hmatch.
  { intros. by destruct ms. }
  rewrite !Hmatch. rewrite Hisz, HR, Hp, Hpc, Hnf, Hnc. cbn [require_some].
  rewrite ?ret_bind. unfold str_in.
  rewrite !bool_decide_eq_true_2 by done. cbn [assert]. rewrite ?ret_bind.
  unfold new_GaussianFourierProjection. cbn [require_some].
  unfold mret, outcome_ret. rewrite ?ret_bind.
  assert (∃ modules embed_dim,
    (if decide (ty = "fourier")
     then Ret ([] ++ [LGaussianFourierProjection
                   (mkGaussianFourierProjection (Some nf) (Args.fourier_scale a)
                      (next_path [] +:+ ".weight"))], 2 * nf)
     else if decide (ty = "positional") then Ret ([], nf)
     else Raise (ValueError ("embedding type " +:+ ty +:+ " unknown.")))
    = Ret (modules, embed_dim)) as (modules & embed_dim & ->).
  { repeat case_decide; [by eexists _, _..|]. set_solver. }
  rewrite ?ret_bind. unfold nn_Conv2d. cbn [require_some]. rewrite ?ret_bind.
  unfold mret, outcome_ret. rewrite ?ret_bind. cbn [conv_in_channels].
  match goal with |- context [sde_down_levels ?a ?nf ?cm ?rs (S ?R) ?c ?lv ?st] =>
    destruct (sde_down_levels_run a nf cm rs R c lv st ar Har (sde_seq_levels _ _))
      as ([[[[modules1 in_ch1] out_ch1] hs_c1] ipc1] & E1 & Hhs1 & Hout1)
  end.
  { unfold sde_pyramid_ch. cbn [snd]. intros Hin. rewrite decide_True; [done|].
    rewrite Hin. done. }
  rewrite E1, ret_bind. cbv beta iota.
  unfold sde_hs_c, sde_out_ch in Hhs1, Hout1. cbn [fst snd] in Hhs1, Hout1.
  rewrite sum_list_levels in Hhs1 by done.
  rewrite bool_decide_eq_true_2 in Hhs1 by done.
  assert (0 < length ms) as Hpos by (destruct ms; [done|simpl; lia]).
  destruct Hout1 as [oc ->].
  { intros Hnil. apply (f_equal length) in Hnil. rewrite length_seq in Hnil.
    simpl in Hnil. lia. }
  unfold getitem_last.
  destruct (last hs_c1) as [c|] eqn:Hlast.
  2: { apply last_None in Hlast. subst hs_c1. simpl in Hhs1. lia. }
  cbn [require_bound]. rewrite ?ret_bind.
  match goal with |- context [sde_up_levels ?a ?nf ?ch ?cm ?rs ?n ?p ?lv ?st] =>
    destruct (sde_up_levels_run a nf ch cm rs n p lv st ar Har Hpin)
      as ([[[[modules2 in_ch2] out_ch2] hs_c2] ipc2] & E2 & Hhs2)
  end.
  { apply Forall_reverse, sde_seq_levels. }
  { rewrite length_reverse, length_seq. unfold sde_hs_c. cbn [fst snd].
    rewrite Hhs1. simpl. lia. }
  rewrite E2, ret_bind. cbv beta iota.
  unfold sde_hs_c in Hhs2. cbn [fst snd] in Hhs2.
  rewrite length_reverse, length_seq, Hhs1 in Hhs2.
  assert (hs_c2 = []) as ->.
  { apply nil_length_inv. rewrite Hhs2. simpl. lia. }
  rewrite bool_decide_eq_true_2 by done. cbn [assert]. rewrite ret_bind.
  by eexists.
Qed.

Lemma sde_down_levels_binds_out_ch a nf ch_mult all_res R cm levels st st' :
  sde_down_levels a nf ch_mult all_res R cm levels st = Ret st' →
  sde_out_ch st = None → is_Some (sde_out_ch st') →
  levels ≠ [] ∧ R ≠ 0 ∧ is_Some (Args.attn_resolutions a).
Proof.
  revert st. induction levels as [|i levels IH]; intros st E Hnone Hsome;
    cbn [sde_down_levels] in E.
  - injection E as <-. rewrite Hnone in Hsome. by destruct Hsome.
  - split; [done|].
    apply bind_Ret in E as (mult & _ & E).
    apply bind_Ret in E as (res & _ & E).
    apply bind_Ret in E as (st1 & E1 & E).
    apply bind_Ret in E as (st2 & E2 & E).
    destruct R as [|R'].
    + simpl in E1. injection E1 as <-.
      assert (st2 = st) as ->.
      { case_bool_decide; [|by injection E2].
        destruct st as [[[[modules in_ch] out_ch] hs_c] ipc].
        unfold sde_out_ch in Hnone. simpl in Hnone. subst out_ch.
        unfold sde_down_resample in E2. simpl in E2. discriminate E2. }
      destruct (IH st E Hnone Hsome) as (_ & HR & _). done.
    + split; [done|].
      destruct st as [[[[modules in_ch] out_ch] hs_c] ipc].
      cbn [sde_down_blocks] in E1.
      apply bind_Ret in E1 as (ar & Har & _). apply require_some_Ret in Har.
      by rewrite Har.
Qed.

Lemma str_in_true (s : option string) (l : list string) :
  str_in s l = true → ∃ p, s = Some p ∧ p ∈ l.
Proof.
  unfold str_in. destruct s as [p|]; [|done]. intros Hb.
  apply bool_decide_eq_true in Hb. eauto.
Qed.

Lemma assert_Ret b u : assert b = Ret u → b = true.
Proof. by destruct b. Qed.

Lemma init_for_sde_accepted self a ty m :
  init_for_sde self a ty = Ret m → sde_buildable a ty.
Proof.
  unfold init_for_sde. cbv zeta. intros E.
  apply bind_Ret in E as (ms & Hms & E).
  apply bind_Ret in E as (all_res & Hres & E).
  apply bind_Ret in E as (? & Ha1 & E).
  apply bind_Ret in E as (? & Ha2 & E).
  apply bind_Ret in E as (? & Ha3 & E).
  apply bind_Ret in E as (progressive & Hp & E).
  apply bind_Ret in E as (pc & Hpc & E).
  apply bind_Ret in E as ([modules0 embed_dim] & Hm0 & E).
  apply bind_Ret in E as (nf & Hnf & E).
  apply bind_Ret in E as (conv & Hconv & E).
  apply bind_Ret in E as (R & HR & E).
  apply bind_Ret in E as (st1 & Hdown & E).
  destruct st1 as [[[[modules1 in_ch1] out_ch1] hs_c1] ipc1].
  apply bind_Ret in E as (in_ch2 & _ & E).
  apply bind_Ret in E as (out_ch_v & Hout & E).
  apply require_bound_Ret in Hout. subst out_ch1.
  apply sde_down_levels_binds_out_ch in Hdown as (Hlv & HR0 & Har); [|done|by eexists].
  assert (ms ≠ []) as Hne.
  { intros ->. by apply Hlv. }
  destruct (Args.ch_mult a) as [ms'|] eqn:Hcm; [|discriminate Hms].
  injection Hms as ->.
  destruct ms as [|m0 ms']; [done|].
  apply bind_Ret in Hres as (isz & Hisz & _). apply require_some_Ret in Hisz.
  apply require_some_Ret in HR, Hnf, Hp.
  apply assert_Ret, str_in_true in Ha1 as (p & Hp' & Hpin).
  apply assert_Ret, str_in_true in Ha2 as (p2 & [= <-] & Hp2).
  apply assert_Ret, str_in_true in Ha3 as (p3 & [= <-] & Hp3).
  unfold nn_Conv2d in Hconv. apply bind_Ret in Hconv as (nc & Hnc & _).
  apply require_some_Ret in Hnc.
  unfold sde_buildable.
  split; [by eexists|]. split; [by rewrite Hisz|]. split; [by rewrite Hnf|].
  split. { destruct R as [|R']; [done|]. by exists R'. }
  split; [done|]. split; [by exists p|]. split; [done|]. split; [done|].
  split; [|by rewrite Hnc].
  destruct (Args.progressive_combine a); [done|discriminate Hpc].
Qed.

(** X7: [init_for_sde] builds the legacy modules exactly when [ch_mult] is
    a non-empty list, [image_size], [nf], [attn_resolutions],
    [progressive_combine] and [num_channels] are given, [num_res_blocks] is
    at least 1 (with 0, [out_ch] is never bound), [progressive] is one of
    "none", "output_skip", "residual", [progressive_input] one of "none",
    "input_skip", "residual" and the embedding kind "fourier" or
    "positional". In particular the bookkeeping of [hs_c] always balances:
    no [hs_c.pop()] meets an empty list and [assert not hs_c] never fails. *)
Theorem init_for_sde_returns_iff (self : t) (a : Args.t) (embedding_type : string) :
  returns (init_for_sde self a embedding_type) ↔ sde_buildable a embedding_type.
Proof.
  split.
  - intros [m E]. by eapply init_for_sde_accepted.
  - apply init_for_sde_accepts.
Qed.

(** ** The [raise] statements of [init_for_sde] *)

Lemma no_ValueError_bind {A B} (c : outcome A) (k : A → outcome B) :
  no_ValueError c → (∀ x, c = Ret x → no_ValueError (k x)) → no_ValueError (c ≫= k).
Proof.
  intros Hc Hk msg. destruct c as [x|e|]; simpl.
  - by apply Hk.
  - intros [= ->]. by apply (Hc msg).
  - done.
Qed.

Lemma no_ValueError_Ret {A} (x : A) : no_ValueError (Ret x).
Proof. intros msg. done. Qed.

Lemma no_ValueError_require_some {A} what (o : option A) :
  no_ValueError (require_some what o).
Proof. intros msg. by destruct o. Qed.

Lemma no_ValueError_require_bound {A} var (o : option A) :
  no_ValueError (require_bound var o).
Proof. intros msg. by destruct o. Qed.

Lemma no_ValueError_getitem {A} (l : list A) i : no_ValueError (getitem l i).
Proof. intros msg. unfold getitem. by destruct (l !! i). Qed.

Lemma no_ValueError_getitem_last {A} (l : list A) : no_ValueError (getitem_last l).
Proof. intros msg. unfold getitem_last. by destruct (last l). Qed.

Lemma no_ValueError_assert b : no_ValueError (assert b).
Proof. intros msg. by destruct b. Qed.

Lemma no_ValueError_nn_Conv2d owner i o k p : no_ValueError (nn_Conv2d owner i o k p).
Proof. intros msg. by destruct i, o. Qed.

Lemma no_ValueError_sde_down_blocks a nf mult res n st :
  no_ValueError (sde_down_blocks a nf mult res n st).
Proof.
  revert st. induction n as [|n IH]; intros st; [apply no_ValueError_Ret|].
  destruct st as [[[[modules in_ch] out_ch] hs_c] ipc]. cbn [sde_down_blocks].
  apply no_ValueError_bind; [apply no_ValueError_require_some|]. intros ar _. apply IH.
Qed.

Lemma no_ValueError_sde_down_resample a nf cm st :
  no_ValueError (sde_down_resample a nf cm st).
Proof.
  destruct st as [[[[modules in_ch] out_ch] hs_c] ipc]. unfold sde_down_resample.
  apply no_ValueError_bind; [apply no_ValueError_require_bound|]. intros oc _.
  apply no_ValueError_bind.
  - repeat case_decide; try apply no_ValueError_Ret;
      (apply no_ValueError_bind; [apply no_ValueError_require_bound|]);
      intros d _ msg; simpl; done.
  - intros [[m i] p] _. apply no_ValueError_Ret.
Qed.

Lemma no_ValueError_sde_down_levels a nf ch_mult all_res R cm levels st :
  no_ValueError (sde_down_levels a nf ch_mult all_res R cm levels st).
Proof.
  revert st. induction levels as [|i levels IH]; intros st; [apply no_ValueError_Ret|].
  cbn [sde_down_levels].
  apply no_ValueError_bind; [apply no_ValueError_getitem|]. intros mult _.
  apply no_ValueError_bind; [apply no_ValueError_getitem|]. intros res _.
  apply no_ValueError_bind; [apply no_ValueError_sde_down_blocks|]. intros st1 _.
  apply no_ValueError_bind.
  - case_bool_decide; [apply no_ValueError_sde_down_resample|apply no_ValueError_Ret].
  - intros st2 _. apply IH.
Qed.

Lemma no_ValueError_sde_up_blocks nf mult n st : no_ValueError (sde_up_blocks nf mult n st).
Proof.
  revert st. induction n as [|n IH]; intros st; [apply no_ValueError_Ret|].
  destruct st as [[[[modules in_ch] out_ch] hs_c] ipc]. cbn [sde_up_blocks].
  apply no_ValueError_bind; [|intros c _; apply IH].
  intros msg. by destruct (last hs_c).
Qed.

Lemma no_ValueError_sde_up_level_end a nf channels attn progressive f l st :
  progressive ∈ ["none"; "output_skip"; "residual"] →
  no_ValueError (sde_up_level_end a nf channels attn progressive f l st).
Proof.
  intros Hp. destruct st as [[[[modules in_ch] out_ch] hs_c] ipc].
  unfold sde_up_level_end.
  apply no_ValueError_bind.
  - case_decide; [|apply no_ValueError_Ret]. unfold sde_up_progressive.
    repeat case_decide; try apply no_ValueError_Ret; [|set_solver].
    destruct f; apply no_ValueError_Ret.
  - intros [m p] _. apply no_ValueError_bind; [|intros; apply no_ValueError_Ret].
    destruct l; [apply no_ValueError_Ret|].
    apply no_ValueError_bind; [apply no_ValueError_require_bound|].
    intros; apply no_ValueError_Ret.
Qed.

Lemma no_ValueError_sde_up_levels a nf channels ch_mult all_res R progressive levels st :
  progressive ∈ ["none"; "output_skip"; "residual"] →
  no_ValueError (sde_up_levels a nf channels ch_mult all_res R progressive levels st).
Proof.
  intros Hp. revert st.
  induction levels as [|i levels IH]; intros st; [apply no_ValueError_Ret|].
  cbn [sde_up_levels].
  apply no_ValueError_bind; [apply no_ValueError_getitem|]. intros mult _.
  apply no_ValueError_bind; [apply no_ValueError_sde_up_blocks|]. intros st1 _.
  apply no_ValueError_bind; [apply no_ValueError_getitem|]. intros res _.
  apply no_ValueError_bind; [apply no_ValueError_require_some|]. intros ar _.
  apply no_ValueError_bind; [by apply no_ValueError_sde_up_level_end|]. intros st2 _.
  apply IH.
Qed.

(** X8: [init_for_sde] never raises ValueError: its three [raise]
    statements ("embedding type ... unknown." and the two "... is not a
    valid name") cannot be reached, because the assertions at the top have
    already rejected every value that would lead to them. *)
Theorem init_for_sde_never_raises_ValueError (self : t) (a : Args.t)
    (embedding_type : string) :
  no_ValueError (init_for_sde self a embedding_type).
Proof.
  unfold init_for_sde. cbv zeta.
  apply no_ValueError_bind. { intros msg. by destruct (Args.ch_mult a). }
  intros ms _. apply no_ValueError_bind.
  { destruct ms; [apply no_ValueError_Ret|].
    apply no_ValueError_bind; [apply no_ValueError_require_some|].
    intros; apply no_ValueError_Ret. }
  intros all_res _.
  apply no_ValueError_bind; [apply no_ValueError_assert|]. intros ? Ha1.
  apply no_ValueError_bind; [apply no_ValueError_assert|]. intros ? Ha2.
  apply no_ValueError_bind; [apply no_ValueError_assert|]. intros ? Ha3.
  apply assert_Ret, str_in_true in Ha1 as (p & Hp & Hpin).
  apply assert_Ret, str_in_true in Ha3 as (ty & [= <-] & Hty).
  rewrite Hp. cbn [require_some]. rewrite ret_bind.
  apply no_ValueError_bind. { intros msg. by destruct (Args.progressive_combine a). }
  intros pc _. apply no_ValueError_bind.
  { repeat case_decide; [| |set_solver].
    - apply no_ValueError_bind.
      { unfold new_GaussianFourierProjection.
        apply no_ValueError_bind; [apply no_ValueError_require_some|].
        intros; apply no_ValueError_Ret. }
      intros g _. apply no_ValueError_bind; [apply no_ValueError_require_some|].
      intros; apply no_ValueError_Ret.
    - apply no_ValueError_bind; [apply no_ValueError_require_some|].
      intros; apply no_ValueError_Ret. }
  intros [modules embed_dim] _.
  apply no_ValueError_bind; [apply no_ValueError_require_some|]. intros nf _.
  apply no_ValueError_bind; [apply no_ValueError_nn_Conv2d|]. intros conv _.
  apply no_ValueError_bind.
  { destruct ms; [apply no_ValueError_Ret|apply no_ValueError_require_some]. }
  intros R _.
  apply no_ValueError_bind; [apply no_ValueError_sde_down_levels|].
  intros [[[[modules1 in_ch1] out_ch1] hs_c1] ipc1] _.
  apply no_ValueError_bind; [apply no_ValueError_getitem_last|]. intros in_ch2 _.
  apply no_ValueError_bind; [apply no_ValueError_require_bound|]. intros oc _.
  apply no_ValueError_bind; [by apply no_ValueError_sde_up_levels|].
  intros [[[[modules2 in_ch3] out_ch3] hs_c3] ipc3] _.
  apply no_ValueError_bind; [apply no_ValueError_assert|]. intros ? _.
  apply no_ValueError_Ret.
Qed.

(** ** The weights [set_weights] shares under [sde] *)

Lemma init_for_sde_first_modules self a m :
  init_for_sde self a "fourier" = Ret m →
  ∃ nf nc rest,
    Args.nf a = Some nf ∧ Args.num_channels a = Some nc
    ∧ attrs m !! "all_modules"
      = Some (AModuleList
          (LGaussianFourierProjection
             (mkGaussianFourierProjection (Some nf) (Args.fourier_scale a)
                "all_modules.0.weight")
           :: LLinear (mkLinear (2 * nf) (nf * 4) "all_modules.1.weight" "all_modules.1.bias")
           :: LLinear (mkLinear (nf * 4) (nf * 4) "all_modules.2.weight"
                         "all_modules.2.bias")
           :: LConv2d (mkConv2d nc nf 3 1 "all_modules.3.weight" "all_modules.3.bias")
           :: rest)).
Proof.
  unfold init_for_sde. intros E.
  apply bind_Ret in E as (ch_mult & _ & E).
  apply bind_Ret in E as (all_res & _ & E).
  apply bind_Ret in E as (? & _ & E).
  apply bind_Ret in E as (? & _ & E).
  apply bind_Ret in E as (? & _ & E).
  apply bind_Ret in E as (progressive & _ & E).
  apply bind_Ret in E as (pc & _ & E).
  apply bind_Ret in E as ([modules0 embed_dim] & Hm0 & E).
  apply bind_Ret in E as (nf & Hnf & E).
  apply bind_Ret in E as (conv & Hconv & E).
  apply bind_Ret in E as (R & _ & E).
  apply bind_Ret in E as (st1 & Hdown & E).
  destruct st1 as [[[[modules1 in_ch1] out_ch1] hs_c1] ipc1].
  apply bind_Ret in E as (in_ch2 & _ & E).
  apply bind_Ret in E as (out_ch_v & _ & E).
  apply bind_Ret in E as (st2 & Hup & E).
  destruct st2 as [[[[modules2 in_ch3] out_ch3] hs_c3] ipc3].
  apply bind_Ret in E as (? & _ & E).
  injection E as <-.
  rewrite decide_True in Hm0 by done.
  apply bind_Ret in Hm0 as (g0 & Hg0 & Hm0).
  apply bind_Ret in Hm0 as (nf' & Hnf' & Hm0). injection Hm0 as <- <-.
  apply require_some_Ret in Hnf, Hnf'.
  assert (nf' = nf) as -> by congruence.
  unfold new_GaussianFourierProjection in Hg0. rewrite Hnf in Hg0.
  cbn in Hg0. injection Hg0 as <-.
  unfold nn_Conv2d in Hconv. apply bind_Ret in Hconv as (nc & Hnc & Hconv).
  apply require_some_Ret in Hnc. simpl in Hconv. injection Hconv as <-.
  apply sde_down_levels_prefix in Hdown. apply sde_up_levels_prefix in Hup.
  unfold sde_modules in Hdown, Hup. cbn [fst snd] in Hdown, Hup.
  match goal with |- context [setattr "all_modules" (AModuleList ?F)] =>
    assert (modules2 `prefix_of` F) as HF
  end.
  { case_decide; [|done]. rewrite <- (assoc_L (++)). apply prefix_app_r. done. }
  assert (modules1 `prefix_of` modules2) as H12.
  { etrans; [|exact Hup]. rewrite <- !(assoc_L (++)). apply prefix_app_r. done. }
  destruct (transitivity Hdown (transitivity H12 HF)) as [rest Hrest].
  exists nf, nc, rest. split; [done|]. split; [done|].
  unfold setattr at 1. cbn [attrs set_attrs]. rewrite lookup_insert_eq.
  rewrite Hrest. reflexivity.
Qed.

Section SharedWeights.
Context `{LegacyMigration}.

(** X9: on an instance built with [sde] (and neither [ldm] nor [ddpm]),
    [set_weights] makes the Fourier projection, the two linear layers of the
    timestep MLP and [conv_in] share the parameters of [all_modules[0]],
    [all_modules[1]], [all_modules[2]] and [all_modules[3]], and then stops
    at the breakpoint. The legacy modules were built for the width [nf]
    (2 nf to 4 nf, 4 nf to 4 nf, [num_channels] to [nf]), the layers that
    receive their parameters for the width [nf * ch_mult[0]]: the two agree
    only when [ch_mult[0]] is 1. *)
Theorem sde_set_weights_shares_legacy_parameters (a : Args.t) (m : t) :
  __init__ a = Ret m → Args.ldm a = false → Args.ddpm a = false → Args.sde a = true →
  ∃ nf m0 nc rest m',
    Args.nf a = Some nf ∧ Args.ch_mult a ≫= head = Some m0
    ∧ Args.num_channels a = Some nc
    ∧ attrs m !! "all_modules"
      = Some (AModuleList
          (LGaussianFourierProjection
             (mkGaussianFourierProjection (Some nf) (Args.fourier_scale a)
                "all_modules.0.weight")
           :: LLinear (mkLinear (2 * nf) (nf * 4) "all_modules.1.weight" "all_modules.1.bias")
           :: LLinear (mkLinear (nf * 4) (nf * 4) "all_modules.2.weight"
                         "all_modules.2.bias")
           :: LConv2d (mkConv2d nc nf 3 1 "all_modules.3.weight" "all_modules.3.bias")
           :: rest))
    ∧ set_weights m = (Breakpoint, m')
    ∧ time_steps m'
      = TSFourier (mkGaussianFourierProjection (Some nf) (Args.fourier_scale a)
                     "all_modules.0.weight")
    ∧ TimestepEmbedding.linear_1 (time_embedding m')
      = mkLinear (2 * (nf * m0)) (nf * m0 * 4) "all_modules.1.weight" "all_modules.1.bias"
    ∧ TimestepEmbedding.linear_2 (time_embedding m')
      = mkLinear (nf * m0 * 4) (nf * m0 * 4) "all_modules.2.weight" "all_modules.2.bias"
    ∧ conv_in m'
      = mkConv2d nc (nf * m0) 3 1 "all_modules.3.weight" "all_modules.3.bias".
Proof.
  intros E Hldm Hddpm Hsde.
  destruct (__init___Ret a m E Hldm Hddpm) as (self & locals & Hg & Hm).
  rewrite Hsde in Hm.
  destruct (init_for_sde_first_modules _ _ _ Hm) as (nf & nc & rest & Hnf & Hnc & Hall).
  apply init_for_sde_Ret in Hm as (Hsame & _ & _ & Hts & Hte & Hcin & _).
  apply init_block_graph_inv in Hg
    as (cfg & c0 & cin & ts & dim & dbs & c_last & r0 & ubs & cout
        & Hov & Hc0 & Hcin' & Hts' & _ & _ & _ & _ & _ & ->).
  cbn [time_steps time_embedding conv_in] in Hts, Hte, Hcin.
  destruct Hsame as (Hcfg & _). cbn [config] in Hcfg.
  unfold sde_overrides in Hov. rewrite Hsde in Hov.
  apply bind_Ret in Hov as (bc & Hbc & Hov). injection Hov as <- <-.
  cbn [l_block_channels l_in_channels Config.time_embedding_act_fn
       Config.set_time_embedding_act_fn] in *.
  apply scale_list_Ret in Hbc as (nf' & ms & Hnf' & Hms & ->).
  2: { intros ->. done. }
  assert (nf' = nf) as -> by congruence.
  destruct ms as [|m0 ms]; [done|]. simpl in Hc0. injection Hc0 as <-.
  rewrite Hnc in Hcin'. simpl in Hcin'. injection Hcin' as <-.
  unfold build_time_steps, new_GaussianFourierProjection in Hts'.
  simpl in Hts'. rewrite Hnf in Hts'. simpl in Hts'. injection Hts' as <- <-.
  exists nf, m0, nc, rest.
  eexists. split; [done|]. split; [by rewrite Hms|]. split; [done|]. split; [done|].
  split.
  { unfold set_weights, mbind, St_bind, st_bind, st_write, st_read, ipdb_set_trace.
    cbn [config set_is_overwritten]. rewrite Hcfg. simpl. rewrite Hldm, Hddpm, Hsde.
    unfold all_modules_item. simpl. rewrite Hall. simpl. reflexivity. }
  simpl. rewrite Hts, Hte, Hcin. simpl. done.
Qed.

End SharedWeights.

Section SharedWeightsExamples.
Import Trace.

Lemma sde_set_weights_shares_legacy_parameters_witness :
  ∃ m, __init__ sde_args = Ret m
    ∧ ∃ nf m0 nc rest m',
    Args.nf sde_args = Some nf ∧ Args.ch_mult sde_args ≫= head = Some m0
    ∧ Args.num_channels sde_args = Some nc
    ∧ attrs m !! "all_modules"
      = Some (AModuleList
          (LGaussianFourierProjection
             (mkGaussianFourierProjection (Some nf) (Args.fourier_scale sde_args)
                "all_modules.0.weight")
           :: LLinear (mkLinear (2 * nf) (nf * 4) "all_modules.1.weight" "all_modules.1.bias")
           :: LLinear (mkLinear (nf * 4) (nf * 4) "all_modules.2.weight"
                         "all_modules.2.bias")
           :: LConv2d (mkConv2d nc nf 3 1 "all_modules.3.weight" "all_modules.3.bias")
           :: rest))
    ∧ set_weights m = (Breakpoint, m')
    ∧ time_steps m'
      = TSFourier (mkGaussianFourierProjection (Some nf) (Args.fourier_scale sde_args)
                     "all_modules.0.weight")
    ∧ TimestepEmbedding.linear_1 (time_embedding m')
      = mkLinear (2 * (nf * m0)) (nf * m0 * 4) "all_modules.1.weight" "all_modules.1.bias"
    ∧ TimestepEmbedding.linear_2 (time_embedding m')
      = mkLinear (nf * m0 * 4) (nf * m0 * 4) "all_modules.2.weight" "all_modules.2.bias"
    ∧ conv_in m'
      = mkConv2d nc (nf * m0) 3 1 "all_modules.3.weight" "all_modules.3.bias".
Proof.
  eexists. split; [vm_compute; reflexivity|].
  eapply (sde_set_weights_shares_legacy_parameters sde_args); reflexivity.
Defined.

End SharedWeightsExamples.

(** ** The guard of [forward] *)

Section CopiedOnce.
Context `{Backend} `{LegacyMigration}.

Lemma keeps_bind {A B} (P : t → Prop) (c : St A) (k : A → St B) :
  keeps P c → (∀ x, keeps P (k x)) → keeps P (c ≫= k).
Proof.
  intros Hc Hk self HP. unfold mbind, St_bind, st_bind.
  specialize (Hc self HP). destruct (c self) as [[x|e|] self']; simpl in *; try done.
  by apply Hk.
Qed.

Lemma keeps_read {A} (P : t → Prop) (f : t → outcome A) : keeps P (st_read f).
Proof. intros self HP. done. Qed.

Lemma keeps_write (P : t → Prop) (f : t → t) :
  (∀ self, P self → P (f self)) → keeps P (st_write f).
Proof. intros Hf self HP. by apply Hf. Qed.

Lemma set_weights_marks_overwritten (self : t) :
  Config.ldm (config self) = false → Config.ddpm (config self) = false →
  is_overwritten (set_weights self).2 = true.
Proof.
  intros Hldm Hddpm.
  unfold set_weights. unfold mbind at 1, St_bind at 1, st_bind at 1. cbn [st_write].
  unfold mbind at 1, St_bind at 1, st_bind at 1. cbn [st_read config set_is_overwritten].
  rewrite Hldm, Hddpm.
  match goal with |- is_overwritten (?c ?s).2 = true =>
    cut (keeps (λ self, is_overwritten self = true) c);
      [intros Hk; exact (Hk s eq_refl)|]
  end.
  destruct (Config.sde (config self)); [|by apply keeps_write].
  repeat (apply keeps_bind; [first [apply keeps_read | by apply keeps_write]|]; intros ?).
  intros s Hs. done.
Qed.

(** X10: with neither [ldm] nor [ddpm] configured, [forward] attempts the
    weight copy at most once: whatever the first call did (returned,
    raised in [set_weights] or stopped at its breakpoint), it left
    [is_overwritten] set, so every later call skips [set_weights], leaves
    [self] as it is and is the forward pass proper. *)
Theorem weights_are_copied_at_most_once (self : t) (sample0 sample : Tensor)
    (timestep0 timestep : TimestepArg) :
  Config.ldm (config self) = false → Config.ddpm (config self) = false →
  let self1 := (forward sample0 timestep0 self).2 in
  is_overwritten self1 = true
  ∧ forward sample timestep self1 = (forward_body self1 sample timestep, self1).
Proof.
  intros Hldm Hddpm self1.
  assert (is_overwritten self1 = true) as How.
  { unfold self1. rewrite forward_unfold.
    destruct (is_overwritten self) eqn:E; [done|].
    pose proof (set_weights_marks_overwritten self Hldm Hddpm) as Hm.
    destruct (set_weights self) as [[[]| |] self']; done. }
  split; [done|]. rewrite forward_unfold, How. done.
Qed.

End CopiedOnce.

Section CopiedOnceExamples.
Import Trace.

Lemma weights_are_copied_at_most_once_witness :
  ∃ m, __init__ sde_args = Ret m
    ∧ let self1 := (forward (image 1 3 32 32) (TScalar (PyInt 0)) m).2 in
      is_overwritten self1 = true
      ∧ forward (image 1 3 32 32) (TScalar (PyInt 1)) self1
        = (forward_body self1 (image 1 3 32 32) (TScalar (PyInt 1)), self1).
Proof.
  eexists. split; [vm_compute; reflexivity|].
  apply (weights_are_copied_at_most_once _ (image 1 3 32 32) (image 1 3 32 32)
           (TScalar (PyInt 0)) (TScalar (PyInt 1))); reflexivity.
Defined.

End CopiedOnceExamples.

(** ** The width of the timestep embedding *)

Lemma init_for_sde_mid self a m :
  init_for_sde self a "fourier" = Ret m →
  ∃ nf mb, Args.nf a = Some nf ∧ mid m = Some mb
    ∧ rb_temb_channels (UNetMidBlock2D.resnets_0 mb) = 4 * nf
    ∧ rb_temb_channels (UNetMidBlock2D.resnets_1 mb) = 4 * nf.
Proof.
  unfold init_for_sde. intros E.
  apply bind_Ret in E as (ch_mult & _ & E).
  apply bind_Ret in E as (all_res & _ & E).
  apply bind_Ret in E as (? & _ & E).
  apply bind_Ret in E as (? & _ & E).
  apply bind_Ret in E as (? & _ & E).
  apply bind_Ret in E as (progressive & _ & E).
  apply bind_Ret in E as (pc & _ & E).
  apply bind_Ret in E as ([modules0 embed_dim] & _ & E).
  apply bind_Ret in E as (nf & Hnf & E).
  apply bind_Ret in E as (conv & _ & E).
  apply bind_Ret in E as (R & _ & E).
  apply bind_Ret in E as (st1 & _ & E).
  destruct st1 as [[[[modules1 in_ch1] out_ch1] hs_c1] ipc1].
  apply bind_Ret in E as (in_ch2 & _ & E).
  apply bind_Ret in E as (out_ch_v & _ & E).
  apply bind_Ret in E as (st2 & _ & E).
  destruct st2 as [[[[modules2 in_ch3] out_ch3] hs_c3] ipc3].
  apply bind_Ret in E as (? & _ & E).
  injection E as <-.
  apply require_some_Ret in Hnf.
  exists nf. eexists. split; [done|]. split; [reflexivity|]. done.
Qed.

Section EmbeddingWidth.
Context `{LegacyMigration}.

(** X11: in an instance that [__init__] returns with neither [ldm] nor
    [ddpm] set, the timestep MLP emits [4 * block_channels[0]] features
    (the widths as rebound under [sde]), and that is the embedding width
    every down block and every up block is built for. The two residual
    blocks of the mid block that [forward] calls are built for it too when
    [sde] is unset; with [sde] set the mid block is the one [init_for_sde]
    assigns, built for [4 * nf], while [block_channels[0]] is
    [nf * ch_mult[0]]. The input width of the MLP is [block_channels[0]],
    the width of the sinusoidal generator, for the "positional" kind, and
    [2 * block_channels[0]] for the "fourier" kind, whose projection is
    built with [embedding_size=nf]. *)
Theorem time_embedding_width_reaches_every_block (a : Args.t) (m : t) :
  __init__ a = Ret m → Args.ldm a = false → Args.ddpm a = false →
  ∃ locals config c0,
    sde_overrides a (register_to_config a) = Ret (locals, config)
    ∧ l_block_channels locals !! 0 = Some c0
    ∧ out_features (TimestepEmbedding.linear_1 (time_embedding m)) = c0 * 4
    ∧ in_features (TimestepEmbedding.linear_2 (time_embedding m)) = c0 * 4
    ∧ out_features (TimestepEmbedding.linear_2 (time_embedding m)) = c0 * 4
    ∧ Forall (λ b, DownBlock.temb_channels b = c0 * 4) (downsample_blocks m)
    ∧ Forall (λ u, UpBlock.temb_channels u = c0 * 4) (upsample_blocks m)
    ∧ (∃ mb, called_mid m = Some mb
         ∧ if Args.sde a
           then ∃ nf mult ms,
                  Args.nf a = Some nf ∧ Args.ch_mult a = Some (mult :: ms)
                  ∧ c0 = nf * mult
                  ∧ rb_temb_channels (UNetMidBlock2D.resnets_0 mb) = 4 * nf
                  ∧ rb_temb_channels (UNetMidBlock2D.resnets_1 mb) = 4 * nf
           else rb_temb_channels (UNetMidBlock2D.resnets_0 mb) = c0 * 4
                ∧ rb_temb_channels (UNetMidBlock2D.resnets_1 mb) = c0 * 4)
    ∧ match time_steps m with
      | TSFourier g =>
          in_features (TimestepEmbedding.linear_1 (time_embedding m)) = 2 * c0
          ∧ embedding_size g = Args.nf a
      | TSPositional ts =>
          in_features (TimestepEmbedding.linear_1 (time_embedding m)) = c0
          ∧ Timesteps.num_channels ts = c0
      end.
Proof.
  intros E Hldm Hddpm.
  destruct (__init___Ret a m E Hldm Hddpm) as (self & locals & Hg & Hm).
  apply init_block_graph_inv in Hg
    as (cfg & c0 & cin & ts & dim & dbs & c_last & r0 & ubs & cout
        & Hov & Hc0 & _ & Hts & Hdbs & _ & _ & Hubs & _ & Hself).
  assert (Config.ddpm cfg = false) as Hcd.
  { unfold sde_overrides in Hov. destruct (Args.sde a).
    - apply bind_Ret in Hov as (bc & _ & Hov). injection Hov as <- <-.
      simpl. exact Hddpm.
    - injection Hov as <- <-. simpl. exact Hddpm. }
  assert (config m = cfg ∧ downsample_blocks m = dbs ∧ upsample_blocks m = ubs
          ∧ time_steps m = ts
          ∧ time_embedding m
            = TimestepEmbedding.__init__ "time_embedding" dim (c0 * 4)
                (Config.time_embedding_act_fn cfg)) as (Hmc & Hmd & Hmu & Hmts & Hmte).
  { destruct (Args.sde a).
    - apply init_for_sde_Ret in Hm
        as ((Hmc & Hmd & Hmu & _) & _ & _ & Hmts & Hmte & _).
      rewrite Hmc, Hmd, Hmu, Hmts, Hmte, Hself. done.
    - rewrite Hm, Hself. done. }
  exists locals, cfg, c0. split; [done|]. split; [done|].
  rewrite Hmd, Hmu, Hmts, Hmte.
  split; [done|]. split; [done|]. split; [done|]. split.
  { apply Forall_lookup_2. intros j b Hj.
    by destruct (build_down_blocks_chain _ _ _ _ _ _ _ Hdbs j b Hj). }
  split.
  { apply Forall_lookup_2. intros j u Hj.
    by destruct (build_up_blocks_chain _ _ _ _ _ _ _ Hubs j u Hj). }
  split.
  { unfold called_mid. rewrite Hmc, Hcd.
    destruct (Args.sde a) eqn:Hsde.
    - destruct (init_for_sde_mid _ _ _ Hm) as (nf & mb & Hnf & Hmid & Hr0 & Hr1).
      exists mb. split; [done|].
      unfold sde_overrides in Hov. rewrite Hsde in Hov.
      apply bind_Ret in Hov as (bc & Hbc & Hov). injection Hov as <- <-.
      cbn [l_block_channels] in Hc0.
      apply scale_list_Ret in Hbc as (nf' & ms & Hnf' & Hms & ->).
      2: { intros ->. done. }
      assert (nf' = nf) as -> by congruence.
      destruct ms as [|mult ms]; [done|]. simpl in Hc0. injection Hc0 as <-.
      exists nf, mult, ms. done.
    - rewrite Hm, Hself. cbn [mid]. rewrite Hcd. eexists. split; [reflexivity|]. done. }
  unfold build_time_steps in Hts. repeat case_decide.
  - apply bind_Ret in Hts as (g & Hg & Hts).
    apply bind_Ret in Hts as (c0' & Hc0' & Hts). apply getitem_Ret in Hc0'.
    injection Hts as <- <-. simpl. split; [congruence|].
    unfold new_GaussianFourierProjection in Hg.
    apply bind_Ret in Hg as (n & Hn & Hg). apply require_some_Ret in Hn.
    injection Hg as <-. done.
  - apply bind_Ret in Hts as (n & Hn & Hts).
    apply bind_Ret in Hts as (c0' & Hc0' & Hts).
    apply getitem_Ret in Hc0', Hn. injection Hts as <- <-. simpl.
    split; [congruence|].
    unfold sde_overrides in Hov. destruct (Args.sde a).
    + apply bind_Ret in Hov as (bc & _ & Hov). injection Hov as <- <-. done.
    + injection Hov as <- <-. simpl in *. congruence.
  - discriminate Hts.
Qed.

End EmbeddingWidth.

Section WidthExamples.
Import Trace.

Lemma time_embedding_width_reaches_every_block_witness :
  ∃ m, __init__ sde_args = Ret m
    ∧ ∃ locals config c0,
    sde_overrides sde_args (register_to_config sde_args) = Ret (locals, config)
    ∧ l_block_channels locals !! 0 = Some c0
    ∧ out_features (TimestepEmbedding.linear_1 (time_embedding m)) = c0 * 4
    ∧ in_features (TimestepEmbedding.linear_2 (time_embedding m)) = c0 * 4
    ∧ out_features (TimestepEmbedding.linear_2 (time_embedding m)) = c0 * 4
    ∧ Forall (λ b, DownBlock.temb_channels b = c0 * 4) (downsample_blocks m)
    ∧ Forall (λ u, UpBlock.temb_channels u = c0 * 4) (upsample_blocks m)
    ∧ (∃ mb, called_mid m = Some mb
         ∧ if Args.sde sde_args
           then ∃ nf mult ms,
                  Args.nf sde_args = Some nf ∧ Args.ch_mult sde_args = Some (mult :: ms)
                  ∧ c0 = nf * mult
                  ∧ rb_temb_channels (UNetMidBlock2D.resnets_0 mb) = 4 * nf
                  ∧ rb_temb_channels (UNetMidBlock2D.resnets_1 mb) = 4 * nf
           else rb_temb_channels (UNetMidBlock2D.resnets_0 mb) = c0 * 4
                ∧ rb_temb_channels (UNetMidBlock2D.resnets_1 mb) = c0 * 4)
    ∧ match time_steps m with
      | TSFourier g =>
          in_features (TimestepEmbedding.linear_1 (time_embedding m)) = 2 * c0
          ∧ embedding_size g = Args.nf sde_args
      | TSPositional ts =>
          in_features (TimestepEmbedding.linear_1 (time_embedding m)) = c0
          ∧ Timesteps.num_channels ts = c0
      end.
Proof.
  eexists. split; [vm_compute; reflexivity|].
  apply (time_embedding_width_reaches_every_block sde_args); vm_compute; reflexivity.
Defined.

End WidthExamples.

(** ** The legacy DDPM topology *)

Lemma in_resolutions_Some x l :
  Ddpm.in_resolutions x (Some l)
  = Ret (match x with Some x => contains x l | None => false end).
Proof. reflexivity. Qed.

Lemma Ddpm_down_blocks_run a path temb bo cr l n bi block attn :
  ddpm_attn_resolutions a = Some l →
  ∃ block' attn',
    Ddpm.down_blocks a path temb bo cr n (bi, block, attn)
    = Ret (if n is 0 then bi else bo, block ++ block', attn ++ attn')
    ∧ rb_out_channels <$> block' = replicate n (Some bo)
    ∧ rb_in_channels <$> block' = (if n is S n' then bi :: replicate n' bo else [])
    ∧ Forall (λ r, rb_temb_channels r = temb) block'
    ∧ Forall (λ x, attn_channels x = bo) attn'.
Proof.
  intros Hl. revert bi block attn. induction n as [|n IH]; intros bi block attn.
  - exists [], []. rewrite !app_nil_r. done.
  - cbn [Ddpm.down_blocks]. rewrite Hl, in_resolutions_Some, ret_bind.
    match goal with |- context [Ddpm.down_blocks a path temb bo cr n (bo, ?b, ?at')] =>
      destruct (IH bo b at') as (block' & attn' & E & Hout & Hin & Htemb & Hattn)
    end.
    rewrite E.
    destruct (match cr with Some x => contains x l | None => false end).
    + eexists (_ :: block'), (_ :: attn').
      rewrite <- !(assoc_L (++)). split; [by destruct n|].
      rewrite !fmap_cons, Hout, Hin. split; [done|]. split; [by destruct n|].
      split; constructor; done.
    + eexists (_ :: block'), attn'.
      rewrite <- !(assoc_L (++)). split; [by destruct n|].
      rewrite !fmap_cons, Hout, Hin. split; [done|]. split; [by destruct n|].
      split; [constructor|]; done.
Qed.

Lemma Ddpm_down_levels_run a l R k n down bi cr :
  ddpm_attn_resolutions a = Some l →
  ddpm_num_res_blocks a = Some R →
  k + n ≤ length (ddpm_ch_mult a) →
  (is_Some cr ∨ length (ddpm_ch_mult a) ≤ 1) →
  ∃ new bi' cr',
    Ddpm.down_levels a (seq k n) (down, bi, cr) = Ret (down ++ new, bi', cr')
    ∧ length new = n
    ∧ (∀ j lv, new !! j = Some lv → ddpm_down_level a R (k + j) lv)
    ∧ bi' = (if n is 0 then bi else Some (ddpm_level_width a R (k + n - 1)))
    ∧ (is_Some cr → is_Some cr').
Proof.
  intros Hl HR. revert k down bi cr. induction n as [|n IH]; intros k down bi cr Hk Hcr.
  - exists [], bi, cr. rewrite app_nil_r. simpl. repeat split; done.
  - cbn [seq Ddpm.down_levels]. cbv zeta.
    assert (k < length (ddpm_ch_mult a)) as Hk1 by lia.
    destruct (lookup_lt_is_Some_2 (ddpm_ch_mult a) k Hk1) as [m Hm].
    destruct (lookup_lt_is_Some_2 (1 :: ddpm_ch_mult a) k) as [m' Hm']; [simpl; lia|].
    rewrite (getitem_lookup _ _ _ Hm'), ret_bind, (getitem_lookup _ _ _ Hm), ret_bind.
    rewrite HR. cbn [require_some]. rewrite ret_bind.
    destruct (Ddpm_down_blocks_run a ("down." +:+ pretty k) (ddpm_ch a * 4)
                (ddpm_ch a * m) cr l R (ddpm_ch a * m') [] [] Hl)
      as (block & attn & E & Hout & Hin & Htemb & Hattn).
    rewrite E, ret_bind. cbv beta iota. rewrite !app_nil_l.
    set (w := if R is 0 then ddpm_ch a * m' else ddpm_ch a * m).
    assert (w = ddpm_level_width a R k) as Hw.
    { unfold w, ddpm_level_width, ddpm_level_in, ddpm_level_out. by rewrite Hm, Hm'. }
    assert (∃ ds cr1,
      (if bool_decide (k + 1 ≠ length (ddpm_ch_mult a))
       then curr_res ← Ddpm.floordiv2 cr;
            mret (Some (mkResample "Downsample2D" (Some w) None (ddpm_resamp_with_conv a)
                          (Some 0) None None (("down." +:+ pretty k) +:+ ".downsample")),
                  curr_res)
       else mret (None, cr)) = Ret (ds, cr1)
      ∧ resample_channels <$> ds
        = (if bool_decide (k + 1 ≠ length (ddpm_ch_mult a)) then Some (Some w) else None)
      ∧ (is_Some cr → is_Some cr1)) as (ds & cr1 & E1 & Hds & Hcr1).
    { case_bool_decide.
      - destruct Hcr as [[r ->]|Hle]; [|lia]. simpl. eexists _, _. split; [done|].
        split; [done|]. eauto.
      - eexists _, _. split; [done|]. done. }
    rewrite E1, ret_bind. cbv beta iota.
    destruct (IH (S k) (down ++ [Ddpm.mkLevel block attn ds]) (Some w) cr1)
      as (new & bi' & cr' & E2 & Hlen & Hnew & Hbi & Hcr'); [lia| |].
    { destruct Hcr as [Hs|Hle]; [left; by apply Hcr1|by right]. }
    rewrite E2. exists (Ddpm.mkLevel block attn ds :: new), bi', cr'.
    rewrite <- (assoc_L (++)). split; [done|]. split; [simpl; by rewrite Hlen|].
    split; [|split].
    + intros [|j] lv Hj; simpl in Hj.
      * injection Hj as <-. rewrite Nat.add_0_r. unfold ddpm_down_level.
        cbn [Ddpm.block Ddpm.attn Ddpm.resample].
        unfold ddpm_level_out, ddpm_level_in. rewrite Hm, Hm'. simpl default.
        rewrite Hout, Hin, Hds, Hw. repeat split; try done.
      * replace (k + S j) with (S k + j) by lia. by apply Hnew.
    + rewrite Hbi. destruct n as [|n'].
      * rewrite Hw. f_equal. f_equal. lia.
      * f_equal. f_equal. lia.
    + intros Hs. by apply Hcr', Hcr1.
Qed.

Lemma Ddpm_up_blocks_run a path i_level bo cr l R m' i_block n bi block attn skip :
  ddpm_attn_resolutions a = Some l →
  (1 :: ddpm_ch_mult a) !! i_level = Some m' →
  i_block + n = R + 1 →
  ∃ block' attn' skip',
    Ddpm.up_blocks a path i_level bo cr R i_block n (bi, block, attn, skip)
    = Ret (if n is 0 then bi else bo, block ++ block', attn ++ attn', skip')
    ∧ rb_out_channels <$> block' = replicate n (Some bo)
    ∧ rb_in_channels <$> block'
      = (if n is S n'
         then zip_with Nat.add (bi :: replicate n' bo)
                (replicate n' skip ++ [ddpm_ch a * m'])
         else [])
    ∧ Forall (λ r, rb_temb_channels r = ddpm_ch a * 4) block'
    ∧ Forall (λ x, attn_channels x = bo) attn'.
Proof.
  intros Hl Hm'. revert i_block bi block attn skip.
  induction n as [|n IH]; intros i_block bi block attn skip Hn.
  - exists [], [], skip. rewrite !app_nil_r. done.
  - cbn [Ddpm.up_blocks]. cbv zeta.
    assert (∃ s, (if decide (i_block = R)
                  then m ← getitem (1 :: ddpm_ch_mult a) i_level; mret (ddpm_ch a * m)
                  else mret skip) = Ret s
                 ∧ s = (if n is 0 then ddpm_ch a * m' else skip)) as (s & -> & Hs).
    { case_decide.
      - rewrite (getitem_lookup _ _ _ Hm'), ret_bind. eexists. split; [done|].
        destruct n; [done|lia].
      - eexists. split; [done|]. destruct n; [lia|done]. }
    rewrite ret_bind, Hl, in_resolutions_Some, ret_bind.
    match goal with |- context [Ddpm.up_blocks a path i_level bo cr R (S i_block) n
                                  (bo, ?b, ?at', s)] =>
      destruct (IH (S i_block) bo b at' s) as (block' & attn' & skip' & E & Hout & Hin
                                               & Htemb & Hattn); [lia|]
    end.
    rewrite E.
    set (here := match cr with Some x => contains x l | None => false end).
    eexists (_ :: block'),
            ((if here then [Ddpm.attention (path +:+ ".attn." +:+ pretty (length attn)) bo]
              else []) ++ attn'), skip'.
    split.
    { destruct n, here; rewrite <- ?(assoc_L (++)); try rewrite app_nil_r; done. }
    rewrite !fmap_cons, Hout, Hin. split; [done|]. split.
    { subst s. destruct n as [|n']; simpl; done. }
    split; [constructor; done|].
    destruct here; [constructor|]; done.
Qed.

Lemma reverse_seq_S n : reverse (seq 0 (S n)) = n :: reverse (seq 0 n).
Proof. by rewrite seq_S, reverse_app. Qed.

Lemma Ddpm_up_levels_run a l R n up bi cr :
  ddpm_attn_resolutions a = Some l →
  ddpm_num_res_blocks a = Some R →
  n ≤ length (ddpm_ch_mult a) →
  (is_Some cr ∨ n ≤ 1) →
  ∃ new bi' cr',
    Ddpm.up_levels a (reverse (seq 0 n)) (up, bi, cr) = Ret (new ++ up, bi', cr')
    ∧ length new = n
    ∧ (∀ i lv, new !! i = Some lv →
         ddpm_up_level a R i
           (if bool_decide (i + 1 = n) then bi else ddpm_level_out a (i + 1)) lv)
    ∧ bi' = (if n is 0 then bi else ddpm_level_out a 0).
Proof.
  intros Hl HR. revert up bi cr. induction n as [|n IH]; intros up bi cr Hn Hcr.
  - exists [], bi, cr. simpl. repeat split; done.
  - rewrite reverse_seq_S. cbn [Ddpm.up_levels]. cbv zeta.
    assert (n < length (ddpm_ch_mult a)) as Hn1 by lia.
    destruct (lookup_lt_is_Some_2 (ddpm_ch_mult a) n Hn1) as [m Hm].
    destruct (lookup_lt_is_Some_2 (1 :: ddpm_ch_mult a) n) as [m' Hm']; [simpl; lia|].
    rewrite (getitem_lookup _ _ _ Hm), ret_bind, HR. cbn [require_some]. rewrite ret_bind.
    destruct (Ddpm_up_blocks_run a ("up." +:+ pretty n) n (ddpm_ch a * m) cr l R m' 0
                (R + 1) bi [] [] (ddpm_ch a * m) Hl Hm')
      as (block & attn & skip' & E & Hout & Hin & Htemb & Hattn); [lia|].
    rewrite E, ret_bind. cbv beta iota. rewrite !app_nil_l.
    replace (R + 1) with (S R) in * by lia.
    assert (∃ us cr1,
      (if decide (n ≠ 0)
       then curr_res ← Ddpm.times2 cr;
            mret (Some (mkResample "Upsample2D" (Some (ddpm_ch a * m)) None
                          (ddpm_resamp_with_conv a) None None None
                          (("up." +:+ pretty n) +:+ ".upsample")), curr_res)
       else mret (None, cr)) = Ret (us, cr1)
      ∧ resample_channels <$> us
        = (if decide (n ≠ 0) then Some (Some (ddpm_ch a * m)) else None)
      ∧ (is_Some cr → is_Some cr1)) as (us & cr1 & E1 & Hus & Hcr1).
    { case_decide.
      - destruct Hcr as [[r ->]|Hle]; [|lia]. simpl. eexists _, _. split; [done|].
        split; [done|]. eauto.
      - eexists _, _. split; [done|]. done. }
    rewrite E1, ret_bind. cbv beta iota.
    destruct (IH (Ddpm.mkLevel block attn us :: up) (ddpm_ch a * m) cr1)
      as (new & bi' & cr' & E2 & Hlen & Hnew & Hbi); [lia| |].
    { destruct Hcr as [Hs|Hle]; [left; by apply Hcr1|right; lia]. }
    rewrite E2. exists (new ++ [Ddpm.mkLevel block attn us]), bi', cr'.
    rewrite <- (assoc_L (++)). split; [done|].
    split; [rewrite length_app; simpl; lia|].
    assert (ddpm_level_out a n = ddpm_ch a * m) as Hlo.
    { unfold ddpm_level_out. by rewrite Hm. }
    assert (ddpm_level_in a n = ddpm_ch a * m') as Hli.
    { unfold ddpm_level_in. by rewrite Hm'. }
    split.
    + intros i lv Hi.
      destruct (decide (i < n)) as [Hlt|Hge].
      * rewrite lookup_app_l in Hi by lia.
        specialize (Hnew i lv Hi). rewrite bool_decide_eq_false_2 by lia.
        case_bool_decide as Hc; [|done]. by rewrite Hc, Hlo.
      * rewrite lookup_app_r in Hi by lia.
        apply lookup_lt_Some in Hi as Hi'. simpl in Hi'.
        assert (i = n) as -> by lia.
        rewrite Hlen, Nat.sub_diag in Hi. injection Hi as <-.
        rewrite bool_decide_eq_true_2 by lia.
        unfold ddpm_up_level. cbn [Ddpm.block Ddpm.attn Ddpm.resample].
        rewrite Hlo, Hli, Hout, Hin, Hus. replace (R + 1) with (S R) by lia.
        repeat split; done.
    + rewrite Hbi. destruct n as [|n']; [|done]. by rewrite <- Hlo.
Qed.

Lemma init_for_ddpm_run a :
  ddpm_buildable a →
  ∃ net R, Ddpm.init_for_ddpm a = Ret net ∧ ddpm_num_res_blocks a = Some R
           ∧ ddpm_net a R net.
Proof.
  intros (Hne & [ic Hic] & [oc Hoc] & [R HR] & [l Hl] & Hres).
  unfold Ddpm.init_for_ddpm, nn_Conv2d. cbv zeta. rewrite Hic.
  cbn [require_some]. rewrite !ret_bind.
  set (L := length (ddpm_ch_mult a)).
  assert (0 < L) as Hpos. { unfold L. destruct (ddpm_ch_mult a); [done|simpl; lia]. }
  destruct (Ddpm_down_levels_run a l R 0 L [] None (ddpm_resolution a) Hl HR)
    as (down & bi & cr & E1 & Hlen1 & Hdown & Hbi & Hcr1); [lia| |].
  { destruct (decide (2 ≤ L)); [left; by apply Hres|right; unfold L in *; lia]. }
  rewrite E1, ret_bind. cbv beta iota. rewrite app_nil_l.
  assert (length (ddpm_ch_mult a) = L) as HL by done. clearbody L.
  destruct L as [|L']; [lia|]. subst bi. cbn [require_bound]. rewrite ret_bind.
  replace (0 + S L' - 1) with L' by lia.
  set (w := ddpm_level_width a R L').
  destruct (Ddpm_up_levels_run a l R (S L') [] w cr Hl HR)
    as (up & bi' & cr' & E2 & Hlen2 & Hup & Hbi'); [lia| |].
  { destruct (decide (2 ≤ S L')); [left; apply Hcr1, Hres; lia|right; lia]. }
  rewrite E2, ret_bind. cbv beta iota. rewrite app_nil_r.
  subst bi'. rewrite Hoc. cbn [require_some]. rewrite !ret_bind.
  eexists _, R. split; [reflexivity|]. split; [done|].
  unfold ddpm_net. cbv zeta.
  cbn [Ddpm.down Ddpm.up Ddpm.mid Ddpm.mid_new Ddpm.conv_in Ddpm.norm_out Ddpm.conv_out
       conv_in_channels conv_out_channels].
  rewrite HL. replace (S L' - 1) with L' by lia. fold w.
  split; [done|]. split; [done|]. split; [exact Hdown|]. split; [exact Hup|].
  repeat split; done.
Qed.

Lemma Ddpm_down_blocks_S_Ret a path temb bo cr n st st' :
  Ddpm.down_blocks a path temb bo cr (S n) st = Ret st' →
  is_Some (ddpm_attn_resolutions a).
Proof.
  destruct st as [[bi block] attn]. cbn [Ddpm.down_blocks]. intros E.
  apply bind_Ret in E as (here & Hh & _).
  destruct (ddpm_attn_resolutions a); [done|discriminate Hh].
Qed.

Lemma Ddpm_up_blocks_S_Ret a path i bo cr R ib n st st' :
  Ddpm.up_blocks a path i bo cr R ib (S n) st = Ret st' →
  is_Some (ddpm_attn_resolutions a).
Proof.
  destruct st as [[[bi block] attn] skip]. cbn [Ddpm.up_blocks]. intros E.
  apply bind_Ret in E as (s & _ & E).
  apply bind_Ret in E as (here & Hh & _).
  destruct (ddpm_attn_resolutions a); [done|discriminate Hh].
Qed.

Lemma init_for_ddpm_accepted a net : Ddpm.init_for_ddpm a = Ret net → ddpm_buildable a.
Proof.
  unfold Ddpm.init_for_ddpm. cbv zeta. intros E.
  apply bind_Ret in E as (cin & Hcin & E).
  apply bind_Ret in E as ([[down bi] cr] & Hdown & E).
  apply bind_Ret in E as (bi0 & Hbi & E).
  apply bind_Ret in E as ([[up bi1] cr1] & Hup & E).
  apply bind_Ret in E as (cout & Hcout & _).
  apply require_bound_Ret in Hbi. subst bi.
  unfold nn_Conv2d in Hcin, Hcout.
  apply bind_Ret in Hcin as (ic & Hic & _). apply require_some_Ret in Hic.
  apply bind_Ret in Hcout as (? & _ & Hcout).
  apply bind_Ret in Hcout as (oc & Hoc & _). apply require_some_Ret in Hoc.
  destruct (ddpm_ch_mult a) as [|m0 ms] eqn:Hms.
  { simpl in Hdown. discriminate Hdown. }
  unfold ddpm_buildable. rewrite Hms, Hic, Hoc.
  split; [done|]. split; [done|]. split; [done|].
  (* the first level built by each loop *)
  cbn [length seq Ddpm.down_levels] in Hdown. cbv zeta in Hdown. rewrite Hms in Hdown.
  apply bind_Ret in Hdown as (m' & _ & Hdown).
  apply bind_Ret in Hdown as (m & _ & Hdown).
  apply bind_Ret in Hdown as (R & HR & Hdown). apply require_some_Ret in HR.
  apply bind_Ret in Hdown as ([[bi2 block] attn] & _ & Hdown).
  apply bind_Ret in Hdown as ([ds cr2] & Hds & _).
  cbn [length] in Hup. rewrite reverse_seq_S in Hup.
  cbn [Ddpm.up_levels] in Hup. cbv zeta in Hup.
  apply bind_Ret in Hup as (m1 & _ & Hup).
  apply bind_Ret in Hup as (R' & _ & Hup).
  apply bind_Ret in Hup as (st & Hub & _).
  replace (R' + 1) with (S R') in Hub by lia.
  apply Ddpm_up_blocks_S_Ret in Hub.
  split; [by rewrite HR|]. split; [done|].
  intros Hlen. rewrite bool_decide_eq_true_2 in Hds by (simpl in *; lia).
  apply bind_Ret in Hds as (cr3 & Hcr3 & _).
  destruct (ddpm_resolution a); [done|discriminate Hcr3].
Qed.

(** X13: as far as the code of this file goes, [init_for_ddpm] builds the
    legacy DDPM topology exactly when [ch_mult] is not empty (with no
    level, [block_in] is never bound), [in_channels], [out_ch],
    [num_res_blocks] and [attn_resolutions] are given, and [resolution] is
    given whenever there are two levels or more (it is only halved after a
    level that is not the last). *)
Theorem init_for_ddpm_returns_iff (a : DdpmArgs) :
  returns (Ddpm.init_for_ddpm a) ↔ ddpm_buildable a.
Proof.
  split.
  - intros [net E]. by eapply init_for_ddpm_accepted.
  - intros Hb. destruct (init_for_ddpm_run a Hb) as (net & R & E & _). by exists net.
Qed.

Lemma init_for_ddpm_Ret a net R :
  Ddpm.init_for_ddpm a = Ret net → ddpm_num_res_blocks a = Some R → ddpm_net a R net.
Proof.
  intros E HR. pose proof (init_for_ddpm_accepted a net E) as Hb.
  destruct (init_for_ddpm_run a Hb) as (net' & R' & E' & HR' & Hnet).
  congruence.
Qed.

(** X14: [self.down] and [self.up] both hold one entry per level, stored
    by level although [self.up] is built from the last level to the first:
    entry [i] of [self.down] has [num_res_blocks] residual blocks and a
    downsampler unless [i] is the last level; entry [i] of [self.up] has
    [num_res_blocks + 1] residual blocks and an upsampler unless [i] is 0;
    all of them, and every attention block of the level, produce
    [ch * ch_mult[i]] channels. *)
Theorem ddpm_levels_are_stored_by_level (a : DdpmArgs) (net : Ddpm.t) (R : nat) :
  Ddpm.init_for_ddpm a = Ret net → ddpm_num_res_blocks a = Some R →
  length (Ddpm.down net) = length (ddpm_ch_mult a)
  ∧ length (Ddpm.up net) = length (ddpm_ch_mult a)
  ∧ ∀ i d u m, Ddpm.down net !! i = Some d → Ddpm.up net !! i = Some u →
      ddpm_ch_mult a !! i = Some m →
      length (Ddpm.block d) = R ∧ length (Ddpm.block u) = R + 1
      ∧ (is_Some (Ddpm.resample d) ↔ i + 1 ≠ length (ddpm_ch_mult a))
      ∧ (is_Some (Ddpm.resample u) ↔ i ≠ 0)
      ∧ Forall (λ r, rb_out_channels r = Some (ddpm_ch a * m))
          (Ddpm.block d ++ Ddpm.block u)
      ∧ Forall (λ x, attn_channels x = ddpm_ch a * m) (Ddpm.attn d ++ Ddpm.attn u).
Proof.
  intros E HR.
  destruct (init_for_ddpm_Ret a net R E HR) as (Hl1 & Hl2 & Hdown & Hup & _).
  split; [done|]. split; [done|]. intros i d u m Hd Hu Hm.
  destruct (Hdown i d Hd) as (Hdo & _ & Hdr & Hda & _).
  destruct (Hup i u Hu) as (Huo & _ & Hur & Hua & _).
  unfold ddpm_level_out in *. rewrite Hm in *. simpl default in *.
  split. { apply (f_equal length) in Hdo. by rewrite length_fmap, length_replicate in Hdo. }
  split. { apply (f_equal length) in Huo. by rewrite length_fmap, length_replicate in Huo. }
  split.
  { destruct (Ddpm.resample d); simpl in Hdr; case_bool_decide; try done;
      split; try done; by intros []. }
  split.
  { destruct (Ddpm.resample u); simpl in Hur; case_decide; try done;
      split; try done; by intros []. }
  split; [|by apply Forall_app].
  apply Forall_app. split.
  - by eapply Forall_of_fmap_replicate.
  - by eapply Forall_of_fmap_replicate.
Qed.

Lemma ddpm_levels_are_stored_by_level_witness :
  ∃ net, Ddpm.init_for_ddpm ddpm_example = Ret net
    ∧ length (Ddpm.down net) = length (ddpm_ch_mult ddpm_example)
    ∧ length (Ddpm.up net) = length (ddpm_ch_mult ddpm_example)
    ∧ ∀ i d u m, Ddpm.down net !! i = Some d → Ddpm.up net !! i = Some u →
        ddpm_ch_mult ddpm_example !! i = Some m →
        length (Ddpm.block d) = 2 ∧ length (Ddpm.block u) = 2 + 1
        ∧ (is_Some (Ddpm.resample d) ↔ i + 1 ≠ length (ddpm_ch_mult ddpm_example))
        ∧ (is_Some (Ddpm.resample u) ↔ i ≠ 0)
        ∧ Forall (λ r, rb_out_channels r = Some (ddpm_ch ddpm_example * m))
            (Ddpm.block d ++ Ddpm.block u)
        ∧ Forall (λ x, attn_channels x = ddpm_ch ddpm_example * m)
            (Ddpm.attn d ++ Ddpm.attn u).
Proof.
  eexists. split; [vm_compute; reflexivity|].
  eapply (ddpm_levels_are_stored_by_level ddpm_example); reflexivity.
Defined.

Lemma out_width_replicate (l : list ResnetBlock2D) n w :
  rb_out_channels <$> l = replicate n (Some w) → out_width <$> l = replicate n w.
Proof.
  revert n. induction l as [|r l IH]; intros [|n] E; simpl in E; try done.
  injection E as Hr E. rewrite fmap_cons, (IH n E). unfold out_width. by rewrite Hr.
Qed.

(** X15: with at least one residual block per level, the DDPM topology is
    a U-Net on widths: each residual block of up level [i] is built for
    the output of the block before it (the middle, or the last block of
    the level above, for the first one) joined with a skip tensor, and the
    skip widths of the level are exactly what down level [i] produced,
    latest first: the outputs of its residual blocks in reverse order,
    then the tensor that entered the level (the output of [conv_in] or of
    the downsampler of the level before). *)
Theorem ddpm_up_level_takes_the_skips_of_its_down_level (a : DdpmArgs) (net : Ddpm.t)
    (R : nat) :
  Ddpm.init_for_ddpm a = Ret net → ddpm_num_res_blocks a = Some R → 1 ≤ R →
  ∀ i d u, Ddpm.down net !! i = Some d → Ddpm.up net !! i = Some u →
    ∃ prev entering,
      ddpm_before_up net i = Some prev
      ∧ ddpm_entering net i = Some entering
      ∧ rb_in_channels <$> Ddpm.block u
        = zip_with Nat.add (prev :: (out_width <$> Ddpm.block u))
            (reverse (out_width <$> Ddpm.block d) ++ [entering]).
Proof.
  intros E HR HR1 i d u Hd Hu.
  destruct (init_for_ddpm_Ret a net R E HR)
    as (Hl1 & Hl2 & Hdown & Hup & Hmid & _ & _ & Hcin & _).
  destruct (Hdown i d Hd) as (Hdo & _).
  destruct (Hup i u Hu) as (Huo & Hui & _).
  apply lookup_lt_Some in Hd as Hi. rewrite Hl1 in Hi.
  exists (if bool_decide (i + 1 = length (ddpm_ch_mult a))
          then ddpm_level_width a R (length (ddpm_ch_mult a) - 1)
          else ddpm_level_out a (i + 1)), (ddpm_level_in a i).
  split; [|split].
  - unfold ddpm_before_up. rewrite Hl2. case_bool_decide as Hc.
    + rewrite Hmid. reflexivity.
    + destruct (lookup_lt_is_Some_2 (Ddpm.up net) (i + 1)) as [u' Hu']; [lia|].
      rewrite Hu'. destruct (Hup _ u' Hu') as (Huo' & _).
      simpl.
      assert (last (rb_out_channels <$> Ddpm.block u')
              = Some (Some (ddpm_level_out a (i + 1)))) as Hlast.
      { rewrite Huo'. replace (R + 1) with (S R) by lia.
        rewrite replicate_S_end, last_snoc. done. }
      rewrite fmap_last in Hlast.
      destruct (last (Ddpm.block u')) as [r|]; [|done]. simpl in *.
      injection Hlast as Hlast. exact Hlast.
  - destruct i as [|i']; simpl.
    + unfold ddpm_level_in. simpl. rewrite Hcin. f_equal. lia.
    + destruct (lookup_lt_is_Some_2 (Ddpm.down net) i') as [d' Hd']; [lia|].
      rewrite Hd'. destruct (Hdown _ d' Hd') as (_ & _ & Hdr & _). simpl.
      rewrite bool_decide_eq_true_2 in Hdr by lia.
      destruct (Ddpm.resample d') as [ds|]; [|done]. simpl in *. injection Hdr as ->.
      unfold ddpm_level_width. destruct R; [lia|]. done.
  - rewrite Hui, (out_width_replicate _ _ _ Hdo), (out_width_replicate _ _ _ Huo).
    rewrite reverse_replicate.
    rewrite <- (zip_with_take_l _ (_ :: replicate (R + 1) _)).
    rewrite length_app, length_replicate. simpl length.
    replace (R + 1) with (S R) by lia. cbn [take].
    rewrite take_replicate. replace (R `min` S R) with R by lia. done.
Qed.

Lemma ddpm_up_level_takes_the_skips_of_its_down_level_witness :
  ∃ net, Ddpm.init_for_ddpm ddpm_example = Ret net
    ∧ ∀ i d u, Ddpm.down net !! i = Some d → Ddpm.up net !! i = Some u →
      ∃ prev entering,
        ddpm_before_up net i = Some prev
        ∧ ddpm_entering net i = Some entering
        ∧ rb_in_channels <$> Ddpm.block u
          = zip_with Nat.add (prev :: (out_width <$> Ddpm.block u))
              (reverse (out_width <$> Ddpm.block d) ++ [entering]).
Proof.
  eexists. split; [vm_compute; reflexivity|].
  eapply (ddpm_up_level_takes_the_skips_of_its_down_level ddpm_example _ 2);
    [reflexivity|reflexivity|lia].
Defined.

(** X16: the middle of the DDPM topology is built for the width that
    leaves the last down level; [self.mid_new] ends up holding the very
    three modules of [self.mid] (the ones its own constructor built are
    replaced); [self.norm_out] normalises over 32 groups the
    [ch * ch_mult[0]] channels that leave the up path, and [self.conv_out]
    maps them to [out_ch] channels. *)
Theorem ddpm_middle_and_output (a : DdpmArgs) (net : Ddpm.t) (R : nat) :
  Ddpm.init_for_ddpm a = Ret net → ddpm_num_res_blocks a = Some R →
  ∃ w m0,
    w = ddpm_level_width a R (length (ddpm_ch_mult a) - 1)
    ∧ ddpm_ch_mult a !! 0 = Some m0
    ∧ rb_in_channels (Ddpm.block_1 (Ddpm.mid net)) = w
    ∧ rb_out_channels (Ddpm.block_1 (Ddpm.mid net)) = Some w
    ∧ attn_channels (Ddpm.attn_1 (Ddpm.mid net)) = w
    ∧ rb_in_channels (Ddpm.block_2 (Ddpm.mid net)) = w
    ∧ rb_out_channels (Ddpm.block_2 (Ddpm.mid net)) = Some w
    ∧ Ddpm.mid_new net
      = UNetMidBlock2D.mk (Ddpm.block_1 (Ddpm.mid net)) (Ddpm.attn_1 (Ddpm.mid net))
          (Ddpm.block_2 (Ddpm.mid net))
    ∧ num_groups (Ddpm.norm_out net) = 32
    ∧ gn_num_channels (Ddpm.norm_out net) = ddpm_ch a * m0
    ∧ conv_in_channels (Ddpm.conv_out net) = ddpm_ch a * m0
    ∧ Some (conv_out_channels (Ddpm.conv_out net)) = ddpm_out_ch a.
Proof.
  intros E HR.
  destruct (init_for_ddpm_Ret a net R E HR)
    as (_ & _ & _ & _ & Hmid & Hnew & _ & _ & Hnorm & Hco & Hout).
  destruct (init_for_ddpm_accepted a net E) as (Hne & _).
  destruct (ddpm_ch_mult a) as [|m0 ms] eqn:Hms; [done|].
  eexists _, m0. split; [reflexivity|]. split; [done|].
  rewrite Hmid, Hnorm, Hco. unfold ddpm_level_out. rewrite Hms. simpl.
  repeat split; try done. by rewrite Hnew, Hmid.
Qed.

Lemma ddpm_middle_and_output_witness :
  ∃ net, Ddpm.init_for_ddpm ddpm_example = Ret net
    ∧ ∃ w m0,
    w = ddpm_level_width ddpm_example 2 (length (ddpm_ch_mult ddpm_example) - 1)
    ∧ ddpm_ch_mult ddpm_example !! 0 = Some m0
    ∧ rb_in_channels (Ddpm.block_1 (Ddpm.mid net)) = w
    ∧ rb_out_channels (Ddpm.block_1 (Ddpm.mid net)) = Some w
    ∧ attn_channels (Ddpm.attn_1 (Ddpm.mid net)) = w
    ∧ rb_in_channels (Ddpm.block_2 (Ddpm.mid net)) = w
    ∧ rb_out_channels (Ddpm.block_2 (Ddpm.mid net)) = Some w
    ∧ Ddpm.mid_new net
      = UNetMidBlock2D.mk (Ddpm.block_1 (Ddpm.mid net)) (Ddpm.attn_1 (Ddpm.mid net))
          (Ddpm.block_2 (Ddpm.mid net))
    ∧ num_groups (Ddpm.norm_out net) = 32
    ∧ gn_num_channels (Ddpm.norm_out net) = ddpm_ch ddpm_example * m0
    ∧ conv_in_channels (Ddpm.conv_out net) = ddpm_ch ddpm_example * m0
    ∧ Some (conv_out_channels (Ddpm.conv_out net)) = ddpm_out_ch ddpm_example.
Proof.
  eexists. split; [vm_compute; reflexivity|].
  eapply (ddpm_middle_and_output ddpm_example); reflexivity.
Defined.

(** ** The legacy LDM topology *)

Lemma Ldm_heads_run a ch nh :
  ldm_heads_ok a nh →
  ∃ nh' d, Ldm.heads a ch nh = Ret (nh', d) ∧ ldm_heads_ok a nh'.
Proof.
  unfold ldm_heads_ok, Ldm.heads, Ldm.floordiv. intros Hok.
  destruct (decide (Ldm.num_head_channels a = (-1)%Z)).
  - rewrite decide_False by done. simpl. eexists _, _. split; [done|]. done.
  - rewrite decide_False by done. simpl. eexists _, _. split; [done|]. done.
Qed.

Lemma Ldm_heads_Ret a ch nh nh' d :
  Ldm.heads a ch nh = Ret (nh', d) →
  ldm_heads_ok a nh ∧ (Ldm.num_head_channels a = (-1)%Z → nh' = nh).
Proof.
  unfold ldm_heads_ok, Ldm.heads, Ldm.floordiv. intros E.
  destruct (decide (Ldm.num_head_channels a = (-1)%Z)).
  - destruct (decide (nh = 0%Z)); [discriminate E|]. simpl in E.
    injection E as <- _. done.
  - destruct (decide (Ldm.num_head_channels a = 0%Z)); [discriminate E|]. done.
Qed.

Lemma Ldm_input_res_blocks_run a mult n ib fs chans ch ds nh :
  ldm_heads_ok a nh →
  ∃ new fs' nh',
    Ldm.input_res_blocks a mult n (ib, fs, chans, ch, ds, nh)
    = Ret (ib ++ new, fs', chans ++ (ldm_out_width <$> new),
           (if n is 0 then ch else mult * Ldm.model_channels a), ds, nh')
    ∧ length new = n
    ∧ ldm_heads_ok a nh'
    ∧ ldm_is_down <$> new = replicate n false
    ∧ ldm_out_width <$> new = replicate n (mult * Ldm.model_channels a).
Proof.
  revert ib fs chans ch nh. induction n as [|n IH]; intros ib fs chans ch nh Hok.
  - exists [], fs, nh. rewrite !app_nil_r. done.
  - cbn [Ldm.input_res_blocks]. cbv zeta.
    set (w := mult * Ldm.model_channels a).
    set (path := "input_blocks." +:+ pretty (length ib)).
    assert (∃ layers nh1,
      (if contains ds (Ldm.attention_resolutions a)
       then '(num_heads, dim_head) ← Ldm.heads a w nh;
            mret ([Ldm.LRes (Ldm.resnet a (path +:+ ".0") ch (Some w))] ++
                  [Ldm.LAttn (Ldm.mkAttention w num_heads (Some dim_head)
                                (path +:+ ".1"))], num_heads)
       else mret ([Ldm.LRes (Ldm.resnet a (path +:+ ".0") ch (Some w))], nh))
      = Ret (layers, nh1)
      ∧ ldm_out_width layers = w ∧ ldm_is_down layers = false
      ∧ ldm_heads_ok a nh1) as (layers & nh1 & -> & Hw & Hd & Hok1).
    { destruct (contains ds (Ldm.attention_resolutions a)).
      - destruct (Ldm_heads_run a w nh Hok) as (nh' & d & -> & Hok').
        eexists _, _. split; [done|]. done.
      - eexists _, _. split; [done|]. done. }
    rewrite ret_bind. cbv beta iota.
    destruct (IH (ib ++ [layers]) (fs + w) (chans ++ [w]) w nh1 Hok1)
      as (new & fs' & nh' & E & Hlen & Hok' & Hdown & Hout).
    rewrite E. exists (layers :: new), fs', nh'.
    rewrite <- !(assoc_L (++)), !fmap_cons, Hw, Hd, Hdown, Hout. simpl.
    split; [by destruct n|]. split; [by rewrite Hlen|done].
Qed.

Lemma sum_list_cons (x : nat) (l : list nat) : sum_list (x :: l) = x + sum_list l.
Proof. reflexivity. Qed.

Lemma Ldm_input_levels_run a R levels ib fs chans ch ds nh :
  (levels ≠ [] → Ldm.num_res_blocks a = Some R) →
  ldm_heads_ok a nh →
  ∃ new fs' ch' ds' nh',
    Ldm.input_levels a levels (ib, fs, chans, ch, ds, nh)
    = Ret (ib ++ new, fs', chans ++ (ldm_out_width <$> new), ch', ds', nh')
    ∧ length new
      = sum_list ((λ i, R + (if bool_decide (i + 1 ≠ length (Ldm.channel_mult a))
                             then 1 else 0)) <$> levels.*1)
    ∧ ldm_heads_ok a nh'
    ∧ ldm_is_down <$> new = concat ((λ lm, ldm_input_level a R lm.1) <$> levels)
    ∧ (1 ≤ R →
       ldm_out_width <$> new
       = concat ((λ lm, (λ _, lm.2 * Ldm.model_channels a) <$> ldm_input_level a R lm.1)
                   <$> levels)).
Proof.
  revert ib fs chans ch ds nh.
  induction levels as [|[level mult] levels IH]; intros ib fs chans ch ds nh HR Hok.
  - exists [], fs, ch, ds, nh. rewrite !app_nil_r. done.
  - cbn [Ldm.input_levels]. rewrite HR by done. cbn [require_some]. rewrite ret_bind.
    destruct (Ldm_input_res_blocks_run a mult R ib fs chans ch ds nh Hok)
      as (new1 & fs1 & nh1 & E1 & Hlen1 & Hok1 & Hdown1 & Hout1).
    rewrite E1, ret_bind. cbv beta iota zeta.
    set (ch1 := if R is 0 then ch else mult * Ldm.model_channels a).
    case_bool_decide as Hlast.
    + match goal with |- context [Ldm.input_levels a levels ((ib ++ new1) ++ [?b], _, _, _, _, _)] =>
        set (blk := b)
      end.
      destruct (IH ((ib ++ new1) ++ [blk]) (fs1 + ch1)
                  ((chans ++ (ldm_out_width <$> new1)) ++ [ch1]) ch1 (ds * 2) nh1)
        as (new & fs' & ch' & ds' & nh' & E & Hlen & Hok' & Hdown & Hout);
        [intros ?; apply HR; done|done|].
      rewrite E. exists (new1 ++ blk :: new), fs', ch', ds', nh'.
      split.
      { rewrite !fmap_app, fmap_cons. rewrite <- !(assoc_L (++)). done. }
      split.
      { rewrite length_app. cbn [length]. rewrite Hlen, Hlen1.
        rewrite !fmap_cons, sum_list_cons. cbn [fst].
        rewrite bool_decide_eq_true_2 by done. lia. }
      split; [done|].
      rewrite !fmap_app, !fmap_cons, Hdown1, Hout1, Hdown. cbn [concat fst snd].
      assert (ldm_input_level a R level = replicate R false ++ [true]) as ->.
      { unfold ldm_input_level. by rewrite bool_decide_eq_true_2. }
      rewrite fmap_app, fmap_replicate, <- !(assoc_L (++)).
      split; [done|]. intros HR1. rewrite (Hout HR1). unfold blk, ch1. simpl.
      destruct R; [lia|]. done.
    + destruct (IH (ib ++ new1) fs1 (chans ++ (ldm_out_width <$> new1)) ch1 ds nh1)
        as (new & fs' & ch' & ds' & nh' & E & Hlen & Hok' & Hdown & Hout);
        [intros ?; apply HR; done|done|].
      rewrite E. exists (new1 ++ new), fs', ch', ds', nh'.
      split.
      { rewrite !fmap_app. rewrite <- !(assoc_L (++)). done. }
      split.
      { rewrite length_app. rewrite Hlen, Hlen1.
        rewrite !fmap_cons, sum_list_cons. cbn [fst].
        rewrite bool_decide_eq_false_2 by lia. lia. }
      split; [done|].
      rewrite !fmap_app, !fmap_cons, Hdown1, Hout1, Hdown. cbn [concat fst snd].
      assert (ldm_input_level a R level = replicate R false) as ->.
      { unfold ldm_input_level. rewrite bool_decide_eq_false_2 by lia.
        by rewrite app_nil_r. }
      rewrite fmap_replicate.
      split; [done|]. intros HR1. by rewrite (Hout HR1).
Qed.

Lemma Ldm_output_res_blocks_run a level mult R n :
  ∀ i ob fs base part ch ds nh,
  length part = n → ldm_heads_ok a nh → i + n = R + 1 →
  ∃ new fs' ds' nh',
    Ldm.output_res_blocks a level mult R i n (ob, fs, base ++ part, ch, ds, nh)
    = Ret (ob ++ new, fs', base, (if n is 0 then ch else Ldm.model_channels a * mult),
           ds', nh')
    ∧ length new = n
    ∧ ldm_in_width <$> new
      = zip_with Nat.add (ch :: replicate (n - 1) (Ldm.model_channels a * mult))
          (reverse part)
    ∧ ldm_out_width <$> new = replicate n (Ldm.model_channels a * mult)
    ∧ ldm_heads_ok a nh'
    ∧ ldm_has_up <$> new
      = (if n is S n' then replicate n' false ++ [bool_decide (level ≠ 0)] else []).
Proof.
  induction n as [|n IH]; intros i ob fs base part ch ds nh Hlen Hok Hi.
  - apply nil_length_inv in Hlen as ->. exists [], fs, ds, nh. rewrite !app_nil_r. done.
  - destruct part as [|x part' _] using rev_ind; [done|].
    rewrite length_app in Hlen. simpl in Hlen.
    cbn [Ldm.output_res_blocks]. cbv zeta.
    rewrite (assoc_L (++)), last_snoc, removelast_last, ret_bind.
    set (w := Ldm.model_channels a * mult).
    set (path := "output_blocks." +:+ pretty (length ob)).
    set (r := Ldm.LRes (Ldm.resnet a (path +:+ ".0") (ch + x) (Some w))).
    assert (∃ layers nh1,
      (if contains ds (Ldm.attention_resolutions a)
       then '(num_heads, dim_head) ← Ldm.heads a w nh;
            mret ([r] ++ [Ldm.LAttn (Ldm.mkAttention w (-1) (Some dim_head)
                                       (path +:+ "." +:+ pretty (length [r])))],
                  num_heads)
       else mret ([r], nh)) = Ret (r :: layers, nh1)
      ∧ ldm_heads_ok a nh1
      ∧ ldm_has_up (r :: layers ++ []) = false
      ∧ ∀ u, ldm_has_up ((r :: layers) ++ [Ldm.LUp u]) = true)
      as (layers & nh1 & -> & Hok1 & Hnoup & Hup).
    { destruct (contains ds (Ldm.attention_resolutions a)).
      - destruct (Ldm_heads_run a w nh Hok) as (nh' & d & -> & Hok').
        eexists _, _. split; [done|]. done.
      - eexists _, _. split; [done|]. done. }
    rewrite app_nil_r in Hnoup.
    rewrite ret_bind. cbv beta iota.
    assert (∀ new, (n = 0 → new = []) →
              length new = n →
              ldm_in_width <$> new
              = zip_with Nat.add (w :: replicate (n - 1) w) (reverse part') →
              (ch + x) :: (ldm_in_width <$> new)
              = zip_with Nat.add (ch :: replicate (S n - 1) w) (reverse (part' ++ [x])))
      as Hzip.
    { intros new Hn0 Hln Hin. rewrite reverse_app. simpl. f_equal.
      rewrite Hin, Nat.sub_0_r. destruct n as [|n']; [|simpl; by rewrite Nat.sub_0_r].
      assert (part' = []) as -> by (apply nil_length_inv; lia). done. }
    destruct (bool_decide (level ≠ 0) && bool_decide (i = R)) eqn:Hb; cbv beta iota.
    + apply andb_prop in Hb as [Hb1 Hb2].
      apply bool_decide_eq_true in Hb1, Hb2.
      assert (n = 0) as -> by lia.
      match goal with |- context [Ldm.output_res_blocks a level mult R (S i) 0
                                    (ob ++ [?blk], ?fs1, _, _, ?ds1, _)] =>
        destruct (IH (S i) (ob ++ [blk]) fs1 base part' w ds1 nh1)
          as (new & fs' & ds' & nh' & E & Hlen' & Hin & Hout & Hok' & Hhas);
          [lia|done|lia|];
        exists (blk :: new), fs', ds', nh'
      end.
      split; [by rewrite E, <- !(assoc_L (++))|].
      split; [simpl; by rewrite Hlen'|].
      rewrite !fmap_cons, Hout, Hhas, Hup.
      split; [by apply Hzip; [intros _; by apply nil_length_inv| |]|].
      split; [done|]. split; [done|]. simpl. by rewrite bool_decide_eq_true_2.
    + match goal with |- context [Ldm.output_res_blocks a level mult R (S i) n
                                    (ob ++ [?blk], ?fs1, _, _, ?ds1, _)] =>
        destruct (IH (S i) (ob ++ [blk]) fs1 base part' w ds1 nh1)
          as (new & fs' & ds' & nh' & E & Hlen' & Hin & Hout & Hok' & Hhas);
          [lia|done|lia|];
        exists (blk :: new), fs', ds', nh'
      end.
      split; [rewrite E, <- !(assoc_L (++)); by destruct n|].
      split; [simpl; by rewrite Hlen'|].
      rewrite !fmap_cons, Hout, Hhas, Hnoup.
      split; [by apply Hzip; [intros ->; by apply nil_length_inv| |]|].
      split; [done|]. split; [done|].
      destruct n as [|n']; [|done]. simpl. f_equal.
      apply andb_false_iff in Hb as [Hb|Hb]; apply bool_decide_eq_false in Hb.
      * by rewrite bool_decide_eq_false_2.
      * lia.
Qed.

Lemma Ldm_output_levels_run a R levels :
  ∀ ob fs base part ch ds nh,
  (levels ≠ [] → Ldm.num_res_blocks a = Some R) →
  length part = length levels * (R + 1) → ldm_heads_ok a nh →
  ∃ new fs' ch' ds' nh',
    Ldm.output_levels a levels (ob, fs, base ++ part, ch, ds, nh)
    = Ret (ob ++ new, fs', base, ch', ds', nh')
    ∧ length new = length part
    ∧ ldm_in_width <$> new
      = zip_with Nat.add (ch :: (ldm_out_width <$> new)) (reverse part)
    ∧ ldm_has_up <$> new = concat ((λ lm, ldm_output_level R lm.1) <$> levels)
    ∧ ldm_out_width <$> new
      = concat ((λ lm, replicate (R + 1) (Ldm.model_channels a * lm.2)) <$> levels).
Proof.
  induction levels as [|[level mult] levels IH];
    intros ob fs base part ch ds nh HR Hlen Hok.
  - simpl in Hlen. apply nil_length_inv in Hlen as ->.
    exists [], fs, ch, ds, nh. rewrite !app_nil_r. done.
  - cbn [Ldm.output_levels]. rewrite HR by done. cbn [require_some]. rewrite ret_bind.
    cbn [length] in Hlen.
    rewrite <- (take_drop (length levels * (R + 1)) part).
    set (part2 := take (length levels * (R + 1)) part).
    set (part1 := drop (length levels * (R + 1)) part).
    assert (length part2 = length levels * (R + 1)) as Hl2.
    { unfold part2. rewrite length_take. lia. }
    assert (length part1 = R + 1) as Hl1.
    { unfold part1. rewrite length_drop. lia. }
    rewrite (assoc_L (++)).
    destruct (Ldm_output_res_blocks_run a level mult R (R + 1) 0 ob fs (base ++ part2)
                part1 ch ds nh Hl1 Hok)
      as (new1 & fs1 & ds1 & nh1 & E1 & Hlen1 & Hin1 & Hout1 & Hok1 & Hhas1); [lia|].
    rewrite E1, ret_bind.
    replace (R + 1) with (S R) in E1, Hin1, Hout1, Hhas1 by lia.
    replace (R + 1) with (S R) by lia.
    destruct (IH (ob ++ new1) fs1 base part2 (Ldm.model_channels a * mult) ds1 nh1)
      as (new2 & fs' & ch' & ds' & nh' & E2 & Hlen2 & Hin2 & Hhas2 & Hout2);
      [intros ?; apply HR; done|lia|done|].
    rewrite E2. exists (new1 ++ new2), fs', ch', ds', nh'.
    split; [by rewrite (assoc_L (++))|].
    split; [rewrite !length_app; lia|].
    split;
      [|rewrite !fmap_app, !fmap_cons, Hhas1, Hhas2, Hout1, Hout2; cbn [concat fst snd];
        by rewrite Nat.add_1_r].
    rewrite !fmap_app, Hin1, Hin2, Hout1, reverse_app.
    replace (S R - 1) with R by lia.
    rewrite replicate_S_end, <- (assoc_L (++)).
    change (ch :: replicate R (Ldm.model_channels a * mult)
                  ++ [Ldm.model_channels a * mult] ++ (ldm_out_width <$> new2))
      with ((ch :: replicate R (Ldm.model_channels a * mult))
            ++ (Ldm.model_channels a * mult :: (ldm_out_width <$> new2))).
    symmetry. apply zip_with_app.
    rewrite length_reverse, Hl1. simpl. rewrite length_replicate. lia.
Qed.

Lemma enumerate_from_fst {A} i (l : list A) :
  (Ldm.enumerate_from i l).*1 = seq i (length l).
Proof. revert i. induction l as [|x l IH]; intros i; simpl; [done|]. by rewrite IH. Qed.

Lemma enumerate_length {A} (l : list A) : length (Ldm.enumerate l) = length l.
Proof.
  unfold Ldm.enumerate. rewrite <- (length_fmap fst), enumerate_from_fst.
  apply length_seq.
Qed.

Lemma init_for_ldm_run a R :
  ldm_buildable a →
  (Ldm.channel_mult a ≠ [] → Ldm.num_res_blocks a = Some R) →
  ∃ net, Ldm.init_for_ldm a = Ret net
    ∧ (Ldm.channel_mult a ≠ [] →
       let n := length (Ldm.channel_mult a) * (R + 1) in
       length (Ldm.input_blocks net) = n
       ∧ length (Ldm.output_blocks net) = n
       ∧ ldm_in_width <$> Ldm.output_blocks net
         = zip_with Nat.add
             (ldm_in_width (Ldm.middle_block net)
                :: (ldm_out_width <$> Ldm.output_blocks net))
             (reverse (ldm_out_width <$> Ldm.input_blocks net))
       ∧ ldm_is_down <$> Ldm.input_blocks net
         = false :: concat ((λ lm, ldm_input_level a R lm.1)
                              <$> Ldm.enumerate (Ldm.channel_mult a))
       ∧ (1 ≤ R →
          ldm_out_width <$> Ldm.input_blocks net
          = Ldm.model_channels a
            :: concat ((λ lm, (λ _, lm.2 * Ldm.model_channels a)
                                <$> ldm_input_level a R lm.1)
                         <$> Ldm.enumerate (Ldm.channel_mult a)))
       ∧ ldm_has_up <$> Ldm.output_blocks net
         = concat ((λ lm, ldm_output_level R lm.1)
                     <$> reverse (Ldm.enumerate (Ldm.channel_mult a)))
       ∧ ldm_out_width <$> Ldm.output_blocks net
         = concat ((λ lm, replicate (R + 1) (Ldm.model_channels a * lm.2))
                     <$> reverse (Ldm.enumerate (Ldm.channel_mult a)))).
Proof.
  intros ([ic Hic] & [oc Hoc] & _ & Hok) HR.
  unfold Ldm.init_for_ldm, nn_Conv2d. cbv zeta. rewrite Hic, Hoc.
  cbn [require_some]. rewrite !ret_bind.
  set (L := length (Ldm.channel_mult a)).
  match goal with |- context [Ldm.input_levels a _ (?ib, ?fs, ?chans, ?ch, ?ds, ?nh)] =>
    destruct (Ldm_input_levels_run a R (Ldm.enumerate (Ldm.channel_mult a))
                ib fs chans ch ds nh)
      as (new & fs' & ch' & ds' & nh' & E1 & Hlen1 & Hok1 & Hdown1 & Hout1); [|done|]
  end.
  { intros Hne. apply HR. intros Hnil. apply Hne. by rewrite Hnil. }
  rewrite E1, ret_bind. cbv beta iota.
  destruct (Ldm_heads_run a ch' nh' Hok1) as (nh2 & d & E2 & Hok2).
  rewrite E2, ret_bind. cbv beta iota.
  unfold Ldm.enumerate in Hlen1. rewrite enumerate_from_fst in Hlen1. fold L in Hlen1.
  rewrite sum_list_levels, bool_decide_eq_true_2 in Hlen1 by done.
  destruct (decide (Ldm.channel_mult a = [])) as [Hnil|Hne].
  - rewrite Hnil. simpl. eexists. split; [done|]. done.
  - assert (0 < L) as Hpos.
    { unfold L. destruct (Ldm.channel_mult a); [done|simpl; lia]. }
    specialize (HR Hne).
    match goal with |- context [Ldm.output_levels a ?lv ([], ?fs1, ?chans, _, _, _)] =>
      destruct (Ldm_output_levels_run a R lv [] fs1 [] chans ch' ds' nh2)
        as (out & fs3 & ch3 & ds3 & nh3 & E3 & Hlen3 & Hin3 & Hhas3 & Hout3);
        [done| |done|]
    end.
    { rewrite length_reverse, enumerate_length. fold L.
      rewrite length_app, length_fmap, Hlen1. simpl. lia. }
    rewrite !app_nil_l in E3. rewrite E3, ret_bind. cbv beta iota. rewrite ret_bind.
    eexists. split; [done|]. intros _.
    cbn [Ldm.input_blocks Ldm.output_blocks Ldm.middle_block ldm_in_width
         Ldm.resnet rb_in_channels].
    rewrite length_app, length_fmap, Hlen1 in Hlen3. simpl in Hlen3.
    fold L. split; [rewrite length_app, Hlen1; simpl; lia|].
    split; [lia|]. split; [by rewrite Hin3|].
    split; [by rewrite fmap_app, Hdown1|].
    split; [intros HR1; by rewrite fmap_app, (Hout1 HR1)|]. done.
Qed.

Lemma Ldm_input_res_blocks_heads a mult n st st' :
  Ldm.input_res_blocks a mult n st = Ret st' →
  Ldm.num_head_channels a = (-1)%Z → st'.2 = st.2.
Proof.
  revert st. induction n as [|n IH]; intros st E Hm1; cbn [Ldm.input_res_blocks] in E.
  - by injection E as <-.
  - destruct st as [[[[[ib fs] chans] ch] ds] nh]. cbv zeta in E.
    apply bind_Ret in E as ([layers nh1] & Hl & E).
    apply IH in E; [|done]. rewrite E. simpl.
    destruct (contains ds (Ldm.attention_resolutions a)); [|by injection Hl].
    apply bind_Ret in Hl as ([nh2 d] & Hh & Hl). injection Hl as _ <-.
    apply Ldm_heads_Ret in Hh as [_ Hh]. by apply Hh.
Qed.

Lemma Ldm_input_levels_heads a levels st st' :
  Ldm.input_levels a levels st = Ret st' →
  Ldm.num_head_channels a = (-1)%Z → st'.2 = st.2.
Proof.
  revert st. induction levels as [|[level mult] levels IH]; intros st E Hm1;
    cbn [Ldm.input_levels] in E.
  - by injection E as <-.
  - apply bind_Ret in E as (R & _ & E).
    apply bind_Ret in E as (st1 & E1 & E).
    apply Ldm_input_res_blocks_heads in E1; [|done].
    destruct st1 as [[[[[ib fs] chans] ch] ds] nh]. cbv zeta in E.
    apply IH in E; [|done]. rewrite E, <- E1. by case_bool_decide.
Qed.

Lemma init_for_ldm_accepted a net : Ldm.init_for_ldm a = Ret net → ldm_buildable a.
Proof.
  unfold Ldm.init_for_ldm. cbv zeta. intros E.
  apply bind_Ret in E as (conv & Hconv & E).
  apply bind_Ret in E as (st & Hin & E).
  destruct st as [[[[[ib fs] chans] ch] ds] nh].
  apply bind_Ret in E as ([nh' d] & Hh & E).
  apply bind_Ret in E as (st2 & _ & E).
  destruct st2 as [[[[[ob fs2] chans2] ch2] ds2] nh2].
  apply bind_Ret in E as (cout & Hcout & _).
  unfold nn_Conv2d in Hconv, Hcout.
  apply bind_Ret in Hconv as (ic & Hic & _). apply require_some_Ret in Hic.
  apply bind_Ret in Hcout as (? & _ & Hcout).
  apply bind_Ret in Hcout as (oc & Hoc & _). apply require_some_Ret in Hoc.
  unfold ldm_buildable. rewrite Hic, Hoc. split; [done|]. split; [done|]. split.
  - destruct (Ldm.channel_mult a) as [|m ms]; [done|]. intros _.
    cbn [Ldm.enumerate Ldm.enumerate_from Ldm.input_levels] in Hin.
    apply bind_Ret in Hin as (R & HR & _). apply require_some_Ret in HR. by rewrite HR.
  - apply Ldm_heads_Ret in Hh as [Hok _].
    pose proof (Ldm_input_levels_heads _ _ _ _ Hin) as Hnh. simpl in Hnh.
    unfold ldm_heads_ok in *. case_decide; [|done]. by rewrite <- Hnh.
Qed.

(** X17: as far as the code of this file goes, [init_for_ldm] builds the
    legacy LDM topology exactly when [in_channels] and [out_channels] are
    given, [num_res_blocks] is given unless [channel_mult] is empty, and
    the head computation does not divide by zero: [num_heads] is not 0 if
    [num_head_channels] is -1, and [num_head_channels] is not 0 otherwise
    (the computation runs before the middle block whatever
    [attention_resolutions] holds). In particular [input_block_chans]
    always balances: no [input_block_chans.pop()] meets an empty list. *)
Theorem init_for_ldm_returns_iff (a : Ldm.Args) :
  returns (Ldm.init_for_ldm a) ↔ ldm_buildable a.
Proof.
  split.
  - intros [net E]. by eapply init_for_ldm_accepted.
  - intros Hb.
    destruct (init_for_ldm_run a (default 0 (Ldm.num_res_blocks a)) Hb) as (net & E & _).
    + intros Hne. destruct Hb as (_ & _ & HR & _).
      destruct (HR Hne) as [R ->]. done.
    + by exists net.
Qed.

(** X18: with at least one level, [self.input_blocks] and
    [self.output_blocks] have the same number of entries,
    [len(channel_mult) * (num_res_blocks + 1)], and they pair up from the
    two ends: the residual block at the head of output block [k] is built
    for the output of the block before it (the middle block for the first)
    joined with the output of input block [n - 1 - k]. *)
Theorem ldm_output_blocks_pair_with_input_blocks (a : Ldm.Args) (net : Ldm.t) (R : nat) :
  Ldm.init_for_ldm a = Ret net → Ldm.channel_mult a ≠ [] →
  Ldm.num_res_blocks a = Some R →
  let n := length (Ldm.channel_mult a) * (R + 1) in
  length (Ldm.input_blocks net) = n
  ∧ length (Ldm.output_blocks net) = n
  ∧ ldm_in_width <$> Ldm.output_blocks net
    = zip_with Nat.add
        (ldm_in_width (Ldm.middle_block net) :: (ldm_out_width <$> Ldm.output_blocks net))
        (reverse (ldm_out_width <$> Ldm.input_blocks net)).
Proof.
  intros E Hne HR.
  destruct (init_for_ldm_run a R (init_for_ldm_accepted a net E)) as (net' & E' & Hnet);
    [done|].
  assert (net' = net) as -> by congruence.
  destruct (Hnet Hne) as (H1 & H2 & H3 & _). done.
Qed.

Lemma ldm_output_blocks_pair_with_input_blocks_witness :
  ∃ net, Ldm.init_for_ldm ldm_example = Ret net
    ∧ let n := length (Ldm.channel_mult ldm_example) * (2 + 1) in
      length (Ldm.input_blocks net) = n
      ∧ length (Ldm.output_blocks net) = n
      ∧ ldm_in_width <$> Ldm.output_blocks net
        = zip_with Nat.add
            (ldm_in_width (Ldm.middle_block net)
               :: (ldm_out_width <$> Ldm.output_blocks net))
            (reverse (ldm_out_width <$> Ldm.input_blocks net)).
Proof.
  eexists. split; [vm_compute; reflexivity|].
  eapply (ldm_output_blocks_pair_with_input_blocks ldm_example); [reflexivity|done|reflexivity].
Defined.

(** X19: the blocks of the LDM topology come level by level. After the
    input convolution, each level adds [num_res_blocks] residual blocks to
    [self.input_blocks], then one downsampler unless it is the last level;
    taken from the last level to the first, each level adds
    [num_res_blocks + 1] residual blocks to [self.output_blocks], the last
    of which ends in an upsampler unless the level is 0. Every block of
    level [l] emits [channel_mult[l] * model_channels] channels (the
    downsamplers too, provided each level has a residual block). *)
Theorem ldm_blocks_come_level_by_level (a : Ldm.Args) (net : Ldm.t) (R : nat) :
  Ldm.init_for_ldm a = Ret net → Ldm.channel_mult a ≠ [] →
  Ldm.num_res_blocks a = Some R →
  let levels := Ldm.enumerate (Ldm.channel_mult a) in
  ldm_is_down <$> Ldm.input_blocks net
  = false :: concat ((λ lm, ldm_input_level a R lm.1) <$> levels)
  ∧ (1 ≤ R →
     ldm_out_width <$> Ldm.input_blocks net
     = Ldm.model_channels a
       :: concat ((λ lm, (λ _, lm.2 * Ldm.model_channels a) <$> ldm_input_level a R lm.1)
                    <$> levels))
  ∧ ldm_has_up <$> Ldm.output_blocks net
    = concat ((λ lm, ldm_output_level R lm.1) <$> reverse levels)
  ∧ ldm_out_width <$> Ldm.output_blocks net
    = concat ((λ lm, replicate (R + 1) (Ldm.model_channels a * lm.2)) <$> reverse levels).
Proof.
  intros E Hne HR.
  destruct (init_for_ldm_run a R (init_for_ldm_accepted a net E)) as (net' & E' & Hnet);
    [done|].
  assert (net' = net) as -> by congruence.
  destruct (Hnet Hne) as (_ & _ & _ & H1 & H2 & H3 & H4). done.
Qed.

Lemma ldm_blocks_come_level_by_level_witness :
  ∃ net, Ldm.init_for_ldm ldm_example = Ret net
    ∧ let levels := Ldm.enumerate (Ldm.channel_mult ldm_example) in
      ldm_is_down <$> Ldm.input_blocks net
      = false :: concat ((λ lm, ldm_input_level ldm_example 2 lm.1) <$> levels)
      ∧ (1 ≤ 2 →
         ldm_out_width <$> Ldm.input_blocks net
         = Ldm.model_channels ldm_example
           :: concat ((λ lm, (λ _, lm.2 * Ldm.model_channels ldm_example)
                               <$> ldm_input_level ldm_example 2 lm.1) <$> levels))
      ∧ ldm_has_up <$> Ldm.output_blocks net
        = concat ((λ lm, ldm_output_level 2 lm.1) <$> reverse levels)
      ∧ ldm_out_width <$> Ldm.output_blocks net
        = concat ((λ lm, replicate (2 + 1) (Ldm.model_channels ldm_example * lm.2))
                    <$> reverse levels).
Proof.
  eexists. split; [vm_compute; reflexivity|].
  eapply (ldm_blocks_come_level_by_level ldm_example); [reflexivity|done|reflexivity].
Defined.

(** ** What [__init__] passes to the legacy initialisers *)

Lemma floor_multiple (b c : nat) : c ≠ 0 → b / c * c = b - b mod c.
Proof. intros Hc. pose proof (Nat.div_mod_eq b c). lia. Qed.

Section LegacyCalls.
Context `{LegacyMigration}.

(** X20: with [ldm] set, [__init__] calls [init_for_ldm] with
    [model_channels = block_channels[0]], [time_embed_dim] four times
    that, and the multipliers [block_channels[i] // block_channels[0]]: the
    width [multiplier * model_channels] of level [i] of the LDM topology is
    [block_channels[i]] rounded down to a multiple of [block_channels[0]].
    The other arguments are the rebound locals and the arguments of
    [__init__] of the same names. *)
Theorem ldm_topology_gets_rounded_widths (a : Args.t) (self : t) (locals : Locals)
    (c0 : nat) (bc : list nat) :
  Args.ldm a = true → l_block_channels locals = c0 :: bc → c0 ≠ 0 →
  ∃ d, init_legacy a self locals = init_for_ldm self d
    ∧ ldm_model_channels d = c0 ∧ ldm_time_embed_dim d = c0 * 4
    ∧ length (ldm_channel_mult d) = length (c0 :: bc)
    ∧ (∀ i b m, (c0 :: bc) !! i = Some b → ldm_channel_mult d !! i = Some m →
         m * ldm_model_channels d = b - b mod c0)
    ∧ ldm_in_channels d = l_in_channels locals
    ∧ ldm_out_channels d = l_out_channels locals
    ∧ ldm_conv_resample d = l_conv_resample locals
    ∧ ldm_num_res_blocks d = Args.num_res_blocks a
    ∧ ldm_attention_resolutions d = Args.attention_resolutions a
    ∧ ldm_num_head_channels d = Args.num_head_channels a
    ∧ ldm_dropout d = Args.dropout a.
Proof.
  intros Hldm Hbc Hc0. unfold init_legacy. rewrite Hldm, Hbc. cbv zeta.
  rewrite (getitem_lookup _ 0 c0) by done. rewrite ret_bind.
  unfold floordiv_list. rewrite decide_False by done. rewrite ret_bind.
  eexists. split; [reflexivity|]. cbn [ldm_model_channels ldm_time_embed_dim
    ldm_channel_mult ldm_in_channels ldm_out_channels ldm_conv_resample
    ldm_num_res_blocks ldm_attention_resolutions ldm_num_head_channels ldm_dropout].
  split; [done|]. split; [done|]. split; [by rewrite length_map|].
  split; [|done].
  intros i b m Hb Hm. change (map ?f ?l) with (f <$> l) in Hm.
  rewrite list_lookup_fmap, Hb in Hm. injection Hm as <-.
  by apply floor_multiple.
Qed.

(** X21: with [ddpm] set and [ldm] not, [__init__] calls [init_for_ddpm]
    with [ch * ch_mult[0]] as the base width and the multipliers
    [(ch * ch_mult[i]) // (ch * ch_mult[0])]: the width of level [i] of the
    DDPM topology is [ch * ch_mult[i]] rounded down to a multiple of
    [ch * ch_mult[0]], whatever [block_channels], from which the block
    graph is built, holds. [out_ch], [resolution] and [attn_resolutions]
    are passed as given, [in_channels] is the rebound local. *)
Theorem ddpm_topology_gets_rounded_widths (a : Args.t) (self : t) (locals : Locals)
    (c m0 : nat) (ms : list nat) :
  Args.ldm a = false → Args.ddpm a = true →
  Args.ch a = Some c → Args.ch_mult a = Some (m0 :: ms) → c * m0 ≠ 0 →
  ∃ d, init_legacy a self locals = init_for_ddpm self d
    ∧ ddpm_ch d = c * m0
    ∧ length (ddpm_ch_mult d) = length (m0 :: ms)
    ∧ (∀ i m m', (m0 :: ms) !! i = Some m → ddpm_ch_mult d !! i = Some m' →
         ddpm_ch d * m' = c * m - (c * m) mod (c * m0))
    ∧ ddpm_in_channels d = l_in_channels locals
    ∧ ddpm_out_ch d = Args.out_ch a
    ∧ ddpm_resolution d = Args.resolution a
    ∧ ddpm_attn_resolutions d = Args.attn_resolutions a
    ∧ ddpm_resamp_with_conv d = Args.resamp_with_conv a
    ∧ ddpm_num_res_blocks d = Args.num_res_blocks a.
Proof.
  intros Hldm Hddpm Hch Hms Hc. unfold init_legacy. rewrite Hldm, Hddpm, Hch, Hms.
  cbv zeta. unfold scale_list. rewrite ret_bind.
  cbn [map]. rewrite (getitem_lookup _ 0 (c * m0)) by done. rewrite ret_bind.
  unfold floordiv_list. rewrite decide_False by done. rewrite ret_bind.
  eexists. split; [reflexivity|]. cbn [ddpm_ch ddpm_ch_mult ddpm_in_channels ddpm_out_ch
    ddpm_resolution ddpm_attn_resolutions ddpm_resamp_with_conv ddpm_num_res_blocks].
  split; [done|]. split; [rewrite length_map; simpl; by rewrite length_map|].
  split; [|done].
  intros i m m' Hm Hm'.
  change (c * m0 :: map (λ x, c * x) ms) with ((λ x, c * x) <$> (m0 :: ms)) in Hm'.
  change (map ?f ?l) with (f <$> l) in Hm'.
  rewrite !list_lookup_fmap, Hm in Hm'. injection Hm' as <-.
  rewrite Nat.mul_comm. by apply floor_multiple.
Qed.

End LegacyCalls.

Section LegacyCallsExamples.
Import Trace.

Lemma ldm_topology_gets_rounded_widths_witness :
  ∃ self locals,
    init_block_graph ldm_sde_args = Ret (self, locals)
    ∧ ∃ d, init_legacy ldm_sde_args self locals = init_for_ldm self d
      ∧ ldm_model_channels d = 128 ∧ ldm_time_embed_dim d = 128 * 4
      ∧ length (ldm_channel_mult d) = length [128; 256; 256; 256]
      ∧ (∀ i b m, [128; 256; 256; 256] !! i = Some b →
           ldm_channel_mult d !! i = Some m →
           m * ldm_model_channels d = b - b mod 128)
      ∧ ldm_in_channels d = l_in_channels locals
      ∧ ldm_out_channels d = l_out_channels locals
      ∧ ldm_conv_resample d = l_conv_resample locals
      ∧ ldm_num_res_blocks d = Args.num_res_blocks ldm_sde_args
      ∧ ldm_attention_resolutions d = Args.attention_resolutions ldm_sde_args
      ∧ ldm_num_head_channels d = Args.num_head_channels ldm_sde_args
      ∧ ldm_dropout d = Args.dropout ldm_sde_args.
Proof.
  eexists _, _. split; [vm_compute; reflexivity|].
  eapply (ldm_topology_gets_rounded_widths ldm_sde_args _ _ 128 [256; 256; 256]);
    [reflexivity|reflexivity|lia].
Defined.

Lemma ddpm_topology_gets_rounded_widths_witness :
  ∃ self locals,
    init_block_graph ddpm_args = Ret (self, locals)
    ∧ ∃ d, init_legacy ddpm_args self locals = init_for_ddpm self d
      ∧ ddpm_ch d = 32 * 2
      ∧ length (ddpm_ch_mult d) = length [2; 3]
      ∧ (∀ i m m', [2; 3] !! i = Some m → ddpm_ch_mult d !! i = Some m' →
           ddpm_ch d * m' = 32 * m - (32 * m) mod (32 * 2))
      ∧ ddpm_in_channels d = l_in_channels locals
      ∧ ddpm_out_ch d = Args.out_ch ddpm_args
      ∧ ddpm_resolution d = Args.resolution ddpm_args
      ∧ ddpm_attn_resolutions d = Args.attn_resolutions ddpm_args
      ∧ ddpm_resamp_with_conv d = Args.resamp_with_conv ddpm_args
      ∧ ddpm_num_res_blocks d = Args.num_res_blocks ddpm_args.
Proof.
  eexists _, _. split; [vm_compute; reflexivity|].
  eapply (ddpm_topology_gets_rounded_widths ddpm_args _ _ 32 2 [3]);
    [reflexivity|reflexivity|reflexivity|reflexivity|lia].
Defined.

End LegacyCallsExamples.

(** ** The skip buffer of an unbalanced graph *)

Section UpLoop.
Context `{Backend}.

Lemma up_resnet_steps_short b i n h res temb :
  length res < n →
  up_resnet_steps b i n h res temb = Raise (IndexError "list index out of range").
Proof.
  revert i h res. induction n as [|n IH]; intros i h res Hn; [lia|].
  cbn [up_resnet_steps]. destruct res as [|r0 res0 _] using rev_ind; [done|].
  unfold getitem_last. rewrite last_snoc, ret_bind, slice_to_neg_snoc.
  apply IH. rewrite length_app in Hn. simpl in Hn. lia.
Qed.

Lemma up_block_call_short b h res temb :
  length res < len_resnets b →
  up_block_call b h res temb = Raise (IndexError "list index out of range").
Proof. intros Hn. unfold up_block_call. by rewrite up_resnet_steps_short. Qed.

(** X22: with the up blocks of [unet_new.py] as the specification
    describes them (one skip tensor per residual layer), the loop over
    [upsample_blocks] returns exactly when [down_block_res_samples] holds at
    least as many tensors as the up blocks have residual layers. Nothing
    checks that it holds no more: the surplus, the oldest entries, is left
    in the buffer and [forward] ignores it. When it holds fewer, the
    slices do not raise; the up block that runs short raises IndexError. *)
Theorem up_loop_takes_the_newest_skips (upsample_blocks : list UpBlock.t)
    (sample : Tensor) (down_block_res_samples : list Tensor) (emb : Tensor) :
  Forall (λ b, 0 < len_resnets b) upsample_blocks →
  let needed := sum_list (len_resnets <$> upsample_blocks) in
  if decide (needed ≤ length down_block_res_samples) then
    ∃ out, up_pass upsample_blocks sample down_block_res_samples emb
           = Ret (out, take (length down_block_res_samples - needed)
                         down_block_res_samples)
  else up_pass upsample_blocks sample down_block_res_samples emb
       = Raise (IndexError "list index out of range").
Proof.
  intros Hall. revert sample down_block_res_samples.
  induction Hall as [|b ubs Hb _ IH]; intros sample buf; cbv zeta.
  - change (sum_list (len_resnets <$> [])) with 0. rewrite decide_True by lia.
    exists sample. by rewrite Nat.sub_0_r, firstn_all.
  - rewrite fmap_cons, sum_list_cons. cbn [up_pass]. cbv zeta.
    specialize (IH).
    destruct (decide (len_resnets b ≤ length buf)) as [Hle|Hgt].
    + destruct (up_block_call_returns b sample (slice_from_neg (len_resnets b) buf) emb)
        as [s' Es].
      { rewrite length_slice_from_neg; lia. }
      rewrite Es, ret_bind.
      specialize (IH s' (slice_to_neg (len_resnets b) buf)). cbv zeta in IH.
      rewrite length_slice_to_neg in IH by lia.
      destruct (decide (sum_list (len_resnets <$> ubs) ≤ length buf - len_resnets b)).
      * rewrite decide_True by lia. destruct IH as [out ->]. exists out.
        unfold slice_to_neg. rewrite decide_False by lia.
        rewrite take_take. do 3 f_equal. lia.
      * rewrite decide_False by lia. done.
    + rewrite decide_False by lia.
      rewrite up_block_call_short; [done|].
      unfold slice_from_neg. rewrite decide_False by lia.
      rewrite length_drop. lia.
Qed.

End UpLoop.

Section UpLoopExamples.
Import Trace.

Lemma up_loop_takes_the_newest_skips_witness :
  ∃ self locals,
    init_block_graph plain_args = Ret (self, locals)
    ∧ let buffer := replicate 7 (image 1 64 32 32) in
      let needed := sum_list (len_resnets <$> upsample_blocks self) in
      if decide (needed ≤ length buffer) then
        ∃ out, up_pass (upsample_blocks self) (image 1 128 16 16) buffer
                 (image 1 256 1 1)
               = Ret (out, take (length buffer - needed) buffer)
      else up_pass (upsample_blocks self) (image 1 128 16 16) buffer (image 1 256 1 1)
           = Raise (IndexError "list index out of range").
Proof.
  eexists _, _. split; [vm_compute; reflexivity|].
  apply (up_loop_takes_the_newest_skips _ (image 1 128 16 16)
           (replicate 7 (image 1 64 32 32)) (image 1 256 1 1)).
  repeat constructor.
Defined.

End UpLoopExamples.

(** ** The levels of a model built with [sde] *)

(** X23: with [sde] set, construction gets past the block graph only if
    [nf] is given and [ch_mult] has at least four entries: the down block
    types are rebound to a tuple of four, and each block reads its width
    from [block_channels], which has one entry per entry of [ch_mult]. The
    caller's [up_blocks] is not rebound and must not be longer than
    [ch_mult] either. *)
Theorem sde_needs_four_levels (a : Args.t) :
  Args.sde a = true → returns (init_block_graph a) →
  ∃ nf ch_mult,
    Args.nf a = Some nf ∧ Args.ch_mult a = Some ch_mult
    ∧ 4 ≤ length ch_mult
    ∧ length (Args.up_blocks a) ≤ length ch_mult.
Proof.
  intros Hsde [[self locals] E].
  apply init_block_graph_inv in E
    as (cfg & c0 & cin & ts & dim & dbs & c_last & r0 & ubs & cout
        & Hov & Hc0 & _ & _ & Hdbs & _ & _ & Hubs & _).
  unfold sde_overrides in Hov. rewrite Hsde in Hov.
  apply bind_Ret in Hov as (bc & Hbc & Hov). injection Hov as <- _.
  cbn [l_block_channels l_down_blocks] in *.
  apply scale_list_Ret in Hbc as (nf & ms & Hnf & Hms & ->).
  2: { intros ->. done. }
  exists nf, ms. split; [done|]. split; [done|].
  assert (returns (build_down_blocks a (map (λ x, nf * x) ms) (c0 * 4) 0 c0
                     sde_down_blocks_tags)) as Hd by by eexists.
  assert (returns (build_up_blocks a (map (λ x, nf * x) ms) (c0 * 4) 0 r0
                     (Args.up_blocks a))) as Hu by by eexists.
  apply build_down_blocks_returns in Hd as (Hd & _).
  apply build_up_blocks_returns in Hu as (Hu & _).
  rewrite length_map in Hd, Hu. split.
  - specialize (Hd ltac:(done)). simpl in Hd. lia.
  - destruct (Args.up_blocks a); [simpl; lia|]. by apply Hu.
Qed.

Section FourLevelsExamples.
Import Trace.

Lemma sde_needs_four_levels_witness :
  ∃ nf ch_mult,
    Args.nf sde_args = Some nf ∧ Args.ch_mult sde_args = Some ch_mult
    ∧ 4 ≤ length ch_mult
    ∧ length (Args.up_blocks sde_args) ≤ length ch_mult.
Proof.
  apply (sde_needs_four_levels sde_args); [reflexivity|].
  eexists. vm_compute. reflexivity.
Defined.

End FourLevelsExamples.
